(** * Trend-following strategy research: indicators, sizing, trailing stop, objective

    A shallow embedding of [strategy_research/final_strategy.py] and
    [strategy_research/backtest_runner.py].

    Numbers.  The Python code computes with [np.float64] values.  They are
    modelled as rationals extended with the three non-finite values of
    IEEE 754 ([+inf], [-inf], [NaN]); signed zeros are not modelled.  The
    products and quotients of the sizing lines, whose results [int] turns
    into a number of units, are computed as binary64 does: the exact result
    rounded to the nearest binary64 number, ties to even, with overflow to
    an infinity ([round64], [fmul64], [fdiv64]).  The indicators and the
    stop prices are only compared with each other, and are computed
    without rounding.  Every comparison with [NaN] is false, [x / 0] is an
    infinity or [NaN] (numpy semantics: a warning, no exception) and [int]
    raises on a non-finite argument, as in Python.

    pandas.  [Series.shift], [Series.rolling(n).mean/sum/max/min],
    [DataFrame.max(axis=1)] (which skips [NaN]) and the elementwise
    arithmetic are modelled on lists, following the library's documented
    behaviour with default arguments. *)

From Stdlib Require Import String ZArith QArith Qround Qabs Qpower List Bool.
From Stdlib Require Import Lia Lqa.
From Stdlib Require Import Sorted.
From Stdlib Require Floats.SpecFloat.
Import ListNotations.

(* ------------------------------------------------------------------ *)
(** ** Exceptions and results *)

Inductive exn : Type :=
  | ValueError      (* int(nan) *)
  | OverflowError   (* int(inf) *)
  | KeyError        (* df['col'] on a missing column *)
  | AttributeError  (* self.data.Col on a missing column *)
  | RuntimeError.   (* self.I(...) when the indicator function raised *)

(** A computation that may raise. *)
Definition raises (A : Type) : Type := (exn + A)%type.

Definition ret {A} (a : A) : raises A := inr a.
Definition raise {A} (e : exn) : raises A := inl e.
Definition bind {A B} (c : raises A) (k : A -> raises B) : raises B :=
  match c with
  | inl e => inl e
  | inr a => k a
  end.

Declare Scope py_scope.
Delimit Scope py_scope with py.
Notation "x <- c ;; k" := (bind c (fun x => k))
  (at level 61, c at next level, right associativity) : py_scope.

(* ------------------------------------------------------------------ *)
(** ** Floating-point values *)

Module F64.

Inductive float64 : Type :=
  | Fin (q : Q)
  | PInf
  | NInf
  | NaN.

Definition Qsgn (q : Q) : comparison := (Qnum q ?= 0)%Z.

Definition sgn_mul (a b : comparison) : comparison :=
  match a, b with
  | Eq, _ | _, Eq => Eq
  | Gt, Gt | Lt, Lt => Gt
  | _, _ => Lt
  end.

(** The infinity of a given sign; a zero sign stands for an invalid
    operation ([0 * inf], [0 / 0]). *)
Definition inf_of (c : comparison) : float64 :=
  match c with
  | Gt => PInf
  | Lt => NInf
  | Eq => NaN
  end.

(** Sign of a non-NaN value. *)
Definition sgn (x : float64) : comparison :=
  match x with
  | Fin q => Qsgn q
  | PInf => Gt
  | NInf => Lt
  | NaN => Eq
  end.

Definition isna (x : float64) : bool :=
  match x with NaN => true | _ => false end.

Definition is_finite (x : float64) : bool :=
  match x with Fin _ => true | _ => false end.

Definition fneg (x : float64) : float64 :=
  match x with
  | Fin q => Fin (- q)
  | PInf => NInf
  | NInf => PInf
  | NaN => NaN
  end.

Definition fabs (x : float64) : float64 :=
  match x with
  | Fin q => Fin (Qabs q)
  | PInf | NInf => PInf
  | NaN => NaN
  end.

Definition fadd (x y : float64) : float64 :=
  match x, y with
  | NaN, _ | _, NaN => NaN
  | Fin a, Fin b => Fin (a + b)
  | PInf, NInf | NInf, PInf => NaN
  | PInf, _ | _, PInf => PInf
  | NInf, _ | _, NInf => NInf
  end.

Definition fsub (x y : float64) : float64 := fadd x (fneg y).

Definition fmul (x y : float64) : float64 :=
  match x, y with
  | NaN, _ | _, NaN => NaN
  | Fin a, Fin b => Fin (a * b)
  | _, _ => inf_of (sgn_mul (sgn x) (sgn y))
  end.

(** numpy division: a zero divisor gives an infinity (or [NaN] for [0/0])
    with a warning, never an exception.  The zero is the positive one. *)
Definition fdiv (x y : float64) : float64 :=
  match x, y with
  | NaN, _ | _, NaN => NaN
  | Fin a, Fin b => if Qeq_bool b 0 then inf_of (Qsgn a) else Fin (a / b)
  | Fin _, _ => Fin 0
  | _, Fin b => inf_of (sgn_mul (sgn x) (if Qeq_bool b 0 then Gt else Qsgn b))
  | _, _ => NaN
  end.

(** IEEE comparison: [None] when an operand is [NaN] (unordered). *)
Definition fcmp (x y : float64) : option comparison :=
  match x, y with
  | NaN, _ | _, NaN => None
  | Fin a, Fin b => Some (a ?= b)
  | PInf, PInf | NInf, NInf => Some Eq
  | PInf, _ | _, NInf => Some Gt
  | NInf, _ | _, PInf => Some Lt
  end.

Definition fltb (x y : float64) : bool :=
  match fcmp x y with Some Lt => true | _ => false end.
Definition fgtb (x y : float64) : bool :=
  match fcmp x y with Some Gt => true | _ => false end.
Definition feqb (x y : float64) : bool :=
  match fcmp x y with Some Eq => true | _ => false end.
Definition fleb (x y : float64) : bool :=
  match fcmp x y with Some Lt | Some Eq => true | _ => false end.

(** *** Rounding to binary64

    A binary64 number is [m * 2^e] with [|m| < 2^53] and
    [-1074 <= e <= 971]. *)

Definition pow2 (e : Z) : Q := Qpower 2 e.

(** [floor(log2 q)] of a positive rational. *)
Definition ilog2 (q : Q) : Z :=
  let k := (Z.log2 (Qnum q) - Z.log2 (Zpos (Qden q)))%Z in
  if Qle_bool (pow2 k) q then k else (k - 1)%Z.

(** The nearest integer, the even one of two nearest. *)
Definition rne (x : Q) : Z :=
  let f := Qfloor x in
  match Qcompare (x - inject_Z f) (1 # 2) with
  | Lt => f
  | Gt => (f + 1)%Z
  | Eq => if Z.even f then f else (f + 1)%Z
  end.

(** Exponent and significand of a positive rational rounded to nearest,
    ties to even: a significand of 53 bits, or of fewer below [2^-1022]
    where the exponent stays at -1074 (subnormal numbers). *)
Definition exponent_of (q : Q) : Z := Z.max (-1074) (ilog2 q - 52).
Definition significand_of (q : Q) : Z := rne (q / pow2 (exponent_of q)).

(** The rounded value: [+inf] from [2^1024 - 2^970] on, zero up to
    [2^-1075]. *)
Definition round_pos (q : Q) : float64 :=
  let e := exponent_of q in
  let m := significand_of q in
  if ((971 <? e) || ((e =? 971) && (m =? 2 ^ 53)))%Z then PInf
  else Fin (Qred (inject_Z m * pow2 e)).

Definition round64 (q : Q) : float64 :=
  let q := Qred q in
  match Qsgn q with
  | Eq => Fin 0
  | Gt => round_pos q
  | Lt => fneg (round_pos (- q))
  end.

(** The binary64 number a value stands for. *)
Definition f64 (x : float64) : float64 :=
  match x with
  | Fin q => round64 q
  | _ => x
  end.

(** The binary64 product and quotient: the exact result of the operation
    on two binary64 numbers, rounded. *)
Definition fmul64 (x y : float64) : float64 := f64 (fmul (f64 x) (f64 y)).
Definition fdiv64 (x y : float64) : float64 := f64 (fdiv (f64 x) (f64 y)).

(** Truncation toward zero of a rational. *)
Definition Qtrunc (q : Q) : Z := Z.quot (Qnum q) (Zpos (Qden q)).

(** Python's [int(x)] on a float. *)
Definition int (x : float64) : raises Z :=
  match x with
  | Fin q => ret (Qtrunc q)
  | PInf | NInf => raise OverflowError
  | NaN => raise ValueError
  end.

End F64.
Import F64.

Declare Scope f64_scope.
Delimit Scope f64_scope with f64.
Bind Scope f64_scope with float64.
Infix "+" := fadd : f64_scope.
Infix "-" := fsub : f64_scope.
Infix "*" := fmul : f64_scope.
Infix "/" := fdiv : f64_scope.
Infix "<?" := fltb : f64_scope.
Infix ">?" := fgtb : f64_scope.
Infix "=?" := feqb : f64_scope.

(** Decimal literals of the source. *)
Definition lit (q : Q) : float64 := Fin q.

(** *** The Standard Library's specification of binary64

    [SpecFloat] specifies the operations of IEEE 754 on significand and
    exponent; at precision 53 and [emax = 1024] it is the specification of
    Rocq's primitive binary64 numbers.  The two operations below are its
    product and quotient, used to check [fmul64] and [fdiv64] on the
    numbers of the examples. *)

Definition of_spec_float (x : SpecFloat.spec_float) : float64 :=
  match x with
  | SpecFloat.S754_zero _ => Fin 0
  | SpecFloat.S754_infinity s => if s then NInf else PInf
  | SpecFloat.S754_nan => NaN
  | SpecFloat.S754_finite s m e =>
      Fin (Qred ((if s then -1 else 1) * inject_Z (Zpos m) * pow2 e))
  end.

(** A binary64 number [n / 2^k] in the library's representation. *)
Definition to_spec_float (x : float64) : SpecFloat.spec_float :=
  match x with
  | Fin q =>
      SpecFloat.binary_normalize 53 1024 (Qnum q)
        (- Z.log2 (Zpos (Qden q))) false
  | PInf => SpecFloat.S754_infinity false
  | NInf => SpecFloat.S754_infinity true
  | NaN => SpecFloat.S754_nan
  end.

Definition spec_fmul (x y : float64) : float64 :=
  of_spec_float
    (SpecFloat.SFmul 53 1024 (to_spec_float (f64 x)) (to_spec_float (f64 y))).
Definition spec_fdiv (x y : float64) : float64 :=
  of_spec_float
    (SpecFloat.SFdiv 53 1024 (to_spec_float (f64 x)) (to_spec_float (f64 y))).

(* ------------------------------------------------------------------ *)
(** ** Strategy parameters, trades, orders *)

(** The class attributes of [FinalLowDrawdownStrategy] and
    [RiskManagedStrategy]. *)
Record Params : Type := {
  n_atr : nat;
  atr_multiplier : float64;
  ma_period : nat;
  donchian_period : nat;
  adx_threshold : float64;
  risk_per_trade : float64
}.

(** An open trade of the execution engine: signed size and stop price. *)
Record Trade : Type := {
  size : Z;
  sl : float64
}.

Definition is_long (t : Trade) : bool := (0 <? size t)%Z.

Definition set_sl (t : Trade) (s : float64) : Trade :=
  {| size := size t; sl := s |}.

(** [self.buy(sl=, size=)] and [self.sell(sl=, size=)]. *)
Inductive Order : Type :=
  | Buy (stop : float64) (units : Z)
  | Sell (stop : float64) (units : Z).

Definition order_size (o : Order) : Z :=
  match o with Buy _ u | Sell _ u => u end.

(** What [next] reads from [self] on one bar: [len(self.data)],
    the last value of each indicator array, the last close, the
    equity and the open trades. *)
Record Bar : Type := {
  data_len : nat;
  Close_last : float64;
  ma_last : float64;
  adx_last : float64;
  atr_last : float64;
  donchian_high_last : float64;
  donchian_low_last : float64;
  equity : float64;
  trades : list Trade
}.

Definition with_trades (b : Bar) (ts : list Trade) : Bar :=
  {| data_len := data_len b; Close_last := Close_last b; ma_last := ma_last b;
     adx_last := adx_last b; atr_last := atr_last b;
     donchian_high_last := donchian_high_last b;
     donchian_low_last := donchian_low_last b;
     equity := equity b; trades := ts |}.

(** [bool(self.position)]: the net size of the open trades is not zero. *)
Definition position (b : Bar) : bool :=
  negb (fold_right Z.add 0%Z (map (@size) (trades b)) =? 0)%Z.

(** The effect of one call of [next]: the orders placed and the open
    trades with their stops as left by the call. *)
Record Effect : Type := {
  orders : list Order;
  trades_after : list Trade
}.

Definition skip (b : Bar) : Effect :=
  {| orders := []; trades_after := trades b |}.

(* ------------------------------------------------------------------ *)
(** ** [next]: entry evaluation, position sizing and trailing stop *)

Section Next.

Local Open Scope py_scope.

(** Lines 71 and 72: [self.equity * self.risk_per_trade] and
    [atr_value * self.atr_multiplier]. *)
Definition risk_amount (p : Params) (b : Bar) : float64 :=
  fmul64 (equity b) (risk_per_trade p).
Definition stop_distance (p : Params) (b : Bar) : float64 :=
  fmul64 (atr_last b) (atr_multiplier p).

(** Lines 76-80: the risk-based size, then the capital ceiling as a cap.
    Both quotients are binary64 values; [int] raises on an infinite or
    undefined one. *)
Definition position_size (risk_amount stop_distance equity price : float64)
  : raises Z :=
  units <- int (fdiv64 risk_amount stop_distance) ;;
  max_units <- int (fdiv64 (fmul64 equity (lit 0.95)) price) ;;
  ret (Z.min units max_units).

(** The two arguments of [int] on a bar. *)
Definition risk_quotient (p : Params) (b : Bar) : float64 :=
  fdiv64 (risk_amount p b) (stop_distance p b).
Definition capital_quotient (b : Bar) : float64 :=
  fdiv64 (fmul64 (equity b) (lit 0.95)) (Close_last b).

(** Lines 84-92: the long entry, else the short entry, else nothing. *)
Definition signal (p : Params) (b : Bar) (stop_distance : float64)
  (units : Z) : list Order :=
  let price := Close_last b in
  let uptrend := (price >? ma_last b)%f64 in
  let strong_trend := (adx_last b >? adx_threshold p)%f64 in
  if uptrend && strong_trend && (price >? donchian_high_last b)%f64
  then [Buy (price - stop_distance)%f64 units]
  else if negb uptrend && strong_trend && (price <? donchian_low_last b)%f64
  then [Sell (price + stop_distance)%f64 units]
  else [].

(** The [if not self.position:] block.  [None] is the early [return]
    (which also leaves the method), [Some os] the orders placed when
    control falls through to the trailing-stop loop. *)
Definition entry (p : Params) (b : Bar) : raises (option (list Order)) :=
  let price := Close_last b in
  let risk_amount := risk_amount p b in
  let stop_distance := stop_distance p b in
  if (stop_distance =? lit 0)%f64 then ret None
  else
    units <- position_size risk_amount stop_distance (equity b) price ;;
    if (units <? 1)%Z then ret None
    else ret (Some (signal p b stop_distance units)).

(** One iteration of [for trade in self.trades:]. *)
Definition trail (p : Params) (b : Bar) (t : Trade) : Trade :=
  let price := Close_last b in
  let atr_value := atr_last b in
  if is_long t then
    let new_sl := (price - atr_value * atr_multiplier p)%f64 in
    if (new_sl >? sl t)%f64 then set_sl t new_sl else t
  else
    let new_sl := (price + atr_value * atr_multiplier p)%f64 in
    if (new_sl <? sl t)%f64 then set_sl t new_sl else t.

(** The body shared by the two strategy classes; they differ in the
    warm-up bound of the first line only. *)
Definition next_with (warmup : Params -> nat) (p : Params) (b : Bar)
  : raises Effect :=
  if (data_len b <? warmup p)%nat then ret (skip b)
  else if isna (ma_last b) then ret (skip b)
  else
    placed <- (if negb (position b) then entry p b else ret (Some [])) ;;
    match placed with
    | None => ret (skip b)
    | Some os =>
        ret {| orders := os; trades_after := map (trail p b) (trades b) |}
    end.

End Next.

Module FinalLowDrawdownStrategy.

(** [if len(self.data) < self.ma_period + 5: return] *)
Definition warmup (p : Params) : nat := ma_period p + 5.

Definition next : Params -> Bar -> raises Effect := next_with warmup.

Definition defaults : Params :=
  {| n_atr := 14; atr_multiplier := lit 4; ma_period := 800;
     donchian_period := 100; adx_threshold := lit 25;
     risk_per_trade := lit 0.01 |}.

End FinalLowDrawdownStrategy.

Module RiskManagedStrategy.

(** [if len(self.data) < max(self.ma_period, self.donchian_period) + 5: return] *)
Definition warmup (p : Params) : nat :=
  Nat.max (ma_period p) (donchian_period p) + 5.

Definition next : Params -> Bar -> raises Effect := next_with warmup.

Definition defaults : Params :=
  {| n_atr := 14; atr_multiplier := lit 4; ma_period := 200;
     donchian_period := 50; adx_threshold := lit 25;
     risk_per_trade := lit 0.02 |}.

End RiskManagedStrategy.

(* ------------------------------------------------------------------ *)
(** ** The pandas operations the indicators use *)

Module Pandas.

Definition Series : Type := list float64.

(** [s.shift(1)]: same length, [NaN] first, last value dropped. *)
Definition shift (xs : Series) : Series :=
  match xs with
  | [] => []
  | _ :: _ => NaN :: removelast xs
  end.

(** Elementwise binary operation of two series over the same index. *)
Definition zip_with {A B C} (f : A -> B -> C) (xs : list A) (ys : list B)
  : list C :=
  map (fun xy => f (fst xy) (snd xy)) (combine xs ys).

Definition abs (xs : Series) : Series := map fabs xs.

(** The finite values of a window, or [None] when one of them is [NaN]
    or infinite (rolling aggregations read an infinity as [NaN], and with
    the default [min_periods = window] one [NaN] makes the result [NaN]). *)
Fixpoint finites (w : list float64) : option (list Q) :=
  match w with
  | [] => Some []
  | Fin q :: r => option_map (cons q) (finites r)
  | _ :: _ => None
  end.

(** The [n] values ending at position [i], when there are that many. *)
Definition window (n i : nat) (xs : Series) : option (list float64) :=
  if (i + 1 <? n)%nat then None
  else Some (firstn n (skipn (i + 1 - n) xs)).

(** [xs.rolling(n).agg()] *)
Definition rolling (n : nat) (agg : list Q -> float64) (xs : Series)
  : Series :=
  map (fun i =>
         match window n i xs with
         | None => NaN
         | Some w =>
             match finites w with
             | Some qs => agg qs
             | None => NaN
             end
         end)
      (seq 0 (length xs)).

Definition qsum (qs : list Q) : Q := fold_right Qplus 0 qs.

Definition qmax (a b : Q) : Q := if Qle_bool a b then b else a.
Definition qmin (a b : Q) : Q := if Qle_bool a b then a else b.

Definition agg_sum (qs : list Q) : float64 := Fin (qsum qs).

Definition agg_mean (qs : list Q) : float64 :=
  match qs with
  | [] => NaN
  | _ :: _ => Fin (qsum qs / inject_Z (Z.of_nat (length qs)))
  end.

Definition agg_max (qs : list Q) : float64 :=
  match qs with
  | [] => NaN
  | q :: r => Fin (fold_left qmax r q)
  end.

Definition agg_min (qs : list Q) : float64 :=
  match qs with
  | [] => NaN
  | q :: r => Fin (fold_left qmin r q)
  end.

(** [max] of two cells with [skipna=True]. *)
Definition nanmax (x y : float64) : float64 :=
  if isna x then y
  else if isna y then x
  else if (x >? y)%f64 then x else y.

(** [pd.DataFrame({'tr1': a, 'tr2': b, 'tr3': c}).max(axis=1)] *)
Definition row_max3 (a b c : Series) : Series :=
  zip_with nanmax (zip_with nanmax a b) c.

(** [np.where(cond, xs, 0)] *)
Definition where0 (cond : list bool) (xs : Series) : Series :=
  zip_with (fun (c : bool) x => if c then x else lit 0) cond xs.

(** A data frame: its number of rows and its named columns. *)
Record DataFrame : Type := {
  nrows : nat;
  columns : list (string * Series)
}.

(** [df[name]] *)
Definition getitem (df : DataFrame) (name : string) : raises Series :=
  match find (fun c => String.eqb (fst c) name) (columns df) with
  | Some c => ret (snd c)
  | None => raise KeyError
  end.

End Pandas.
Import Pandas.

(* ------------------------------------------------------------------ *)
(** ** Indicators *)

Section Indicators.

Local Open Scope py_scope.

(** [pd.Series(values).rolling(n).mean()] *)
Definition SMA (values : Series) (n : nat) : Series :=
  rolling n agg_mean values.

(** The true range column built inside [ATR]. *)
Definition true_range (high low close : Series) : Series :=
  let prev_close := shift close in
  row_max3 (zip_with fsub high low)
           (abs (zip_with fsub high prev_close))
           (abs (zip_with fsub low prev_close)).

(** The [try] block of [ATR]. *)
Definition ATR_try (df : DataFrame) (n : nat) : raises Series :=
  high <- getitem df "High" ;;
  low <- getitem df "Low" ;;
  close <- getitem df "Close" ;;
  ret (rolling n agg_mean (true_range high low close)).

(** [ATR]: on any exception, a series of zeros over the frame's index. *)
Definition ATR (df : DataFrame) (n : nat) : Series :=
  match ATR_try df n with
  | inr s => s
  | inl _ => repeat (lit 0) (nrows df)
  end.

Definition ADX (df : DataFrame) (n : nat) : raises Series :=
  high <- getitem df "High" ;;
  low <- getitem df "Low" ;;
  close <- getitem df "Close" ;;
  let up := zip_with fsub high (shift high) in
  let down := zip_with fsub (shift low) low in
  let pos_dm :=
    where0 (zip_with andb (zip_with fgtb up down)
                     (map (fun u => (u >? lit 0)%f64) up)) up in
  let neg_dm :=
    where0 (zip_with andb (zip_with fgtb down up)
                     (map (fun d => (d >? lit 0)%f64) down)) down in
  let tr := ATR df 1 in
  let tr_s := rolling n agg_sum tr in
  let pos_dm_s := rolling n agg_sum pos_dm in
  let neg_dm_s := rolling n agg_sum neg_dm in
  let pos_di := map (fmul (lit 100)) (zip_with fdiv pos_dm_s tr_s) in
  let neg_di := map (fmul (lit 100)) (zip_with fdiv neg_dm_s tr_s) in
  let dx :=
    map (fmul (lit 100))
        (zip_with fdiv (abs (zip_with fsub pos_di neg_di))
                  (zip_with fadd pos_di neg_di)) in
  let adx := rolling n agg_mean dx in
  ret adx.

(** The breakout channel: [rolling(n).max().shift(1)] of the highs and
    [rolling(n).min().shift(1)] of the lows. *)
Definition donchian_max (n : nat) (x : Series) : Series :=
  shift (rolling n agg_max x).
Definition donchian_min (n : nat) (x : Series) : Series :=
  shift (rolling n agg_min x).

(** The arrays [init] stores on [self], with the close column. *)
Record Indicators : Type := {
  close_col : Series;
  atr : Series;
  ma : Series;
  adx : Series;
  donchian_high : Series;
  donchian_low : Series
}.

(** [self.I(func, ...)]: the engine calls the indicator function and
    turns any exception it raises into a [RuntimeError]. *)
Definition I {A} (value : raises A) : raises A :=
  match value with
  | inl _ => raise RuntimeError
  | inr v => ret v
  end.

(** [self.data.Close], [self.data.High], [self.data.Low]: a missing
    column is an [AttributeError]. *)
Definition data_column (df : DataFrame) (name : string) : raises Series :=
  match getitem df name with
  | inl _ => raise AttributeError
  | inr s => ret s
  end.

Definition init (p : Params) (df : DataFrame) : raises Indicators :=
  atr <- I (ret (ATR df (n_atr p))) ;;
  close <- data_column df "Close" ;;
  ma <- I (ret (SMA close (ma_period p))) ;;
  adx <- I (ADX df 14) ;;
  high <- data_column df "High" ;;
  donchian_high <- I (ret (donchian_max (donchian_period p) high)) ;;
  low <- data_column df "Low" ;;
  donchian_low <- I (ret (donchian_min (donchian_period p) low)) ;;
  ret {| close_col := close; atr := atr; ma := ma; adx := adx;
         donchian_high := donchian_high; donchian_low := donchian_low |}.

(** The view [next] has at bar index [i]: the arrays cut after [i], so
    that [a[-1]] is [a[i]] and [len(self.data)] is [i + 1]. *)
Definition bar_at (ind : Indicators) (i : nat) (eq : float64)
  (ts : list Trade) : Bar :=
  {| data_len := S i;
     Close_last := nth i (close_col ind) NaN;
     ma_last := nth i (ma ind) NaN;
     adx_last := nth i (adx ind) NaN;
     atr_last := nth i (atr ind) NaN;
     donchian_high_last := nth i (donchian_high ind) NaN;
     donchian_low_last := nth i (donchian_low ind) NaN;
     equity := eq;
     trades := ts |}.

End Indicators.

(** A frame with the three price columns the indicators read. *)
Definition ohlc (high low close : Series) : DataFrame :=
  {| nrows := length close;
     columns := [("High"%string, high); ("Low"%string, low);
                 ("Close"%string, close)] |}.

(* ------------------------------------------------------------------ *)
(** ** The optimizer's objective *)

(** The entries of the statistics series that [optim_func] reads. *)
Record Stats : Type := {
  n_trades : Z;              (* series['# Trades'] *)
  max_drawdown_pct : float64; (* series['Max. Drawdown [%]'] *)
  return_pct : float64        (* series['Return [%]'] *)
}.

Definition optim_func (series : Stats) : float64 :=
  if (n_trades series <? 10)%Z then lit (-1)
  else if (max_drawdown_pct series <? lit (-20))%f64 then lit (-1)
  else (return_pct series / fabs (max_drawdown_pct series))%f64.

(* ------------------------------------------------------------------ *)
(** ** A position held over several bars *)

(** The stop of one open trade after each of a sequence of bars: the
    engine hands the trade, with the stop [next] left on it, to the next
    call.  A call that raises ends the sequence. *)
Fixpoint stop_path (next : Params -> Bar -> raises Effect) (p : Params)
  (t : Trade) (bars : list Bar) : list float64 :=
  match bars with
  | [] => []
  | b :: rest =>
      match next p (with_trades b [t]) with
      | inr {| orders := _; trades_after := [t'] |} =>
          sl t' :: stop_path next p t' rest
      | _ => []
      end
  end.

(* ------------------------------------------------------------------ *)
(** ** The sizing rule as the specification words it *)

(** [floor(equity * risk_fraction / stop_distance)], capped by
    [floor(equity * 0.95 / price)]. *)
Definition spec_units (E r d price : Q) : Z :=
  Z.min (Qfloor (E * r / d)) (Qfloor (E * 0.95 / price)).

(** The orders a call placed, [[]] when it raised. *)
Definition placed (r : raises Effect) : list Order :=
  match r with
  | inr e => orders e
  | inl _ => []
  end.


(* ------------------------------------------------------------------ *)
(** ** Concrete bars and parameters used in the examples below *)

Definition with_risk (p : Params) (r : float64) : Params :=
  {| n_atr := n_atr p; atr_multiplier := atr_multiplier p;
     ma_period := ma_period p; donchian_period := donchian_period p;
     adx_threshold := adx_threshold p; risk_per_trade := r |}.

(** Bar 900 of a run: close 100 above a trend filter of 90 and a channel
    of 99, ADX 30, ATR 2, ten million of equity, no open trade. *)
Definition bar_breakout : Bar :=
  {| data_len := 900; Close_last := lit 100; ma_last := lit 90;
     adx_last := lit 30; atr_last := lit 2;
     donchian_high_last := lit 99; donchian_low_last := lit 80;
     equity := lit 10000000; trades := [] |}.

(** The same situation at a price of 50000 with an ATR of 10000. *)
Definition bar_wide_atr : Bar :=
  {| data_len := 900; Close_last := lit 50000; ma_last := lit 40000;
     adx_last := lit 30; atr_last := lit 10000;
     donchian_high_last := lit 49000; donchian_low_last := lit 30000;
     equity := lit 10000000; trades := [] |}.

(** A flat bar at a price of 1 with an ATR of 0.09 and an equity of
    12345678, and parameters with a multiplier of 3 and 3% of risk. *)
Definition bar_rounding : Bar :=
  {| data_len := 900; Close_last := lit 1; ma_last := lit 0.5;
     adx_last := lit 30; atr_last := lit 0.09;
     donchian_high_last := lit 0.9; donchian_low_last := lit 0.1;
     equity := lit 12345678; trades := [] |}.

Definition params_rounding : Params :=
  {| n_atr := 14; atr_multiplier := lit 3; ma_period := 800;
     donchian_period := 100; adx_threshold := lit 25;
     risk_per_trade := lit 0.03 |}.

(** The bar [bar_breakout] with an ATR of [2^-1060]. *)
Definition bar_tiny_atr : Bar :=
  {| data_len := 900; Close_last := lit 100; ma_last := lit 90;
     adx_last := lit 30; atr_last := Fin (pow2 (-1060));
     donchian_high_last := lit 99; donchian_low_last := lit 80;
     equity := lit 10000000; trades := [] |}.

(** A flat bar with an ATR of -2 at a price of [10^-305]. *)
Definition bar_negative_atr : Bar :=
  {| data_len := 900; Close_last := Fin (1 / inject_Z (10 ^ 305));
     ma_last := lit 90; adx_last := lit 30; atr_last := lit (-2);
     donchian_high_last := lit 99; donchian_low_last := lit 80;
     equity := lit 10000000; trades := [] |}.

(** A long trade of 10 units with its stop at 90, and three later bars
    closing at 100, 95 and 110 with an ATR of 2. *)
Definition long_trade : Trade := {| size := 10; sl := lit 90 |}.

Definition bar_close (c : Q) : Bar :=
  {| data_len := 900; Close_last := lit c; ma_last := lit 90;
     adx_last := lit 30; atr_last := lit 2;
     donchian_high_last := lit 99; donchian_low_last := lit 80;
     equity := lit 10000000; trades := [] |}.

Definition bars_held : list Bar := [bar_close 100; bar_close 95; bar_close 110].



(** Twelve trades, a return of 35% and no drawdown at all. *)
Definition stats_no_drawdown : Stats :=
  {| n_trades := 12; max_drawdown_pct := lit 0; return_pct := lit 35 |}.

(** Three trades only, with a return of 900%. *)
Definition stats_few_trades : Stats :=
  {| n_trades := 3; max_drawdown_pct := lit (-5); return_pct := lit 900 |}.

(** Every value of a series is finite. *)
Definition all_finite (xs : Series) : bool := forallb is_finite xs.

(** A value that is finite or [NaN], but no infinity. *)
Definition fin_or_nan (x : float64) : bool :=
  match x with
  | Fin _ | NaN => true
  | PInf | NInf => false
  end.

(** Three bars: highs 10, 11, 12; lows 8, 9, 10; closes 9, 10, 11. *)
Definition highs3 : Series := [lit 10; lit 11; lit 12].
Definition lows3 : Series := [lit 8; lit 9; lit 10].
Definition closes3 : Series := [lit 9; lit 10; lit 11].

(** Five highs whose last one, 20, is above every earlier one, and the
    same series with the last high replaced by 11. *)
Definition highs_new_high : Series := [lit 10; lit 12; lit 11; lit 13; lit 20].
Definition highs_no_new_high : Series := [lit 10; lit 12; lit 11; lit 13; lit 11].

(** An aggregate that picks one of the values of its window. *)
Definition picks (agg : list Q -> float64) : Prop :=
  forall qs, agg qs = NaN \/ exists m, agg qs = Fin m /\ In m qs.

(** A flat bar like [bar_breakout] whose ATR is undefined. *)
Definition bar_nan_atr : Bar :=
  {| data_len := 900; Close_last := lit 100; ma_last := lit 90;
     adx_last := lit 30; atr_last := NaN;
     donchian_high_last := lit 99; donchian_low_last := lit 80;
     equity := lit 10000000; trades := [] |}.

(** A flat bar whose ATR is zero, and one whose ATR is negative. *)
Definition bar_zero_atr : Bar :=
  {| data_len := 900; Close_last := lit 100; ma_last := lit 90;
     adx_last := lit 30; atr_last := lit 0;
     donchian_high_last := lit 99; donchian_low_last := lit 80;
     equity := lit 10000000; trades := [] |}.

(** Parameters whose ATR window, 20, is longer than the trend filter's
    and the channel's windows plus 5. *)
Definition params_long_atr : Params :=
  {| n_atr := 20; atr_multiplier := lit 4; ma_period := 2;
     donchian_period := 2; adx_threshold := lit 25;
     risk_per_trade := lit 0.01 |}.

(** Ten rising bars. *)
Definition rising (from : Z) : Series :=
  map (fun k => Fin (inject_Z (from + Z.of_nat k))) (seq 0 10).

Definition frame10 : DataFrame := ohlc (rising 11) (rising 9) (rising 10).

(** Bar 100 of a run with a long trade open whose stop, 90, is below the
    candidate stop of this bar, 92. *)
Definition bar_early : Bar :=
  {| data_len := 100; Close_last := lit 100; ma_last := lit 90;
     adx_last := lit 30; atr_last := lit 2;
     donchian_high_last := lit 99; donchian_low_last := lit 80;
     equity := lit 10000000; trades := [long_trade] |}.

(* ------------------------------------------------------------------ *)
(** ** Names for parts of the indicators, used to state their properties *)

(** The series [ADX] computes once it has read the three columns:
    [tr] is [ATR(df, 1).values]. *)
Definition ADX_series (tr high low : Series) (n : nat) : Series :=
  let up := zip_with fsub high (shift high) in
  let down := zip_with fsub (shift low) low in
  let pos_dm :=
    where0 (zip_with andb (zip_with fgtb up down)
                     (map (fun u => (u >? lit 0)%f64) up)) up in
  let neg_dm :=
    where0 (zip_with andb (zip_with fgtb down up)
                     (map (fun d => (d >? lit 0)%f64) down)) down in
  let tr_s := rolling n agg_sum tr in
  let pos_dm_s := rolling n agg_sum pos_dm in
  let neg_dm_s := rolling n agg_sum neg_dm in
  let pos_di := map (fmul (lit 100)) (zip_with fdiv pos_dm_s tr_s) in
  let neg_di := map (fmul (lit 100)) (zip_with fdiv neg_dm_s tr_s) in
  let dx :=
    map (fmul (lit 100))
        (zip_with fdiv (abs (zip_with fsub pos_di neg_di))
                  (zip_with fadd pos_di neg_di)) in
  rolling n agg_mean dx.

(** A frame without its [High] column. *)
Definition frame_no_high : DataFrame :=
  {| nrows := 3;
     columns := [("Low"%string, lows3); ("Close"%string, closes3)] |}.

(** Forty bars rising by one per bar (high = close, low one below), and
    parameters with windows of 2. *)
Definition rising40 (from : Z) : Series :=
  map (fun k => Fin (inject_Z (from + Z.of_nat k))) (seq 0 40).

Definition frame40 : DataFrame :=
  ohlc (rising40 10) (rising40 9) (rising40 10).

Definition params_short : Params :=
  {| n_atr := 2; atr_multiplier := lit 4; ma_period := 2;
     donchian_period := 2; adx_threshold := lit 25;
     risk_per_trade := lit 0.01 |}.

(** A finite value that is not negative. *)
Definition nonneg (x : float64) : Prop := exists q, x = Fin q /\ 0 <= q.

(** An undefined value or a finite one that is not negative. *)
Definition nan_or_nonneg (x : float64) : Prop := x = NaN \/ nonneg x.

(** Eight identical bars at a price of 10. *)
Definition flat8 : Series := repeat (lit 10) 8.


(** A record whose return, -15%, equals its maximum drawdown. *)
Definition stats_ends_at_trough : Stats :=
  {| n_trades := 40; max_drawdown_pct := lit (-15); return_pct := lit (-15) |}.

(** An undefined value or a finite one between 0 and 100. *)
Definition in_percent (x : float64) : Prop :=
  x = NaN \/ exists q, x = Fin q /\ 0 <= q /\ q <= 100.

(** An undefined value, [+inf], or a finite value that is not negative:
    the values a directional indicator can take. *)
Definition nan_inf_or_nonneg (x : float64) : Prop :=
  x = NaN \/ x = PInf \/ nonneg x.

(** A finite value, if any, satisfies [P]. *)
Definition when_finite (P : Q -> Prop) (x : float64) : Prop :=
  forall q, x = Fin q -> P q.
(* ================================================================== *)
(** * Properties *)

(* ------------------------------------------------------------------ *)
(** ** Arithmetic of the number model *)

Lemma Qeq_bool_nonzero (q : Q) : ~ q == 0 -> Qeq_bool q 0 = false.
Proof.
  intros H. destruct (Qeq_bool q 0) eqn:E; [|reflexivity].
  apply Qeq_bool_iff in E. contradiction.
Qed.

Lemma Qtrunc_nonneg (q : Q) : 0 <= q -> Qtrunc q = Qfloor q.
Proof.
  destruct q as [n d]. unfold Qle, Qtrunc, Qfloor. simpl. intros H.
  apply Z.quot_div_nonneg; lia.
Qed.

Lemma Qtrunc_neg (q : Q) : q < 0 -> (Qtrunc q <= 0)%Z.
Proof.
  destruct q as [n d]. unfold Qlt, Qtrunc. simpl. intros H.
  assert (Hn : (n < 0)%Z) by lia.
  replace n with (- (- n))%Z by lia.
  rewrite Z.quot_opp_l by lia.
  assert (0 <= Z.quot (- n) (Z.pos d))%Z by (apply Z.quot_pos; lia).
  lia.
Qed.

Lemma Qfloor_neg (q : Q) : q < 0 -> (Qfloor q < 0)%Z.
Proof.
  intros H. destruct (Z_lt_le_dec (Qfloor q) 0) as [L|L]; [exact L|].
  exfalso. pose proof (Qfloor_le q) as F.
  assert (0 <= inject_Z (Qfloor q)) by (unfold Qle; simpl; lia).
  lra.
Qed.

(** [int] and [floor] agree on every value that can give an order. *)
Lemma trunc_floor_min (x y : Q) :
  let t := Z.min (Qtrunc x) (Qtrunc y) in
  let f := Z.min (Qfloor x) (Qfloor y) in
  ((1 <= f)%Z -> t = f) /\ ((f < 1)%Z -> (t < 1)%Z).
Proof.
  intros t f. subst t f.
  destruct (Qlt_le_dec x 0) as [Hx|Hx]; destruct (Qlt_le_dec y 0) as [Hy|Hy];
    try (pose proof (Qtrunc_neg _ Hx)); try (pose proof (Qfloor_neg _ Hx));
    try (pose proof (Qtrunc_neg _ Hy)); try (pose proof (Qfloor_neg _ Hy));
    try (rewrite (Qtrunc_nonneg _ Hx)); try (rewrite (Qtrunc_nonneg _ Hy));
    split; lia.
Qed.


(* ================================================================== *)
(** * The binary64 rounding function *)

(* ------------------------------------------------------------------ *)
(** ** Powers of two *)

Lemma pow2_pos (e : Z) : 0 < pow2 e.
Proof. apply Qpower_0_lt. reflexivity. Qed.

Lemma pow2_add (a b : Z) : pow2 (a + b) == pow2 a * pow2 b.
Proof. apply Qpower_plus. intros H. discriminate H. Qed.

Lemma pow2_succ (e : Z) : pow2 (e + 1) == 2 * pow2 e.
Proof. rewrite pow2_add. change (pow2 1) with 2. ring. Qed.

Lemma pow2_le (a b : Z) : (a <= b)%Z -> pow2 a <= pow2 b.
Proof. intros H. apply Qpower_le_compat_l; [exact H|discriminate]. Qed.

Lemma pow2_lt (a b : Z) : (a < b)%Z -> pow2 a < pow2 b.
Proof. intros H. apply Qpower_lt_compat_l; [exact H|reflexivity]. Qed.

Lemma pow2_lt_inv (a b : Z) : pow2 a < pow2 b -> (a < b)%Z.
Proof. intros H. apply (Qpower_lt_compat_l_inv 2); [exact H|reflexivity]. Qed.

Lemma pow2_Z (n : Z) : (0 <= n)%Z -> pow2 n == inject_Z (2 ^ n).
Proof. intros H. symmetry. apply (Zpower_Qpower 2 n H). Qed.

Lemma pow2_sub (a b : Z) : pow2 (a - b) == pow2 a / pow2 b.
Proof.
  pose proof (pow2_pos b) as Hb.
  assert (E : pow2 a == pow2 (a - b) * pow2 b).
  { rewrite <- pow2_add. replace (a - b + b)%Z with a by lia. reflexivity. }
  rewrite E. field. lra.
Qed.

(* ------------------------------------------------------------------ *)
(** ** The integer logarithm *)

Lemma Qmake_inject (n : Z) (d : positive) :
  n # d == inject_Z n / inject_Z (Zpos d).
Proof. apply Qmake_Qdiv. Qed.

Lemma log2_bounds (n : Z) :
  (0 < n)%Z -> pow2 (Z.log2 n) <= inject_Z n /\ inject_Z n < 2 * pow2 (Z.log2 n).
Proof.
  intros H. destruct (Z.log2_spec n H) as [L U].
  pose proof (Z.log2_nonneg n) as N.
  rewrite <- pow2_succ. rewrite !pow2_Z by lia.
  split; [rewrite <- Zle_Qle; exact L|rewrite <- Zlt_Qlt; exact U].
Qed.

Lemma Qdiv_lt_cross (a b c d : Q) :
  0 < b -> 0 < d -> a * d < c * b -> a / b < c / d.
Proof.
  intros Hb Hd H. apply Qlt_shift_div_r; [exact Hb|].
  assert (E : c / d * b == c * b / d) by (field; lra).
  rewrite E. apply Qlt_shift_div_l; assumption.
Qed.

Lemma ilog2_spec (q : Q) :
  0 < q -> pow2 (ilog2 q) <= q /\ q < pow2 (ilog2 q + 1).
Proof.
  intros Hq. destruct q as [n d].
  assert (Hn : (0 < n)%Z) by (unfold Qlt in Hq; simpl in Hq; lia).
  unfold ilog2. cbn [Qnum Qden].
  set (ln := Z.log2 n). set (ld := Z.log2 (Zpos d)).
  destruct (log2_bounds n Hn) as [Ln Un]. fold ln in Ln, Un.
  destruct (log2_bounds (Zpos d) eq_refl) as [Ld Ud]. fold ld in Ld, Ud.
  pose proof (pow2_pos ln) as Pn. pose proof (pow2_pos ld) as Pd.
  assert (Hd : 0 < inject_Z (Zpos d)) by reflexivity.
  assert (Hlo : pow2 (ln - ld - 1) < n # d).
  { rewrite Qmake_inject.
    replace (ln - ld - 1)%Z with (ln - (ld + 1))%Z by lia.
    rewrite pow2_sub, pow2_succ.
    apply Qdiv_lt_cross; [lra|exact Hd|]. nra. }
  assert (Hhi : n # d < pow2 (ln - ld + 1)).
  { rewrite Qmake_inject.
    replace (ln - ld + 1)%Z with (ln + 1 - ld)%Z by lia.
    rewrite pow2_sub, pow2_succ.
    apply Qdiv_lt_cross; [exact Hd|exact Pd|]. nra. }
  destruct (Qle_bool (pow2 (ln - ld)) (n # d)) eqn:B.
  - apply Qle_bool_iff in B. split; assumption.
  - replace (ln - ld - 1 + 1)%Z with (ln - ld)%Z by lia.
    split; [apply Qlt_le_weak; exact Hlo|].
    apply Qnot_le_lt. intros C. apply Qle_bool_iff in C. congruence.
Qed.

Lemma ilog2_unique (q : Q) (k : Z) :
  0 < q -> pow2 k <= q -> q < pow2 (k + 1) -> ilog2 q = k.
Proof.
  intros Hq L U. destruct (ilog2_spec q Hq) as [L' U'].
  assert (ilog2 q < k + 1)%Z by (apply pow2_lt_inv; lra).
  assert (k < ilog2 q + 1)%Z by (apply pow2_lt_inv; lra).
  lia.
Qed.

(* ------------------------------------------------------------------ *)
(** ** Rounding to the nearest integer *)

(** Results of [Qcompare] as order facts. *)
Ltac qcompare_to_order :=
  repeat match goal with
         | H : (_ ?= _) = Eq |- _ => apply Qeq_alt in H
         | H : (_ ?= _) = Lt |- _ => apply Qlt_alt in H
         | H : (_ ?= _) = Gt |- _ => apply Qgt_alt in H
         end.

Lemma rne_floor (x : Q) : rne x = Qfloor x \/ rne x = (Qfloor x + 1)%Z.
Proof.
  unfold rne. destruct (_ ?= _); [destruct (Z.even _)| |]; auto.
Qed.

(** The rounded value is within one half of the argument. *)
Lemma rne_bounds (x : Q) :
  x - (1 # 2) <= inject_Z (rne x) /\ inject_Z (rne x) <= x + (1 # 2).
Proof.
  pose proof (Qfloor_le x) as Lo. pose proof (Qlt_floor x) as Hi.
  rewrite inject_Z_plus in Hi. change (inject_Z 1) with 1 in Hi.
  unfold rne. destruct (x - inject_Z (Qfloor x) ?= 1 # 2) eqn:C.
  - qcompare_to_order.
    destruct (Z.even (Qfloor x)); [|rewrite inject_Z_plus;
      change (inject_Z 1) with 1]; split; lra.
  - qcompare_to_order. split; lra.
  - qcompare_to_order. rewrite inject_Z_plus. change (inject_Z 1) with 1.
    split; lra.
Qed.

Lemma rne_ge (n : Z) (x : Q) : inject_Z n <= x -> (n <= rne x)%Z.
Proof.
  intros H. pose proof (Qfloor_resp_le _ _ H) as F. rewrite Qfloor_Z in F.
  destruct (rne_floor x) as [-> | ->]; lia.
Qed.

Lemma rne_le (n : Z) (x : Q) : x <= inject_Z n -> (rne x <= n)%Z.
Proof.
  intros H. destruct (rne_bounds x) as [_ U].
  assert (L : inject_Z (rne x) < inject_Z (n + 1)).
  { rewrite inject_Z_plus. change (inject_Z 1) with 1. lra. }
  rewrite <- Zlt_Qlt in L. lia.
Qed.

Lemma rne_comp (x y : Q) : x == y -> rne x = rne y.
Proof.
  intros H. unfold rne. rewrite (Qfloor_comp _ _ H).
  assert (E : x - inject_Z (Qfloor y) == y - inject_Z (Qfloor y))
    by (rewrite H; reflexivity).
  rewrite (Qcompare_comp _ _ E (1 # 2) (1 # 2) (Qeq_refl _)). reflexivity.
Qed.

Lemma rne_monotone (x y : Q) : x <= y -> (rne x <= rne y)%Z.
Proof.
  intros H. pose proof (Qfloor_resp_le _ _ H) as F.
  destruct (Z.eq_dec (Qfloor x) (Qfloor y)) as [E|N].
  - unfold rne. rewrite E.
    destruct (x - inject_Z (Qfloor y) ?= 1 # 2) eqn:Cx;
      destruct (y - inject_Z (Qfloor y) ?= 1 # 2) eqn:Cy;
      try (destruct (Z.even (Qfloor y))); try lia;
      exfalso; qcompare_to_order; lra.
  - destruct (rne_floor x) as [-> | ->], (rne_floor y) as [-> | ->]; lia.
Qed.

(* ------------------------------------------------------------------ *)
(** ** Rounding to binary64 *)

Lemma round_pos_cases (q : Q) :
  round_pos q = PInf
  \/ exists y, round_pos q = Fin y
               /\ y == inject_Z (significand_of q) * pow2 (exponent_of q).
Proof.
  unfold round_pos.
  destruct (_ || _)%bool; [left; reflexivity|].
  right. eexists. split; [reflexivity|]. apply Qred_correct.
Qed.

Lemma significand_nonneg (q : Q) : 0 <= q -> (0 <= significand_of q)%Z.
Proof.
  intros H. apply rne_ge. change (inject_Z 0) with 0.
  apply Qle_shift_div_l; [apply pow2_pos|lra].
Qed.

Lemma Qsgn_Gt (q : Q) : Qsgn q = Gt <-> 0 < q.
Proof.
  unfold Qsgn, Qlt. simpl. rewrite Z.mul_1_r. rewrite Z.compare_gt_iff.
  reflexivity.
Qed.

Lemma Qsgn_Lt (q : Q) : Qsgn q = Lt <-> q < 0.
Proof.
  unfold Qsgn, Qlt. simpl. rewrite Z.mul_1_r. rewrite Z.compare_lt_iff.
  reflexivity.
Qed.

Lemma Qsgn_Eq (q : Q) : Qsgn q = Eq <-> q == 0.
Proof.
  unfold Qsgn, Qeq. simpl. rewrite Z.mul_1_r. rewrite Z.compare_eq_iff.
  reflexivity.
Qed.

Lemma round64_comp (q q' : Q) : q == q' -> round64 q = round64 q'.
Proof.
  intros H. unfold round64. rewrite (Qred_complete _ _ H). reflexivity.
Qed.

Lemma round64_pos (q : Q) : 0 < q -> round64 q = round_pos (Qred q).
Proof.
  intros H. unfold round64.
  assert (S : Qsgn (Qred q) = Gt) by (apply Qsgn_Gt; rewrite Qred_correct; exact H).
  rewrite S. reflexivity.
Qed.

Lemma round64_neg (q : Q) : q < 0 -> round64 q = fneg (round_pos (- Qred q)).
Proof.
  intros H. unfold round64.
  assert (S : Qsgn (Qred q) = Lt) by (apply Qsgn_Lt; rewrite Qred_correct; exact H).
  rewrite S. reflexivity.
Qed.

Lemma round64_zero (q : Q) : q == 0 -> round64 q = Fin 0.
Proof.
  intros H. unfold round64.
  assert (S : Qsgn (Qred q) = Eq) by (apply Qsgn_Eq; rewrite Qred_correct; exact H).
  rewrite S. reflexivity.
Qed.

(** Rounding keeps the sign. *)
Lemma round_pos_nonneg (q : Q) :
  0 <= q -> round_pos q = PInf \/ exists y, round_pos q = Fin y /\ 0 <= y.
Proof.
  intros H. destruct (round_pos_cases q) as [E|[y [E Hy]]]; [left; exact E|].
  right. exists y. split; [exact E|]. rewrite Hy.
  apply Qmult_le_0_compat.
  - change 0 with (inject_Z 0). rewrite <- Zle_Qle.
    apply significand_nonneg, H.
  - apply Qlt_le_weak, pow2_pos.
Qed.

Lemma round64_nonneg (q : Q) :
  0 <= q -> round64 q = PInf \/ exists y, round64 q = Fin y /\ 0 <= y.
Proof.
  intros H. destruct (Qlt_le_dec 0 q) as [L|L].
  - rewrite (round64_pos _ L). apply round_pos_nonneg.
    rewrite Qred_correct. exact H.
  - right. exists 0. split; [apply round64_zero; lra|lra].
Qed.

Lemma round64_nonpos (q : Q) :
  q <= 0 -> round64 q = NInf \/ exists y, round64 q = Fin y /\ y <= 0.
Proof.
  intros H. destruct (Qlt_le_dec q 0) as [L|L].
  - rewrite (round64_neg _ L).
    destruct (round_pos_nonneg (- Qred q)) as [E|[y [E Hy]]].
    + rewrite Qred_correct. lra.
    + left. rewrite E. reflexivity.
    + right. exists (- y). rewrite E. split; [reflexivity|lra].
  - right. exists 0. split; [apply round64_zero; lra|lra].
Qed.

(* ------------------------------------------------------------------ *)
(** ** Exponent and significand *)

Lemma ilog2_comp (q q' : Q) : 0 < q -> q == q' -> ilog2 q = ilog2 q'.
Proof.
  intros Hq E. assert (Hq' : 0 < q') by (rewrite <- E; exact Hq).
  destruct (ilog2_spec q' Hq') as [L U].
  apply ilog2_unique; rewrite ?E; assumption.
Qed.

Lemma exponent_of_comp (q q' : Q) :
  0 < q -> q == q' -> exponent_of q = exponent_of q'.
Proof.
  intros Hq E. unfold exponent_of. rewrite (ilog2_comp q q' Hq E). reflexivity.
Qed.

Lemma significand_of_comp (q q' : Q) :
  0 < q -> q == q' -> significand_of q = significand_of q'.
Proof.
  intros Hq E. unfold significand_of.
  rewrite (exponent_of_comp q q' Hq E). apply rne_comp.
  rewrite E. reflexivity.
Qed.

Lemma ilog2_monotone (q q' : Q) : 0 < q -> q <= q' -> (ilog2 q <= ilog2 q')%Z.
Proof.
  intros Hq H. destruct (ilog2_spec q Hq) as [L _].
  destruct (ilog2_spec q') as [_ U]; [lra|].
  assert (ilog2 q < ilog2 q' + 1)%Z by (apply pow2_lt_inv; lra). lia.
Qed.

Lemma exponent_of_bounds (q : Q) :
  (-1074 <= exponent_of q)%Z /\ (ilog2 q - 52 <= exponent_of q)%Z.
Proof. unfold exponent_of. lia. Qed.

(** In the normal range the exponent is the logarithm less 52. *)
Lemma exponent_of_normal (q : Q) :
  0 < q -> pow2 (-1022) <= q -> exponent_of q = (ilog2 q - 52)%Z.
Proof.
  intros Hq N. destruct (ilog2_spec q Hq) as [_ U].
  assert (-1022 < ilog2 q + 1)%Z by (apply pow2_lt_inv; lra).
  unfold exponent_of. lia.
Qed.

Lemma exponent_of_subnormal (q : Q) :
  0 < q -> q < pow2 (-1022) -> exponent_of q = (-1074)%Z.
Proof.
  intros Hq N. destruct (ilog2_spec q Hq) as [L _].
  assert (ilog2 q < -1022)%Z by (apply pow2_lt_inv; lra).
  unfold exponent_of. lia.
Qed.

Lemma scaled_upper (q : Q) : 0 < q -> q / pow2 (exponent_of q) < pow2 53.
Proof.
  intros Hq. destruct (ilog2_spec q Hq) as [_ U].
  destruct (exponent_of_bounds q) as [_ B].
  apply Qlt_shift_div_r; [apply pow2_pos|].
  rewrite <- pow2_add.
  assert (pow2 (ilog2 q + 1) <= pow2 (53 + exponent_of q))
    by (apply pow2_le; lia).
  lra.
Qed.

Lemma scaled_lower (q : Q) :
  0 < q -> pow2 (-1022) <= q -> pow2 52 <= q / pow2 (exponent_of q).
Proof.
  intros Hq N. destruct (ilog2_spec q Hq) as [L _].
  rewrite (exponent_of_normal q Hq N).
  apply Qle_shift_div_l; [apply pow2_pos|].
  rewrite <- pow2_add. replace (52 + (ilog2 q - 52))%Z with (ilog2 q) by lia.
  exact L.
Qed.

Lemma significand_upper (q : Q) : 0 < q -> (significand_of q <= 2 ^ 53)%Z.
Proof.
  intros Hq. apply rne_le. rewrite <- pow2_Z by lia.
  apply Qlt_le_weak, scaled_upper, Hq.
Qed.

Lemma significand_lower (q : Q) :
  0 < q -> pow2 (-1022) <= q -> (2 ^ 52 <= significand_of q)%Z.
Proof.
  intros Hq N. apply rne_ge. rewrite <- pow2_Z by lia.
  apply scaled_lower; assumption.
Qed.

(** The value of a positive number rounded to a finite one. *)
Lemma round64_pos_value (q y : Q) :
  0 < q -> round64 q = Fin y ->
  y == inject_Z (significand_of q) * pow2 (exponent_of q).
Proof.
  intros Hq E. rewrite (round64_pos q Hq) in E.
  assert (R : Qred q == q) by apply Qred_correct.
  assert (Hr : 0 < Qred q) by (rewrite R; exact Hq).
  destruct (round_pos_cases (Qred q)) as [F|[y' [F Hy]]];
    rewrite F in E; [discriminate|].
  inversion E; subst y'.
  rewrite Hy, (significand_of_comp _ _ Hr R), (exponent_of_comp _ _ Hr R).
  reflexivity.
Qed.

Lemma round64_pos_cases (q : Q) :
  0 < q -> round64 q = PInf \/ exists y, round64 q = Fin y.
Proof.
  intros Hq. rewrite (round64_pos q Hq).
  destruct (round_pos_cases (Qred q)) as [F|[y [F _]]];
    [left; exact F|right; exists y; exact F].
Qed.

(* ------------------------------------------------------------------ *)
(** ** Doubling, magnitude and relative error *)

Lemma exponent_of_double (q : Q) :
  0 < q -> pow2 (-1022) <= q ->
  exponent_of (2 * q) = (exponent_of q + 1)%Z.
Proof.
  intros Hq N. destruct (ilog2_spec q Hq) as [L U].
  assert (I : ilog2 (2 * q) = (ilog2 q + 1)%Z).
  { apply ilog2_unique; [lra| |]; rewrite pow2_succ; lra. }
  pose proof (pow2_pos (-1022)) as P.
  rewrite (exponent_of_normal (2 * q)), (exponent_of_normal q), I;
    try assumption; try lra. lia.
Qed.

Lemma significand_of_double (q : Q) :
  0 < q -> pow2 (-1022) <= q ->
  significand_of (2 * q) = significand_of q.
Proof.
  intros Hq N. unfold significand_of.
  rewrite (exponent_of_double q Hq N). apply rne_comp.
  rewrite pow2_succ. pose proof (pow2_pos (exponent_of q)). field. lra.
Qed.

(** A number of the normal range rounds to a number of the normal range,
    and its double rounds to the double, unless that overflows. *)
Lemma round64_double (q y : Q) :
  pow2 (-1022) <= q -> round64 q = Fin y ->
  pow2 (-1022) <= y
  /\ (round64 (2 * q) = PInf
      \/ exists y', round64 (2 * q) = Fin y' /\ y' == 2 * y).
Proof.
  intros N E. pose proof (pow2_pos (-1022)) as P.
  assert (Hq : 0 < q) by lra.
  pose proof (round64_pos_value q y Hq E) as Hy.
  split.
  - rewrite Hy. pose proof (significand_lower q Hq N) as M.
    rewrite Zle_Qle, <- pow2_Z in M by lia.
    pose proof (pow2_pos (exponent_of q)) as Pe.
    assert (B : pow2 (-1022) <= pow2 52 * pow2 (exponent_of q)).
    { rewrite <- pow2_add. apply pow2_le.
      destruct (exponent_of_bounds q). lia. }
    assert (pow2 52 * pow2 (exponent_of q)
            <= inject_Z (significand_of q) * pow2 (exponent_of q))
      by (apply Qmult_le_compat_r; lra).
    lra.
  - destruct (round64_pos_cases (2 * q)) as [F|[y' F]]; [lra|left; exact F|].
    right. exists y'. split; [exact F|].
    rewrite (round64_pos_value (2 * q) y' ltac:(lra) F), Hy.
    rewrite (exponent_of_double q Hq N), (significand_of_double q Hq N).
    rewrite pow2_succ. ring.
Qed.

(** Only a number of the normal range rounds to a number of at least 1. *)
Lemma round64_ge_1_normal (q y : Q) :
  round64 q = Fin y -> 1 <= y -> pow2 (-1022) <= q.
Proof.
  intros E Hy. destruct (Qlt_le_dec 0 q) as [Hq|Hq].
  - destruct (Qlt_le_dec q (pow2 (-1022))) as [S|S]; [exfalso|exact S].
    pose proof (round64_pos_value q y Hq E) as V.
    rewrite (exponent_of_subnormal q Hq S) in V.
    assert (M : (significand_of q <= 2 ^ 52)%Z).
    { apply rne_le. rewrite <- pow2_Z by lia.
      rewrite (exponent_of_subnormal q Hq S).
      apply Qle_shift_div_r; [apply pow2_pos|].
      rewrite <- pow2_add. change (52 + -1074)%Z with (-1022)%Z. lra. }
    rewrite Zle_Qle, <- pow2_Z in M by lia.
    pose proof (pow2_pos (-1074)) as Pe.
    assert (inject_Z (significand_of q) * pow2 (-1074)
            <= pow2 52 * pow2 (-1074))
      by (apply Qmult_le_compat_r; lra).
    assert (T : pow2 52 * pow2 (-1074) < 1).
    { rewrite <- pow2_add. change 1 with (pow2 0). apply pow2_lt. lia. }
    lra.
  - exfalso. destruct (round64_nonpos q Hq) as [F|[y' [F Hy']]];
      rewrite F in E; [discriminate|]. inversion E; subst y'. lra.
Qed.


(* ------------------------------------------------------------------ *)
(** ** Rounding is monotone *)

Lemma round_pos_overflow (q : Q) :
  round_pos q = PInf <->
  (971 < exponent_of q)%Z
  \/ (exponent_of q = 971%Z /\ significand_of q = (2 ^ 53)%Z).
Proof.
  unfold round_pos.
  destruct (Z.ltb_spec 971 (exponent_of q)) as [A|A];
    destruct (Z.eqb_spec (exponent_of q) 971) as [B|B];
    destruct (Z.eqb_spec (significand_of q) (2 ^ 53)) as [C|C]; simpl;
    split; intros H; try discriminate; try reflexivity; try tauto; try lia.
Qed.

Lemma exponent_of_monotone (q q' : Q) :
  0 < q -> q <= q' -> (exponent_of q <= exponent_of q')%Z.
Proof.
  intros Hq H. pose proof (ilog2_monotone q q' Hq H).
  unfold exponent_of. lia.
Qed.

Lemma scaled_monotone (q q' p : Q) : 0 < p -> q <= q' -> q / p <= q' / p.
Proof.
  intros Hp H. apply Qle_shift_div_l; [exact Hp|].
  assert (E : q / p * p == q) by (field; lra). lra.
Qed.

Lemma inject_Z_le_mult (a b : Z) (p : Q) :
  0 < p -> (a <= b)%Z -> inject_Z a * p <= inject_Z b * p.
Proof.
  intros Hp H. apply Qmult_le_compat_r; [|lra]. rewrite <- Zle_Qle. exact H.
Qed.

Lemma fleb_fin (a b : Q) : fleb (Fin a) (Fin b) = true <-> a <= b.
Proof.
  unfold fleb, fcmp. rewrite Qle_alt.
  destruct (a ?= b); split; intros H; try reflexivity; try discriminate.
  exfalso. apply H. reflexivity.
Qed.

Lemma round_pos_monotone (q q' : Q) :
  0 < q -> q <= q' -> fleb (round_pos q) (round_pos q') = true.
Proof.
  intros Hq H. assert (Hq' : 0 < q') by lra.
  pose proof (exponent_of_monotone q q' Hq H) as He.
  pose proof (significand_upper q Hq) as Mu.
  pose proof (significand_upper q' Hq') as Mu'.
  assert (Hm : exponent_of q = exponent_of q' ->
               (significand_of q <= significand_of q')%Z).
  { intros E. unfold significand_of. rewrite E. apply rne_monotone.
    apply scaled_monotone; [apply pow2_pos|exact H]. }
  destruct (round_pos_cases q') as [F'|[y' [F' V']]].
  - rewrite F'. destruct (round_pos_cases q) as [F|[y [F _]]]; rewrite F;
      reflexivity.
  - assert (N' : round_pos q' <> PInf) by (rewrite F'; discriminate).
    rewrite round_pos_overflow in N'.
    destruct (round_pos_cases q) as [F|[y [F V]]].
    + exfalso. apply N'. apply round_pos_overflow in F.
      destruct F as [F|[F1 F2]]; [left; lia|].
      destruct (Z.eq_dec (exponent_of q') 971) as [E|E]; [|left; lia].
      right. split; [exact E|]. specialize (Hm ltac:(lia)). lia.
    + rewrite F, F'. apply fleb_fin. rewrite V, V'.
      pose proof (pow2_pos (exponent_of q)) as P.
      pose proof (pow2_pos (exponent_of q')) as P'.
      destruct (Z.eq_dec (exponent_of q) (exponent_of q')) as [E|E].
      * rewrite <- E. apply inject_Z_le_mult; [exact P|].
        apply Hm, E.
      * assert (Lt : (exponent_of q < exponent_of q')%Z) by lia.
        destruct (exponent_of_bounds q) as [B _].
        assert (Nq' : pow2 (-1022) <= q').
        { destruct (Qlt_le_dec q' (pow2 (-1022))) as [S|S]; [|exact S].
          rewrite (exponent_of_subnormal q' Hq' S) in Lt. lia. }
        pose proof (significand_lower q' Hq' Nq') as Ml'.
        pose proof (inject_Z_le_mult _ _ _ P Mu) as A1.
        pose proof (inject_Z_le_mult _ _ _ P' Ml') as A2.
        rewrite <- !pow2_Z, <- !pow2_add in A1, A2 by lia.
        assert (pow2 (53 + exponent_of q) <= pow2 (52 + exponent_of q'))
          by (apply pow2_le; lia).
        lra.
Qed.

Lemma fleb_fneg (x y : float64) : fleb (fneg x) (fneg y) = fleb y x.
Proof.
  destruct x as [a| | |], y as [b| | |]; try reflexivity.
  unfold fneg. destruct (fleb (Fin b) (Fin a)) eqn:E.
  - apply fleb_fin. apply fleb_fin in E. lra.
  - apply not_true_iff_false. rewrite fleb_fin.
    apply not_true_iff_false in E. rewrite fleb_fin in E. lra.
Qed.

Lemma round64_monotone (q q' : Q) :
  q <= q' -> fleb (round64 q) (round64 q') = true.
Proof.
  intros H.
  assert (R : Qred q == q) by apply Qred_correct.
  assert (R' : Qred q' == q') by apply Qred_correct.
  destruct (Qlt_le_dec 0 q) as [Hq|Hq].
  - rewrite (round64_pos q Hq), (round64_pos q') by lra.
    apply round_pos_monotone; lra.
  - destruct (Qlt_le_dec q' 0) as [Hq'|Hq'].
    + rewrite (round64_neg q), (round64_neg q' Hq') by lra.
      rewrite fleb_fneg. apply round_pos_monotone; lra.
    + destruct (round64_nonpos q Hq) as [F|[y [F Hy]]];
        destruct (round64_nonneg q' Hq') as [F'|[y' [F' Hy']]];
        rewrite F, F'; try reflexivity.
      apply fleb_fin. lra.
Qed.

(* ------------------------------------------------------------------ *)
(** ** Rounding leaves a binary64 number as it is *)

Lemma rne_inject_Z (n : Z) : rne (inject_Z n) = n.
Proof.
  assert (L : (n <= rne (inject_Z n))%Z) by (apply rne_ge; lra).
  assert (U : (rne (inject_Z n) <= n)%Z) by (apply rne_le; lra).
  lia.
Qed.

Lemma ilog2_significand (m e : Z) :
  (0 < m)%Z -> ilog2 (inject_Z m * pow2 e) = (Z.log2 m + e)%Z.
Proof.
  intros Hm. destruct (log2_bounds m Hm) as [L U].
  pose proof (pow2_pos e) as Pe. pose proof (pow2_pos (Z.log2 m)) as Pm.
  assert (0 < inject_Z m) by lra.
  apply ilog2_unique.
  - apply Qmult_lt_0_compat; assumption.
  - rewrite pow2_add. apply Qmult_le_compat_r; lra.
  - replace (Z.log2 m + e + 1)%Z with (Z.log2 m + 1 + e)%Z by lia.
    rewrite pow2_add, pow2_succ. apply Qmult_lt_compat_r; lra.
Qed.

(** A significand of at most 53 bits with an exponent in range is
    reproduced by rounding. *)
Lemma round_pos_representable (m e : Z) :
  (0 < m <= 2 ^ 53)%Z -> (-1074 <= e <= 971)%Z ->
  (e = 971 -> m <> 2 ^ 53)%Z ->
  round_pos (inject_Z m * pow2 e) = Fin (Qred (inject_Z m * pow2 e)).
Proof.
  intros [Hm Hu] [He1 He2] Hov.
  set (v := inject_Z m * pow2 e).
  pose proof (pow2_pos e) as Pe.
  assert (Hv : 0 < v).
  { apply Qmult_lt_0_compat; [|exact Pe].
    change 0 with (inject_Z 0). rewrite <- Zlt_Qlt. exact Hm. }
  pose proof (ilog2_significand m e Hm) as I. fold v in I.
  assert (Hl : (0 <= Z.log2 m <= 53)%Z).
  { split; [apply Z.log2_nonneg|].
    change 53%Z with (Z.log2 (2 ^ 53)). apply Z.log2_le_mono. exact Hu. }
  destruct (Z.eq_dec m (2 ^ 53)) as [M|M].
  - (* the significand 2^53 is 2^52 one exponent higher *)
    assert (E : exponent_of v = (e + 1)%Z).
    { unfold exponent_of. rewrite I, M. change (Z.log2 (2 ^ 53)) with 53%Z.
      lia. }
    assert (S : significand_of v = (2 ^ 52)%Z).
    { unfold significand_of. rewrite E. rewrite <- (rne_inject_Z (2 ^ 52)).
      apply rne_comp. unfold v. rewrite M, pow2_succ.
      rewrite <- !pow2_Z by lia.
      assert (X : pow2 53 == 2 * pow2 52) by (rewrite <- pow2_succ; reflexivity).
      rewrite X. field. lra. }
    unfold round_pos. rewrite E, S.
    assert (e <> 971)%Z by (intros C; apply (Hov C); exact M).
    replace (971 <? e + 1)%Z with false by (symmetry; apply Z.ltb_ge; lia).
    replace (2 ^ 52 =? 2 ^ 53)%Z with false by reflexivity.
    rewrite andb_false_r. simpl orb. cbv iota. f_equal.
    apply Qred_complete. unfold v. rewrite M, pow2_succ.
    rewrite <- !pow2_Z by lia.
    assert (X : pow2 53 == 2 * pow2 52) by (rewrite <- pow2_succ; reflexivity).
    rewrite X. ring.
  - assert (Hl' : (Z.log2 m <= 52)%Z).
    { assert (m < 2 ^ 53)%Z by lia.
      destruct (Z.log2_spec m Hm) as [A _].
      destruct (Z_le_gt_dec (Z.log2 m) 52) as [G|G]; [exact G|exfalso].
      assert (2 ^ 53 <= 2 ^ Z.log2 m)%Z
        by (apply Z.pow_le_mono_r; lia). lia. }
    set (e' := exponent_of v).
    assert (E : (-1074 <= e' <= e)%Z).
    { unfold e', exponent_of. rewrite I. lia. }
    assert (S : significand_of v = (m * 2 ^ (e - e'))%Z).
    { unfold significand_of. fold e'.
      rewrite <- (rne_inject_Z (m * 2 ^ (e - e'))). apply rne_comp.
      rewrite inject_Z_mult, <- pow2_Z by lia. rewrite pow2_sub.
      unfold v. pose proof (pow2_pos e'). field. lra. }
    assert (V : inject_Z (significand_of v) * pow2 e' == v).
    { rewrite S, inject_Z_mult, <- pow2_Z by lia. rewrite pow2_sub.
      unfold v. pose proof (pow2_pos e'). field. lra. }
    unfold round_pos. fold e'.
    replace (971 <? e')%Z with false by (symmetry; apply Z.ltb_ge; lia).
    assert (O : ((e' =? 971) && (significand_of v =? 2 ^ 53))%Z = false).
    { destruct (Z.eqb_spec e' 971) as [C|C]; [|reflexivity].
      simpl. apply Z.eqb_neq. rewrite S.
      replace (e - e')%Z with 0%Z by lia. lia. }
    rewrite O. simpl orb. cbv iota. f_equal.
    apply Qred_complete. exact V.
Qed.

Lemma round_pos_exponent_range (q y : Q) :
  round_pos q = Fin y ->
  (-1074 <= exponent_of q <= 971)%Z
  /\ (exponent_of q = 971 -> significand_of q <> 2 ^ 53)%Z.
Proof.
  intros E. assert (N : round_pos q <> PInf) by (rewrite E; discriminate).
  rewrite round_pos_overflow in N.
  destruct (exponent_of_bounds q) as [B _].
  split; [split; [exact B|]|].
  - destruct (Z_le_gt_dec (exponent_of q) 971); [assumption|].
    exfalso. apply N. left. lia.
  - intros C M. apply N. right. split; assumption.
Qed.

Lemma round_pos_idempotent (q y : Q) :
  0 < q -> round_pos q = Fin y -> round64 y = Fin y.
Proof.
  intros Hq E.
  destruct (round_pos_exponent_range q y E) as [R O].
  pose proof (significand_nonneg q (Qlt_le_weak _ _ Hq)) as M0.
  pose proof (significand_upper q Hq) as Mu.
  assert (Y : y = Qred (inject_Z (significand_of q) * pow2 (exponent_of q))).
  { unfold round_pos in E. destruct (_ || _)%bool; [discriminate|].
    inversion E. reflexivity. }
  destruct (Z.eq_dec (significand_of q) 0) as [Z|Z].
  - rewrite Z in Y.
    assert (y = 0) by (rewrite Y; apply (Qred_complete _ 0); ring).
    subst y. rewrite H. reflexivity.
  - assert (P : 0 < inject_Z (significand_of q) * pow2 (exponent_of q)).
    { apply Qmult_lt_0_compat; [|apply pow2_pos].
      change 0 with (inject_Z 0). rewrite <- Zlt_Qlt. lia. }
    assert (Py : 0 < y) by (rewrite Y, Qred_correct; exact P).
    rewrite (round64_comp y (inject_Z (significand_of q)
                               * pow2 (exponent_of q)))
      by (rewrite Y; apply Qred_correct).
    rewrite (round64_pos _ P).
    assert (C : round_pos (Qred (inject_Z (significand_of q)
                                 * pow2 (exponent_of q)))
                = round_pos (inject_Z (significand_of q)
                             * pow2 (exponent_of q))).
    { assert (Pr : 0 < Qred (inject_Z (significand_of q)
                             * pow2 (exponent_of q)))
        by (rewrite Qred_correct; exact P).
      unfold round_pos.
      rewrite (exponent_of_comp _ _ Pr (Qred_correct _)).
      rewrite (significand_of_comp _ _ Pr (Qred_correct _)). reflexivity. }
    rewrite C, round_pos_representable; try lia; try assumption.
    rewrite Y. reflexivity.
Qed.

Lemma Qopp_opp_eq (q : Q) : - - q = q.
Proof.
  destruct q as [n d]. unfold Qopp. simpl. rewrite Z.opp_involutive.
  reflexivity.
Qed.

Lemma round64_idempotent (q y : Q) : round64 q = Fin y -> round64 y = Fin y.
Proof.
  intros E. destruct (Qlt_le_dec 0 q) as [Hq|Hq].
  - rewrite (round64_pos q Hq) in E.
    apply (round_pos_idempotent (Qred q)); [rewrite Qred_correct; exact Hq|].
    exact E.
  - destruct (Qlt_le_dec q 0) as [Hn|Hn].
    + rewrite (round64_neg q Hn) in E.
      destruct (round_pos (- Qred q)) as [z| | |] eqn:F; try discriminate.
      simpl in E. inversion E; subst y.
      assert (Pq : 0 < - Qred q) by (rewrite Qred_correct; lra).
      pose proof (round_pos_idempotent _ _ Pq F) as I.
      destruct (round64_nonneg z) as [G|[w [G Hw]]].
      { destruct (round_pos_nonneg (- Qred q)) as [A|[w [A Hw]]];
          [lra|congruence|]. rewrite F in A. inversion A; subst w. exact Hw. }
      { congruence. }
      rewrite I in G. inversion G; subst w.
      destruct (Qlt_le_dec 0 z) as [Pz|Pz].
      * rewrite (round64_neg (- z)) by lra.
        rewrite (round64_pos z Pz) in I.
        rewrite Qred_opp, Qopp_opp_eq, I. reflexivity.
      * assert (z == 0) by lra.
        rewrite (round64_zero z H) in I. inversion I; subst z. reflexivity.
    + assert (Z : q == 0) by lra.
      rewrite (round64_zero q Z) in E. inversion E; subst y. reflexivity.
Qed.

Lemma f64_idempotent (x : float64) : f64 (f64 x) = f64 x.
Proof.
  destruct x as [q| | |]; try reflexivity. simpl.
  destruct (round64 q) as [y| | |] eqn:E; try reflexivity.
  simpl. apply (round64_idempotent q y E).
Qed.

(* ------------------------------------------------------------------ *)
(** ** Agreement with the library's specification of binary64 *)

(** On the numbers of the examples below, products, quotients and the
    decimal literals themselves ([0.03] is [3 / 100] rounded) are what
    the Standard Library's specification of binary64 gives. *)
Example rounded_operations_agree_with_library :
  fmul64 (lit 12345678) (lit 0.03) = spec_fmul (lit 12345678) (lit 0.03)
  /\ fmul64 (lit 0.09) (lit 3) = spec_fmul (lit 0.09) (lit 3)
  /\ fdiv64 (fmul64 (lit 12345678) (lit 0.03)) (fmul64 (lit 0.09) (lit 3))
     = spec_fdiv (fmul64 (lit 12345678) (lit 0.03))
                 (fmul64 (lit 0.09) (lit 3))
  /\ fmul64 (lit 10000000) (lit 0.95) = spec_fmul (lit 10000000) (lit 0.95)
  /\ fdiv64 (lit 100000) (Fin (pow2 (-1058)))
     = spec_fdiv (lit 100000) (Fin (pow2 (-1058)))
  /\ fdiv64 (lit 9500000) (Fin (1 / inject_Z (10 ^ 305)))
     = spec_fdiv (lit 9500000) (Fin (1 / inject_Z (10 ^ 305)))
  /\ fdiv64 (lit 100000) (lit (-8)) = spec_fdiv (lit 100000) (lit (-8))
  /\ fmul64 (Fin (pow2 (-600))) (Fin (3 * pow2 (-470)))
     = spec_fmul (Fin (pow2 (-600))) (Fin (3 * pow2 (-470)))
  /\ f64 (lit 0.03) = spec_fdiv (lit 3) (lit 100)
  /\ f64 (lit 0.01) = spec_fdiv (lit 1) (lit 100)
  /\ f64 (lit 0.95) = spec_fdiv (lit 95) (lit 100).
Proof. repeat split; vm_compute; reflexivity. Qed.

(* ================================================================== *)
(** * Position sizing *)

(* ------------------------------------------------------------------ *)
(** ** The binary64 operations *)

Lemma f64_fin_inv (x : float64) (y : Q) :
  f64 x = Fin y -> exists q, x = Fin q /\ round64 q = Fin y.
Proof.
  destruct x as [q| | |]; simpl; intros H; try discriminate.
  exists q. split; [reflexivity|exact H].
Qed.

Lemma fmul_fin_inv (x y : float64) (q : Q) :
  (x * y)%f64 = Fin q -> exists a b, x = Fin a /\ y = Fin b /\ q = a * b.
Proof.
  destruct x as [a| | |], y as [b| | |]; simpl; try discriminate;
    try (destruct (Qsgn a); discriminate);
    try (destruct (Qsgn b); discriminate).
  intros H. inversion H. exists a, b. repeat split; reflexivity.
Qed.

(** The result of a rounded operation is a binary64 number. *)
Lemma fmul64_fixed (x y : float64) : f64 (fmul64 x y) = fmul64 x y.
Proof. apply f64_idempotent. Qed.

(** A finite product has finite factors. *)
Lemma fmul64_fin_inv (x y : float64) (q : Q) :
  fmul64 x y = Fin q ->
  exists a b a' b',
    x = Fin a /\ y = Fin b /\ round64 a = Fin a' /\ round64 b = Fin b'
    /\ round64 (a' * b') = Fin q.
Proof.
  unfold fmul64. intros H.
  destruct (f64_fin_inv _ _ H) as [c [Hc Hq]].
  destruct (fmul_fin_inv _ _ _ Hc) as [a' [b' [Ha [Hb ->]]]].
  destruct (f64_fin_inv _ _ Ha) as [a [-> Ra]].
  destruct (f64_fin_inv _ _ Hb) as [b [-> Rb]].
  exists a, b, a', b'. repeat split; assumption.
Qed.

Lemma Qtrunc_pos_inv (q : Q) : (1 <= Qtrunc q)%Z -> 0 <= q.
Proof.
  intros H. destruct (Qlt_le_dec q 0) as [L|L]; [|exact L].
  pose proof (Qtrunc_neg _ L). lia.
Qed.

Lemma Qtrunc_ge_1_bound (x : Q) (z : Z) :
  (1 <= z)%Z -> (z <= Qtrunc x)%Z -> inject_Z z <= x /\ 1 <= x.
Proof.
  intros H1 Hz.
  assert (Hx : 0 <= x) by (apply Qtrunc_pos_inv; lia).
  rewrite (Qtrunc_nonneg _ Hx) in Hz.
  pose proof (Qfloor_le x) as F.
  assert (inject_Z z <= inject_Z (Qfloor x)) by (rewrite <- Zle_Qle; exact Hz).
  assert (1 <= inject_Z z)
    by (change 1 with (inject_Z 1); rewrite <- Zle_Qle; exact H1).
  split; lra.
Qed.

(** A size of at least one unit comes from a finite quotient, of at least
    1, of two finite numbers, the divisor not zero. *)
Lemma int_f64_fdiv_pos (x y : float64) (z : Z) :
  int (f64 (x / y)%f64) = ret z -> (1 <= z)%Z ->
  exists a b v,
    x = Fin a /\ y = Fin b /\ ~ b == 0
    /\ round64 (a / b) = Fin v /\ z = Qtrunc v /\ 1 <= v.
Proof.
  intros Hi Hz.
  destruct x as [a| | |], y as [b| | |];
    cbv beta iota delta [fdiv f64 sgn] in Hi; try discriminate.
  - destruct (Qeq_bool b 0) eqn:E.
    + destruct (Qsgn a); discriminate.
    + destruct (round64 (a / b)) as [v| | |] eqn:R; try discriminate.
      injection Hi as Hzv. exists a, b, v.
      split; [reflexivity|]. split; [reflexivity|].
      split; [apply Qeq_bool_neq, E|]. split; [exact R|].
      split; [symmetry; exact Hzv|].
      apply (Qtrunc_ge_1_bound v z Hz). lia.
  - change (round64 0) with (Fin 0) in Hi. injection Hi as <-.
    vm_compute in Hz. contradiction.
  - change (round64 0) with (Fin 0) in Hi. injection Hi as <-.
    vm_compute in Hz. contradiction.
  - destruct (Qeq_bool b 0); destruct (Qsgn b); discriminate.
  - destruct (Qeq_bool b 0); destruct (Qsgn b); discriminate.
Qed.

(** The two quotients in terms of the risk amount, the stop distance and
    the price as binary64 numbers. *)
Lemma risk_quotient_eq (p : Params) (b : Bar) :
  risk_quotient p b = f64 (risk_amount p b / stop_distance p b)%f64.
Proof.
  unfold risk_quotient, fdiv64, risk_amount, stop_distance.
  rewrite !fmul64_fixed. reflexivity.
Qed.

Lemma capital_quotient_eq (b : Bar) :
  capital_quotient b
  = f64 (fmul64 (equity b) (lit 0.95) / f64 (Close_last b))%f64.
Proof.
  unfold capital_quotient, fdiv64. rewrite fmul64_fixed. reflexivity.
Qed.

(* ------------------------------------------------------------------ *)
(** ** Entry evaluation on a flat bar *)

Lemma position_size_quotients (p : Params) (b : Bar) :
  position_size (risk_amount p b) (stop_distance p b) (equity b)
                (Close_last b)
  = bind (int (risk_quotient p b))
         (fun units => bind (int (capital_quotient b))
                            (fun max_units => ret (Z.min units max_units))).
Proof. reflexivity. Qed.

Lemma position_size_finite (p : Params) (b : Bar) (y1 y2 : Q) :
  risk_quotient p b = Fin y1 -> capital_quotient b = Fin y2 ->
  position_size (risk_amount p b) (stop_distance p b) (equity b)
                (Close_last b)
  = ret (Z.min (Qtrunc y1) (Qtrunc y2)).
Proof.
  intros H1 H2. rewrite position_size_quotients, H1, H2. reflexivity.
Qed.

(** [int] raises [OverflowError] on a quotient that has overflowed. *)
Lemma position_size_overflow (p : Params) (b : Bar) :
  risk_quotient p b = PInf \/ risk_quotient p b = NInf
  \/ (is_finite (risk_quotient p b) = true
      /\ (capital_quotient b = PInf \/ capital_quotient b = NInf)) ->
  position_size (risk_amount p b) (stop_distance p b) (equity b)
                (Close_last b)
  = raise OverflowError.
Proof.
  rewrite position_size_quotients.
  intros [H|[H|[F [H|H]]]]; try (rewrite H; reflexivity);
    destruct (risk_quotient p b); try discriminate; rewrite H; reflexivity.
Qed.

(** Rounding gives a number or an infinity, never [NaN]. *)
Lemma round64_cases (q : Q) :
  (exists y, round64 q = Fin y) \/ round64 q = PInf \/ round64 q = NInf.
Proof.
  destruct (Qlt_le_dec 0 q) as [L|L].
  - destruct (round64_nonneg q (Qlt_le_weak _ _ L)) as [F|[y [F _]]];
      [right; left; exact F|left; exists y; exact F].
  - destruct (round64_nonpos q L) as [F|[y [F _]]];
      [right; right; exact F|left; exists y; exact F].
Qed.

(** With a finite risk amount and a finite, non-zero stop distance the
    risk quotient is a number or an infinity; likewise the capital
    quotient with a finite [equity * 0.95] and a finite, non-zero price. *)
Lemma risk_quotient_cases (p : Params) (b : Bar) (x d : Q) :
  risk_amount p b = Fin x -> stop_distance p b = Fin d -> ~ d == 0 ->
  (exists y, risk_quotient p b = Fin y)
  \/ risk_quotient p b = PInf \/ risk_quotient p b = NInf.
Proof.
  intros Hx Hd Hd0. rewrite risk_quotient_eq, Hx, Hd.
  unfold fdiv. rewrite (Qeq_bool_nonzero d Hd0). apply round64_cases.
Qed.

Lemma capital_quotient_cases (b : Bar) (ce P : Q) :
  fmul64 (equity b) (lit 0.95) = Fin ce -> f64 (Close_last b) = Fin P ->
  ~ P == 0 ->
  (exists y, capital_quotient b = Fin y)
  \/ capital_quotient b = PInf \/ capital_quotient b = NInf.
Proof.
  intros Hc HP HP0. rewrite capital_quotient_eq, Hc, HP.
  unfold fdiv. rewrite (Qeq_bool_nonzero P HP0). apply round64_cases.
Qed.

(** A flat bar is skipped by the guards, by the gate, or because the size
    is below one unit, or it places the signal's orders with the capped,
    truncated size. *)
Lemma next_with_flat_finite (warmup : Params -> nat) (p : Params) (b : Bar)
  (y1 y2 : Q) :
  position b = false ->
  risk_quotient p b = Fin y1 -> capital_quotient b = Fin y2 ->
  let u := Z.min (Qtrunc y1) (Qtrunc y2) in
  next_with warmup p b =
  if (data_len b <? warmup p)%nat then ret (skip b)
  else if isna (ma_last b) then ret (skip b)
  else if (stop_distance p b =? lit 0)%f64 then ret (skip b)
  else if (u <? 1)%Z then ret (skip b)
  else ret {| orders := signal p b (stop_distance p b) u;
              trades_after := map (trail p b) (trades b) |}.
Proof.
  intros Hpos H1 H2 u. subst u.
  unfold next_with, entry. rewrite Hpos. simpl negb. cbv zeta.
  destruct (data_len b <? warmup p)%nat; [reflexivity|].
  destruct (isna (ma_last b)); [reflexivity|].
  destruct (stop_distance p b =? lit 0)%f64; [reflexivity|].
  rewrite (position_size_finite p b y1 y2 H1 H2). simpl bind.
  destruct (Z.min _ _ <? 1)%Z; reflexivity.
Qed.

Lemma signal_cases (p : Params) (b : Bar) (d : float64) (u : Z) (o : Order) :
  In o (signal p b d u) ->
  signal p b d u = [o]
  /\ (adx_last b >? adx_threshold p)%f64 = true
  /\ ((o = Buy (Close_last b - d) u
       /\ (Close_last b >? ma_last b)%f64 = true
       /\ (Close_last b >? donchian_high_last b)%f64 = true)
      \/ (o = Sell (Close_last b + d) u
          /\ (Close_last b >? ma_last b)%f64 = false
          /\ (Close_last b <? donchian_low_last b)%f64 = true)).
Proof.
  unfold signal.
  destruct (Close_last b >? ma_last b)%f64;
    destruct (adx_last b >? adx_threshold p)%f64;
    destruct (Close_last b >? donchian_high_last b)%f64;
    destruct (Close_last b <? donchian_low_last b)%f64;
    simpl; intros H; try contradiction;
    destruct H as [<-|[]]; auto 10.
Qed.

(** What an order placed by [next] implies about the call. *)
Lemma next_with_placed (warmup : Params -> nat) (p : Params) (b : Bar)
  (o : Order) :
  In o (placed (next_with warmup p b)) ->
  position b = false /\ isna (ma_last b) = false
  /\ (stop_distance p b =? lit 0)%f64 = false
  /\ exists u c,
      int (risk_quotient p b) = ret u /\ int (capital_quotient b) = ret c
      /\ (1 <= Z.min u c)%Z
      /\ placed (next_with warmup p b)
         = signal p b (stop_distance p b) (Z.min u c).
Proof.
  intros Hin. unfold next_with in *.
  destruct (data_len b <? warmup p)%nat; [contradiction|].
  destruct (isna (ma_last b)) eqn:Hma; [contradiction|].
  destruct (position b) eqn:Hpos; [contradiction|].
  simpl negb in *. cbv iota in *. unfold entry in *. cbv zeta in *.
  destruct (stop_distance p b =? lit 0)%f64 eqn:Hz; [contradiction|].
  rewrite position_size_quotients in *.
  destruct (int (risk_quotient p b)) as [e1|u1] eqn:I1; [contradiction|].
  destruct (int (capital_quotient b)) as [e2|u2] eqn:I2; [contradiction|].
  simpl bind in *.
  destruct (Z.min u1 u2 <? 1)%Z eqn:Hu; [contradiction|].
  apply Z.ltb_ge in Hu. simpl in Hin |- *.
  repeat split. exists u1, u2. repeat split; assumption.
Qed.

Lemma order_size_signal (p : Params) (b : Bar) (d : float64) (u : Z)
  (o : Order) :
  In o (signal p b d u) -> order_size o = u.
Proof.
  intros H. destruct (signal_cases p b d u o H) as [_ [_ [[-> _]|[-> _]]]];
    reflexivity.
Qed.

Lemma placed_next_with_size (warmup : Params -> nat) (p : Params) (b : Bar)
  (y1 y2 : Q) (o : Order) :
  risk_quotient p b = Fin y1 -> capital_quotient b = Fin y2 ->
  In o (placed (next_with warmup p b)) ->
  let u := Z.min (Qtrunc y1) (Qtrunc y2) in
  (1 <= u)%Z /\ order_size o = u.
Proof.
  intros H1 H2 Hin u.
  destruct (next_with_placed warmup p b o Hin)
    as [_ [_ [_ [u1 [u2 [I1 [I2 [Hu Hpl]]]]]]]].
  rewrite H1 in I1. rewrite H2 in I2. inversion I1. inversion I2.
  subst u1 u2. fold u in Hu, Hpl. split; [exact Hu|].
  rewrite Hpl in Hin. exact (order_size_signal p b _ u o Hin).
Qed.

Lemma next_is_next_with (next : Params -> Bar -> raises Effect) :
  In next [FinalLowDrawdownStrategy.next; RiskManagedStrategy.next] ->
  exists warmup, next = next_with warmup.
Proof. intros [<-|[<-|[]]]; eexists; reflexivity. Qed.

(** C1 (amended). On a flat bar where the two quotients the code computes,
    [(equity * risk) / stop_distance] and [(equity * 0.95) / price], are
    finite binary64 numbers [y1] and [y2]: the size is [floor(y1)] capped
    with [min] by [floor(y2)], so it never exceeds that ceiling; the code
    converts with [int], truncation toward zero, capping after the
    risk-based size, and the result is the floor-based size whenever that
    is at least one (and on every non-negative quotient); both strategy
    classes place no order when the size is below one, place only orders
    of exactly that size otherwise, and do not raise.  When a quotient
    has overflowed to an infinity, the conversion raises
    [OverflowError]; and with a finite risk amount, a finite [equity *
    0.95] and a finite, non-zero stop distance and price, each quotient
    is a number or an infinity. *)
Theorem C1_risk_size_capped_by_capital_ceiling :
  forall (p : Params) (b : Bar),
    position b = false ->
    (forall y1 y2 : Q,
        risk_quotient p b = Fin y1 -> capital_quotient b = Fin y2 ->
        let units := Z.min (Qfloor y1) (Qfloor y2) in
        let code_units := Z.min (Qtrunc y1) (Qtrunc y2) in
        (units <= Qfloor y2)%Z
        /\ position_size (risk_amount p b) (stop_distance p b)
                         (equity b) (Close_last b) = ret code_units
        /\ ((1 <= units)%Z -> code_units = units)
        /\ ((units < 1)%Z -> (code_units < 1)%Z)
        /\ (0 <= y1 -> Qtrunc y1 = Qfloor y1)
        /\ (0 <= y2 -> Qtrunc y2 = Qfloor y2)
        /\ forall next,
            In next [FinalLowDrawdownStrategy.next;
                     RiskManagedStrategy.next] ->
            ((units < 1)%Z -> next p b = ret (skip b))
            /\ (forall o, In o (placed (next p b)) -> order_size o = units)
            /\ (exists e, next p b = ret e))
    /\ (risk_quotient p b = PInf \/ risk_quotient p b = NInf
        \/ (is_finite (risk_quotient p b) = true
            /\ (capital_quotient b = PInf \/ capital_quotient b = NInf)) ->
        position_size (risk_amount p b) (stop_distance p b)
                      (equity b) (Close_last b) = raise OverflowError)
    /\ (forall x d ce P : Q,
           risk_amount p b = Fin x -> stop_distance p b = Fin d ->
           ~ d == 0 ->
           fmul64 (equity b) (lit 0.95) = Fin ce ->
           f64 (Close_last b) = Fin P -> ~ P == 0 ->
           ((exists y1, risk_quotient p b = Fin y1)
            \/ risk_quotient p b = PInf \/ risk_quotient p b = NInf)
           /\ ((exists y2, capital_quotient b = Fin y2)
               \/ capital_quotient b = PInf \/ capital_quotient b = NInf)).
Proof.
  intros p b Hpos. split; [|split; [apply position_size_overflow|]].
  2: { intros x d ce P Hx Hd Hd0 Hce HP HP0.
       split; [exact (risk_quotient_cases p b x d Hx Hd Hd0)
              |exact (capital_quotient_cases b ce P Hce HP HP0)]. }
  intros y1 y2 H1 H2 units code_units.
  destruct (trunc_floor_min y1 y2) as [Hge Hlt].
  fold code_units in Hge, Hlt. fold units in Hge, Hlt.
  split; [apply Z.le_min_r|].
  split; [exact (position_size_finite p b y1 y2 H1 H2)|].
  split; [exact Hge|]. split; [exact Hlt|].
  split; [apply Qtrunc_nonneg|]. split; [apply Qtrunc_nonneg|].
  intros next Hnext.
  destruct (next_is_next_with next Hnext) as [warmup ->].
  pose proof (next_with_flat_finite warmup p b y1 y2 Hpos H1 H2) as Hnx.
  cbv zeta in Hnx. fold code_units in Hnx.
  split; [|split].
  - intros Hu. specialize (Hlt Hu). apply Z.ltb_lt in Hlt.
    rewrite Hnx, Hlt.
    destruct (data_len b <? warmup p)%nat; [reflexivity|].
    destruct (isna (ma_last b)); [reflexivity|].
    destruct (stop_distance p b =? lit 0)%f64; reflexivity.
  - intros o Hin.
    destruct (placed_next_with_size warmup p b y1 y2 o H1 H2 Hin)
      as [G ->].
    fold code_units. fold code_units in G.
    apply Hge. destruct (Z_lt_le_dec units 1) as [L|L]; [|exact L].
    specialize (Hlt L). lia.
  - rewrite Hnx.
    destruct (data_len b <? warmup p)%nat; [eexists; reflexivity|].
    destruct (isna (ma_last b)); [eexists; reflexivity|].
    destruct (stop_distance p b =? lit 0)%f64; [eexists; reflexivity|].
    destruct (code_units <? 1)%Z; eexists; reflexivity.
Qed.

(** An instance: [bar_breakout] under the default parameters, where the
    quotients are 12500 and 95000. *)
Lemma C1_risk_size_capped_by_capital_ceiling_witness :
  (Z.min (Qfloor 12500) (Qfloor 95000) <= Qfloor 95000)%Z
  /\ position_size
       (risk_amount FinalLowDrawdownStrategy.defaults bar_breakout)
       (stop_distance FinalLowDrawdownStrategy.defaults bar_breakout)
       (equity bar_breakout) (Close_last bar_breakout)
     = ret (Z.min (Qtrunc 12500) (Qtrunc 95000)).
Proof.
  pose proof (proj1 (C1_risk_size_capped_by_capital_ceiling
                       FinalLowDrawdownStrategy.defaults bar_breakout
                       eq_refl)
                    12500 95000
                    ltac:(vm_compute; reflexivity)
                    ltac:(vm_compute; reflexivity)) as H.
  cbv zeta in H. destruct H as [H1 [H2 _]]. split; [exact H1|exact H2].
Defined.

(** On [bar_rounding] with 3% of risk and a multiplier of 3 the code
    places 1371741 units: the binary64 quotient is just below 1371742,
    while [floor(equity * risk / distance)] in exact arithmetic is
    1371742, both on the decimal values and on the binary64 numbers
    nearest to them. *)
Lemma C1_size_below_floor_of_exact_quotient :
  map order_size
      (placed (FinalLowDrawdownStrategy.next params_rounding bar_rounding))
  = [1371741%Z]
  /\ map order_size
         (placed (RiskManagedStrategy.next params_rounding bar_rounding))
     = [1371741%Z]
  /\ spec_units 12345678 0.03 (0.09 * 3) 1 = 1371742%Z
  /\ exists E r a m price : Q,
      f64 (equity bar_rounding) = Fin E
      /\ f64 (risk_per_trade params_rounding) = Fin r
      /\ f64 (atr_last bar_rounding) = Fin a
      /\ f64 (atr_multiplier params_rounding) = Fin m
      /\ f64 (Close_last bar_rounding) = Fin price
      /\ spec_units E r (a * m) price = 1371742%Z.
Proof.
  split; [vm_compute; reflexivity|]. split; [vm_compute; reflexivity|].
  split; [reflexivity|].
  do 5 eexists. repeat (split; [vm_compute; reflexivity|]).
  vm_compute. reflexivity.
Qed.

(** The bar [bar_breakout] places a long entry of 12500 units. *)
Example bar_breakout_order :
  FinalLowDrawdownStrategy.next FinalLowDrawdownStrategy.defaults bar_breakout
  = ret {| orders := [Buy (lit 100 - lit 2 * lit 4) 12500];
           trades_after := [] |}.
Proof. vm_compute. reflexivity. Qed.

(** With an ATR of [2^-1060] the quotient [100000 / 2^-1058] overflows
    and both classes raise [OverflowError]. *)
Example tiny_atr_overflows :
  risk_quotient FinalLowDrawdownStrategy.defaults bar_tiny_atr = PInf
  /\ FinalLowDrawdownStrategy.next
       FinalLowDrawdownStrategy.defaults bar_tiny_atr = raise OverflowError
  /\ RiskManagedStrategy.next
       RiskManagedStrategy.defaults bar_tiny_atr = raise OverflowError.
Proof. repeat split; vm_compute; reflexivity. Qed.

(** [int] truncates: 2.9 gives 2 and -2.9 gives -2. *)
Example int_truncates :
  int (lit 2.9) = ret 2%Z /\ int (lit (-2.9)) = ret (-2)%Z
  /\ Qfloor (-2.9) = (-3)%Z.
Proof. repeat split. Qed.

(* ------------------------------------------------------------------ *)
(** ** Doubling the risk fraction *)

Lemma Qfloor_lower (z : Z) (x : Q) : inject_Z z <= x -> (z <= Qfloor x)%Z.
Proof.
  intros H. rewrite <- (Qfloor_Z z). apply Qfloor_resp_le. exact H.
Qed.

Lemma Qfloor_upper (z : Z) (x : Q) : x < inject_Z z -> (Qfloor x < z)%Z.
Proof.
  intros H. pose proof (Qfloor_le x) as F.
  rewrite Zlt_Qlt. lra.
Qed.

Lemma Qfloor_double (x y : Q) :
  y == 2 * x ->
  Qfloor y = (2 * Qfloor x)%Z \/ Qfloor y = (2 * Qfloor x + 1)%Z.
Proof.
  intros Hy.
  pose proof (Qfloor_le x) as Lo. pose proof (Qlt_floor x) as Hi.
  assert (L : (2 * Qfloor x <= Qfloor y)%Z).
  { apply Qfloor_lower. rewrite inject_Z_mult. change (inject_Z 2) with 2.
    lra. }
  assert (U : (Qfloor y < 2 * Qfloor x + 2)%Z).
  { apply Qfloor_upper. rewrite inject_Z_plus, inject_Z_mult.
    rewrite inject_Z_plus in Hi.
    change (inject_Z 2) with 2. change (inject_Z 1) with 1 in Hi. lra. }
  lia.
Qed.

(** The smallest normal number is a binary64 number. *)
Lemma round64_min_normal : round64 (pow2 (-1022)) = Fin (pow2 (-1022)).
Proof. vm_compute. reflexivity. Qed.

(** A number that rounds above the smallest normal number is in the
    normal range. *)
Lemma round64_above_normal (q y : Q) :
  round64 q = Fin y -> pow2 (-1022) < y -> pow2 (-1022) <= q.
Proof.
  intros E Hy. destruct (Qlt_le_dec q (pow2 (-1022))) as [S|S]; [|exact S].
  exfalso. pose proof (round64_monotone q (pow2 (-1022))
                         (Qlt_le_weak _ _ S)) as M.
  rewrite E, round64_min_normal in M. apply fleb_fin in M. lra.
Qed.

Lemma f64_fin (q : Q) : f64 (Fin q) = round64 q.
Proof. reflexivity. Qed.

Lemma fdiv_fin (a b : Q) : ~ b == 0 -> (Fin a / Fin b)%f64 = Fin (a / b).
Proof.
  intros H. unfold fdiv. rewrite (Qeq_bool_nonzero b H). reflexivity.
Qed.

(** The value rounded after doubling: the double, or an overflow. *)
Lemma round64_double_of (q q2 y : Q) :
  q2 == 2 * q -> pow2 (-1022) <= q -> round64 q = Fin y ->
  round64 q2 = PInf \/ exists y2, round64 q2 = Fin y2 /\ y2 == 2 * y.
Proof.
  intros E N R. rewrite (round64_comp q2 (2 * q) E).
  exact (proj2 (round64_double q y N R)).
Qed.

Lemma with_risk_stop_distance (p : Params) (r : float64) (b : Bar) :
  stop_distance (with_risk p r) b = stop_distance p b.
Proof. reflexivity. Qed.

Lemma with_risk_risk_amount (p : Params) (r : float64) (b : Bar) :
  risk_amount (with_risk p r) b = fmul64 (equity b) r.
Proof. reflexivity. Qed.

(** The risk amount for twice the risk fraction: twice the risk amount,
    or an overflow. *)
Lemma risk_amount_double (E : float64) (r1 r2 x1 : Q) :
  r2 == 2 * r1 -> pow2 (-1022) <= r1 ->
  fmul64 E (Fin r1) = Fin x1 -> pow2 (-1022) < x1 ->
  fmul64 E (Fin r2) = PInf
  \/ exists x2, fmul64 E (Fin r2) = Fin x2 /\ x2 == 2 * x1.
Proof.
  intros Hr N1 H1 Nx.
  destruct (fmul64_fin_inv _ _ _ H1)
    as [E0 [r [E' [R1 [HE [Hr1 [RE [RR RX]]]]]]]].
  injection Hr1 as <-.
  pose proof (round64_above_normal _ _ RX Nx) as Np.
  destruct (round64_double r1 R1 N1 RR) as [NR _].
  pose proof (pow2_pos (-1022)) as P.
  assert (HE' : 0 < E').
  { destruct (Qlt_le_dec 0 E') as [L|L]; [exact L|exfalso].
    assert (E' * R1 <= 0 * R1) by (apply Qmult_le_compat_r; lra). lra. }
  unfold fmul64. rewrite HE, !f64_fin, RE.
  destruct (round64_double_of r1 r2 R1 Hr N1 RR) as [F|[R2 [F HR2]]];
    rewrite F.
  - left. unfold fmul. simpl sgn.
    replace (Qsgn E') with Gt by (symmetry; apply Qsgn_Gt; exact HE').
    reflexivity.
  - change (Fin E' * Fin R2)%f64 with (Fin (E' * R2)). rewrite f64_fin.
    apply (round64_double_of (E' * R1)); try assumption.
    rewrite HR2. ring.
Qed.

(** C8 (amended). Two parameter records that differ only in the risk
    fraction, the second twice the first (1% and 2%), on the same flat bar
    where both place an entry and the capital ceiling binds on neither,
    with the risk fraction and the risk amount in binary64's normal range
    (above [2^-1022]): each size is the truncated binary64 quotient, and
    the larger size is twice the smaller one or twice the smaller one plus
    one unit, because each size is truncated to an integer. *)
Theorem C8_double_risk_doubles_size_up_to_one_unit :
  forall (next : Params -> Bar -> raises Effect)
         (p : Params) (b : Bar) (r1 r2 x1 : Q) (u1 u2 c : Z)
         (o1 o2 : Order),
    In next [FinalLowDrawdownStrategy.next; RiskManagedStrategy.next] ->
    r2 == 2 * r1 -> pow2 (-1022) <= r1 ->
    risk_amount (with_risk p (Fin r1)) b = Fin x1 -> pow2 (-1022) < x1 ->
    int (risk_quotient (with_risk p (Fin r1)) b) = ret u1 ->
    int (risk_quotient (with_risk p (Fin r2)) b) = ret u2 ->
    int (capital_quotient b) = ret c ->
    (u1 <= c)%Z -> (u2 <= c)%Z ->
    In o1 (placed (next (with_risk p (Fin r1)) b)) ->
    In o2 (placed (next (with_risk p (Fin r2)) b)) ->
    order_size o1 = u1 /\ order_size o2 = u2
    /\ (u2 = 2 * u1 \/ u2 = 2 * u1 + 1)%Z.
Proof.
  intros next p b r1 r2 x1 u1 u2 c o1 o2 Hnext Hr N1 Hx1 Nx I1 I2 Ic
         Hcap1 Hcap2 Hin1 Hin2.
  destruct (next_is_next_with next Hnext) as [warmup ->].
  destruct (next_with_placed warmup _ b o1 Hin1)
    as [_ [_ [_ [u [c1 [J1 [Jc [G1 P1]]]]]]]].
  rewrite I1 in J1. rewrite Ic in Jc. injection J1 as <-. injection Jc as <-.
  destruct (next_with_placed warmup _ b o2 Hin2)
    as [_ [_ [_ [u [c2 [J2 [Jc [G2 P2]]]]]]]].
  rewrite I2 in J2. rewrite Ic in Jc. injection J2 as <-. injection Jc as <-.
  rewrite P1 in Hin1. rewrite P2 in Hin2.
  apply order_size_signal in Hin1. apply order_size_signal in Hin2.
  rewrite Z.min_l in Hin1, G1 by exact Hcap1.
  rewrite Z.min_l in Hin2, G2 by exact Hcap2.
  split; [exact Hin1|]. split; [exact Hin2|].
  (* the two quotients *)
  rewrite risk_quotient_eq, with_risk_stop_distance in I1, I2.
  rewrite Hx1 in I1.
  destruct (int_f64_fdiv_pos _ _ _ I1 G1)
    as [a [d [v1 [Ha [Hd [Hd0 [R1 [Hu1 Hv1]]]]]]]].
  injection Ha as <-.
  rewrite with_risk_risk_amount in Hx1, I2.
  destruct (risk_amount_double (equity b) r1 r2 x1 Hr N1 Hx1 Nx)
    as [F|[x2 [F Hx2]]]; rewrite F, Hd in I2.
  - exfalso. unfold fdiv in I2. simpl in I2.
    destruct (Qeq_bool d 0); [discriminate|].
    destruct (Qsgn d); discriminate.
  - rewrite (fdiv_fin _ _ Hd0), f64_fin in I2.
    pose proof (round64_ge_1_normal _ _ R1 Hv1) as Nq.
    destruct (round64_double_of (x1 / d) (x2 / d) v1) as [O|[v2 [R2 Hv2]]];
      try assumption.
    + rewrite Hx2. field. exact Hd0.
    + rewrite O in I2. discriminate.
    + rewrite R2 in I2. injection I2 as Hu2.
      assert (P1' : 0 <= v1) by lra. assert (P2' : 0 <= v2) by lra.
      rewrite Hu1, <- Hu2, (Qtrunc_nonneg _ P1'), (Qtrunc_nonneg _ P2').
      apply Qfloor_double. exact Hv2.
Qed.

(** An instance: 12500 and 25000 units on [bar_breakout]. *)
Lemma C8_double_risk_doubles_size_up_to_one_unit_witness :
  (12500 = 12500 /\ 25000 = 25000
   /\ (25000 = 2 * 12500 \/ 25000 = 2 * 12500 + 1))%Z.
Proof.
  exact (C8_double_risk_doubles_size_up_to_one_unit
           FinalLowDrawdownStrategy.next
           FinalLowDrawdownStrategy.defaults bar_breakout
           0.01 0.02 100000 12500 25000 95000
           (Buy (lit 100 - lit 2 * lit 4) 12500)
           (Buy (lit 100 - lit 2 * lit 4) 25000)
           (or_introl eq_refl) eq_refl
           ltac:(vm_compute; discriminate)
           ltac:(vm_compute; reflexivity)
           ltac:(vm_compute; reflexivity)
           ltac:(vm_compute; reflexivity)
           ltac:(vm_compute; reflexivity)
           ltac:(vm_compute; reflexivity)
           ltac:(vm_compute; discriminate) ltac:(vm_compute; discriminate)
           ltac:(vm_compute; left; reflexivity)
           ltac:(vm_compute; left; reflexivity)).
Defined.

(** With 1% and 2% of risk the bar [bar_wide_atr] places 2 and 5 units,
    far below the ceiling of 190 units. *)
Lemma C8_sizes_not_in_ratio_one_to_two :
  placed (FinalLowDrawdownStrategy.next
            (with_risk FinalLowDrawdownStrategy.defaults (lit 0.01))
            bar_wide_atr)
  = [Buy (lit 50000 - lit 10000 * lit 4) 2]
  /\ placed (FinalLowDrawdownStrategy.next
               (with_risk FinalLowDrawdownStrategy.defaults (lit 0.02))
               bar_wide_atr)
     = [Buy (lit 50000 - lit 10000 * lit 4) 5]
  /\ int (capital_quotient bar_wide_atr) = ret 190%Z
  /\ (5 <> 2 * 2)%Z.
Proof.
  repeat split; try (vm_compute; reflexivity). discriminate.
Qed.


(* ------------------------------------------------------------------ *)
(** ** The trailing stop *)













(** The stops of [long_trade] over [bars_held]: 90, then 92, 92 (the
    candidate 87 is lower) and 102. *)
Example bars_held_stops :
  stop_path FinalLowDrawdownStrategy.next FinalLowDrawdownStrategy.defaults
            long_trade bars_held
  = [(lit 100 - lit 2 * lit 4)%f64; (lit 100 - lit 2 * lit 4)%f64;
     (lit 110 - lit 2 * lit 4)%f64].
Proof. reflexivity. Qed.

(* ------------------------------------------------------------------ *)
(** ** The optimizer's objective *)

Lemma fltb_fin (a b : Q) : (Fin a <? Fin b)%f64 = true <-> a < b.
Proof.
  unfold fltb. simpl. rewrite Qlt_alt.
  destruct (a ?= b); split; intros H; try reflexivity; discriminate.
Qed.

Lemma fltb_fin_false (a b : Q) : (Fin a <? Fin b)%f64 = false <-> b <= a.
Proof.
  rewrite <- not_true_iff_false, fltb_fin.
  split; [apply Qnot_lt_le|apply Qle_not_lt].
Qed.


(** A return of 900% with three trades is rejected. *)
Example few_trades_rejected : optim_func stats_few_trades = lit (-1).
Proof. reflexivity. Qed.

(** C10. A record with at least 10 trades and a maximum drawdown of
    exactly 0 passes both acceptance constraints, and its score is the
    return divided by zero: not a finite number, but an infinity of the
    return's sign, or [NaN] for a zero or undefined return. *)
Theorem C10_zero_drawdown_score_is_division_by_zero :
  forall (series : Stats) (dd : Q),
    (10 <= n_trades series)%Z ->
    max_drawdown_pct series = Fin dd -> dd == 0 ->
    (n_trades series <? 10)%Z = false
    /\ (max_drawdown_pct series <? lit (-20))%f64 = false
    /\ optim_func series = (return_pct series / Fin (Qabs dd))%f64
    /\ Qabs dd == 0
    /\ is_finite (optim_func series) = false
    /\ (forall ret : Q,
           return_pct series = Fin ret ->
           optim_func series = inf_of (Qsgn ret)).
Proof.
  intros series dd Hn Hdd Hz. apply Z.ltb_ge in Hn.
  assert (Hlt : (max_drawdown_pct series <? lit (-20))%f64 = false).
  { rewrite Hdd. apply fltb_fin_false. lra. }
  assert (Ha : Qabs dd == 0) by (rewrite Hz; reflexivity).
  assert (Hs : optim_func series = (return_pct series / Fin (Qabs dd))%f64).
  { unfold optim_func. rewrite Hn, Hlt, Hdd. reflexivity. }
  assert (Hb : Qeq_bool (Qabs dd) 0 = true) by (apply Qeq_bool_iff, Ha).
  repeat split; try assumption.
  - rewrite Hs. destruct (return_pct series) as [ret| | |]; simpl;
      rewrite ?Hb; try reflexivity.
    destruct (Qsgn ret); reflexivity.
  - intros ret Hret. rewrite Hs, Hret. simpl. rewrite Hb. reflexivity.
Qed.

(** An instance: [stats_no_drawdown]. *)
Lemma C10_zero_drawdown_score_is_division_by_zero_witness :
  optim_func stats_no_drawdown = (lit 35 / Fin (Qabs 0))%f64
  /\ is_finite (optim_func stats_no_drawdown) = false.
Proof.
  pose proof (C10_zero_drawdown_score_is_division_by_zero
                stats_no_drawdown 0 ltac:(discriminate) eq_refl eq_refl)
    as H.
  split; [exact (proj1 (proj2 (proj2 H)))
         |exact (proj1 (proj2 (proj2 (proj2 (proj2 H)))))].
Defined.

(** The score of [stats_no_drawdown] is [+inf]. *)
Example no_drawdown_score : optim_func stats_no_drawdown = PInf.
Proof. reflexivity. Qed.

(* ------------------------------------------------------------------ *)
(** ** Rolling windows *)

Section Windows.

Local Open Scope nat_scope.

Lemma nth_map_seq (f : nat -> float64) (len i : nat) :
  i < len -> nth i (map f (seq 0 len)) NaN = f i.
Proof.
  intros H.
  rewrite (nth_indep _ NaN (f 0%nat)) by (rewrite length_map, length_seq; exact H).
  rewrite map_nth, seq_nth by exact H. reflexivity.
Qed.

Lemma length_rolling (n : nat) (agg : list Q -> float64) (xs : Series) :
  length (rolling n agg xs) = length xs.
Proof. unfold rolling. rewrite length_map, length_seq. reflexivity. Qed.

Lemma nth_rolling (n : nat) (agg : list Q -> float64) (xs : Series) (i : nat) :
  i < length xs ->
  nth i (rolling n agg xs) NaN
  = match window n i xs with
    | None => NaN
    | Some w =>
        match finites w with
        | Some qs => agg qs
        | None => NaN
        end
    end.
Proof. intros H. unfold rolling. rewrite nth_map_seq by exact H. reflexivity. Qed.

Lemma length_zip_with {A B C} (f : A -> B -> C) (xs : list A) (ys : list B) :
  length (zip_with f xs ys) = Nat.min (length xs) (length ys).
Proof. unfold zip_with. rewrite length_map, length_combine. reflexivity. Qed.

Lemma Forall_zip_with {A B C} (f : A -> B -> C)
  (P : A -> Prop) (Q : B -> Prop) (R : C -> Prop) :
  (forall x y, P x -> Q y -> R (f x y)) ->
  forall xs ys, Forall P xs -> Forall Q ys -> Forall R (zip_with f xs ys).
Proof.
  intros Hf xs. induction xs as [|x xs IH]; intros ys Hx Hy.
  - constructor.
  - destruct ys as [|y ys]; [constructor|].
    inversion Hx; subst. inversion Hy; subst.
    unfold zip_with. simpl. constructor; [apply Hf; assumption|].
    apply IH; assumption.
Qed.

Lemma all_finite_Forall (xs : Series) :
  all_finite xs = true <-> Forall (fun x => is_finite x = true) xs.
Proof. unfold all_finite. rewrite forallb_forall, Forall_forall. reflexivity. Qed.

Lemma all_finite_split (k : nat) (xs : Series) :
  all_finite xs = true ->
  all_finite (firstn k xs) = true /\ all_finite (skipn k xs) = true.
Proof.
  unfold all_finite. intros H.
  rewrite <- (firstn_skipn k xs), forallb_app in H.
  apply andb_true_iff in H. exact H.
Qed.

Lemma finites_all_finite (w : Series) :
  all_finite w = true ->
  exists qs, finites w = Some qs /\ w = map Fin qs.
Proof.
  induction w as [|x w IH]; intros H.
  - exists []. split; reflexivity.
  - unfold all_finite in H. simpl in H. apply andb_true_iff in H.
    destruct H as [Hx Hw]. destruct x; try discriminate.
    destruct (IH Hw) as [qs [E ->]].
    exists (q :: qs). simpl. rewrite E. split; reflexivity.
Qed.

Lemma finites_map_Fin (w : Series) (qs : list Q) :
  finites w = Some qs -> w = map Fin qs.
Proof.
  revert qs. induction w as [|x w IH]; intros qs H.
  - inversion H. reflexivity.
  - destruct x; try discriminate. simpl in H.
    destruct (finites w) as [r|]; [|discriminate].
    inversion H; subst. simpl. rewrite (IH r eq_refl). reflexivity.
Qed.

(** Past the first [n - 1] positions the window holds [n] values. *)
Lemma window_some (n i : nat) (xs : Series) :
  n <= i + 1 -> i < length xs ->
  exists w, window n i xs = Some w /\ length w = n
            /\ w = firstn n (skipn (i + 1 - n) xs).
Proof.
  intros Hn Hi. unfold window.
  destruct (i + 1 <? n) eqn:E; [apply Nat.ltb_lt in E; lia|].
  eexists. split; [reflexivity|]. split; [|reflexivity].
  rewrite length_firstn, length_skipn. lia.
Qed.

Lemma window_none (n i : nat) (xs : Series) :
  i + 1 < n -> window n i xs = None.
Proof.
  intros H. unfold window. apply Nat.ltb_lt in H. rewrite H. reflexivity.
Qed.

(** A rolling aggregate of a finite series, for an aggregate that is
    finite on every non-empty window: undefined on the first [n - 1]
    positions, a finite number afterwards. *)
Lemma rolling_defined (agg : list Q -> float64) (n i : nat) (xs : Series) :
  (forall q qs, is_finite (agg (q :: qs)) = true) ->
  1 <= n -> all_finite xs = true -> i < length xs ->
  isna (nth i (rolling n agg xs) NaN) = (i <? n - 1)
  /\ (n - 1 <= i -> is_finite (nth i (rolling n agg xs) NaN) = true).
Proof.
  intros Hagg Hn Hf Hi. rewrite nth_rolling by exact Hi.
  destruct (i <? n - 1) eqn:E.
  - apply Nat.ltb_lt in E. rewrite window_none by lia.
    split; [reflexivity|lia].
  - apply Nat.ltb_ge in E.
    destruct (window_some n i xs) as [w [-> [Lw Ew]]]; try lia.
    assert (Fw : all_finite w = true).
    { rewrite Ew. apply all_finite_split. apply all_finite_split. exact Hf. }
    destruct (finites_all_finite w Fw) as [qs [-> Eq]].
    assert (Lq : length qs = n).
    { rewrite <- Lw, Eq, length_map. reflexivity. }
    destruct qs as [|q qs]; [simpl in Lq; lia|].
    specialize (Hagg q qs). destruct (agg (q :: qs)); try discriminate.
    split; [reflexivity|intros _; reflexivity].
Qed.

Lemma rolling_mean_defined (n i : nat) (xs : Series) :
  1 <= n -> all_finite xs = true -> i < length xs ->
  isna (nth i (rolling n agg_mean xs) NaN) = (i <? n - 1)
  /\ (n - 1 <= i -> is_finite (nth i (rolling n agg_mean xs) NaN) = true).
Proof. apply rolling_defined. reflexivity. Qed.

End Windows.

(* ------------------------------------------------------------------ *)
(** ** Warm-up of the moving average and of the ATR *)

Section WarmUp.

Local Open Scope nat_scope.

Lemma length_shift (xs : Series) : length (shift xs) = length xs.
Proof.
  destruct xs as [|x xs]; [reflexivity|].
  unfold shift. cbn [length]. rewrite removelast_firstn_len, length_firstn.
  cbn [length]. lia.
Qed.

Lemma shift_fin_or_nan (xs : Series) :
  all_finite xs = true -> Forall (fun x => fin_or_nan x = true) (shift xs).
Proof.
  intros H. destruct xs as [|x xs]; [constructor|].
  unfold shift. constructor; [reflexivity|].
  rewrite removelast_firstn_len.
  destruct (all_finite_split (Nat.pred (length (x :: xs))) (x :: xs) H) as [F _].
  apply all_finite_Forall in F. revert F. apply Forall_impl.
  intros a Ha. destruct a; try discriminate; reflexivity.
Qed.

Lemma nanmax_finite (a b : float64) :
  is_finite a = true -> fin_or_nan b = true -> is_finite (nanmax a b) = true.
Proof.
  destruct a; try discriminate. intros _.
  destruct b; try discriminate; intros _; unfold nanmax; simpl;
    [destruct (Fin q >? Fin q0)%f64|]; reflexivity.
Qed.

Lemma fsub_finite (a b : float64) :
  is_finite a = true -> is_finite b = true -> is_finite (a - b)%f64 = true.
Proof. destruct a, b; try discriminate; reflexivity. Qed.

Lemma fabs_fsub_fin_or_nan (a b : float64) :
  is_finite a = true -> fin_or_nan b = true ->
  fin_or_nan (fabs (a - b)%f64) = true.
Proof. destruct a, b; try discriminate; reflexivity. Qed.

Lemma Forall_map_Forall {A B} (f : A -> B) (P : A -> Prop) (R : B -> Prop) :
  (forall x, P x -> R (f x)) -> forall xs, Forall P xs -> Forall R (map f xs).
Proof.
  intros Hf xs H. induction H; simpl; constructor; auto.
Qed.

(** The true range of finite columns of equal length is finite at every
    position, the first one included. *)
Lemma true_range_finite (high low close : Series) :
  all_finite high = true -> all_finite low = true ->
  all_finite close = true ->
  length high = length close -> length low = length close ->
  all_finite (true_range high low close) = true
  /\ length (true_range high low close) = length close.
Proof.
  intros Hh Hl Hc Lh Ll. split.
  - apply all_finite_Forall. unfold true_range, row_max3, Pandas.abs.
    apply all_finite_Forall in Hh. apply all_finite_Forall in Hl.
    pose proof (shift_fin_or_nan close Hc) as Hs.
    apply Forall_zip_with
      with (P := fun x => is_finite x = true)
           (Q := fun x => fin_or_nan x = true);
      [exact nanmax_finite| |].
    + apply Forall_zip_with
        with (P := fun x => is_finite x = true)
             (Q := fun x => fin_or_nan x = true);
        [exact nanmax_finite| |].
      * apply Forall_zip_with
          with (P := fun x => is_finite x = true)
               (Q := fun x => is_finite x = true);
          [exact fsub_finite|assumption|assumption].
      * unfold zip_with. rewrite map_map.
        apply Forall_zip_with
          with (f := fun x y => fabs (x - y)%f64)
               (P := fun x => is_finite x = true)
               (Q := fun x => fin_or_nan x = true);
          [exact fabs_fsub_fin_or_nan|assumption|assumption].
    + unfold zip_with at 1. rewrite map_map.
      apply Forall_zip_with
        with (f := fun x y => fabs (x - y)%f64)
             (P := fun x => is_finite x = true)
             (Q := fun x => fin_or_nan x = true);
        [exact fabs_fsub_fin_or_nan|assumption|assumption].
  - unfold true_range, row_max3, Pandas.abs.
    rewrite !length_zip_with, !length_map, !length_zip_with, length_shift.
    lia.
Qed.

Lemma ATR_ohlc (high low close : Series) (n : nat) :
  ATR (ohlc high low close) n
  = rolling n agg_mean (true_range high low close).
Proof. reflexivity. Qed.

End WarmUp.

Section WarmUpResults.

Local Open Scope nat_scope.

(** C6 (amended). For every window [n >= 1] and finite input: the moving
    average is undefined on exactly the first [n - 1] positions and
    defined afterwards; the true range is defined at position 0, where it
    is [high - low] (the row maximum skips the two undefined terms built
    from the missing previous close), so the ATR too is undefined on
    exactly the first [n - 1] positions and defined afterwards. *)
Theorem C6_warm_up_is_window_minus_one :
  forall n : nat,
    1 <= n ->
    (forall (values : Series) (i : nat),
        all_finite values = true -> i < length values ->
        isna (nth i (SMA values n) NaN) = (i <? n - 1))
    /\ (forall (high low close : Series) (i : nat),
           all_finite high = true -> all_finite low = true ->
           all_finite close = true ->
           length high = length close -> length low = length close ->
           i < length close ->
           isna (nth i (ATR (ohlc high low close) n) NaN) = (i <? n - 1)
           /\ nth 0 (true_range high low close) NaN
              = (nth 0 high NaN - nth 0 low NaN)%f64
           /\ is_finite (nth 0 (true_range high low close) NaN) = true).
Proof.
  intros n Hn. split.
  - intros values i Hf Hi. unfold SMA.
    apply rolling_mean_defined; assumption.
  - intros high low close i Hh Hl Hc Lh Ll Hi.
    destruct (true_range_finite high low close Hh Hl Hc Lh Ll) as [Ft Lt].
    split.
    { rewrite ATR_ohlc. apply rolling_mean_defined; try assumption.
      rewrite Lt. exact Hi. }
    destruct high as [|h hs]; [simpl in Lh; lia|].
    destruct low as [|l ls]; [simpl in Ll; lia|].
    destruct close as [|c cs]; [simpl in Hi; lia|].
    unfold all_finite in Hh, Hl. simpl in Hh, Hl.
    destruct h; try discriminate. destruct l; try discriminate.
    split; reflexivity.
Qed.

(** An instance: three bars and a window of 2. *)
Lemma C6_warm_up_is_window_minus_one_witness :
  isna (nth 1 (SMA closes3 2) NaN) = (1 <? 2 - 1)
  /\ isna (nth 1 (ATR (ohlc highs3 lows3 closes3) 2) NaN) = (1 <? 2 - 1).
Proof.
  pose proof (C6_warm_up_is_window_minus_one 2 ltac:(lia)) as [H1 H2].
  split.
  - exact (H1 closes3 1 eq_refl ltac:(simpl; lia)).
  - exact (proj1 (H2 highs3 lows3 closes3 1 eq_refl eq_refl eq_refl
                     eq_refl eq_refl ltac:(simpl; lia))).
Defined.

(** With a window of 2 the ATR of three bars is already defined at
    position 1, the second position, and the true range at position 0. *)
Lemma C6_atr_defined_at_position_window_minus_one :
  ATR (ohlc highs3 lows3 closes3) 2
  = [NaN; Fin ((10 + - 8 + (11 + - 9 + 0)) / 2);
     Fin ((11 + - 9 + (12 + - 10 + 0)) / 2)]%Q
  /\ isna (nth 1 (ATR (ohlc highs3 lows3 closes3) 2) NaN) = false
  /\ nth 0 (true_range highs3 lows3 closes3) NaN = Fin (10 + - 8)%Q.
Proof. repeat split. Qed.

End WarmUpResults.

(* ------------------------------------------------------------------ *)
(** ** The breakout channel reads earlier bars only *)

Section Channel.

Local Open Scope nat_scope.

Lemma nth_shift_S (xs : Series) (j : nat) :
  S j < length xs -> nth (S j) (shift xs) NaN = nth j xs NaN.
Proof.
  intros H. destruct xs as [|x xs]; [simpl in H; lia|].
  unfold shift. cbn [nth]. rewrite removelast_firstn_len, nth_firstn.
  cbn [length] in *.
  destruct (j <? Nat.pred (S (length xs))) eqn:E; [reflexivity|].
  apply Nat.ltb_ge in E. simpl in E. lia.
Qed.

Lemma nth_shift_0 (xs : Series) : nth 0 (shift xs) NaN = NaN.
Proof. destruct xs; reflexivity. Qed.

(** The window that ends at [j] lies within the first [j + 1] values. *)
Lemma window_prefix (n j : nat) (xs : Series) :
  window n j xs = window n j (firstn (j + 1) xs).
Proof.
  unfold window. destruct (j + 1 <? n) eqn:E; [reflexivity|].
  apply Nat.ltb_ge in E. f_equal.
  rewrite skipn_firstn_comm, firstn_firstn. f_equal. lia.
Qed.

(** The shifted rolling aggregate at [i] is the aggregate of the window
    that ends at [i - 1]. *)
Lemma nth_shift_rolling (n : nat) (agg : list Q -> float64) (xs : Series)
  (j : nat) :
  S j < length xs ->
  nth (S j) (shift (rolling n agg xs)) NaN
  = match window n j (firstn (S j) xs) with
    | None => NaN
    | Some w =>
        match finites w with
        | Some qs => agg qs
        | None => NaN
        end
    end.
Proof.
  intros H. rewrite nth_shift_S by (rewrite length_rolling; exact H).
  rewrite nth_rolling by lia. rewrite window_prefix.
  replace (j + 1) with (S j) by lia. reflexivity.
Qed.

Lemma shift_rolling_prefix (n : nat) (agg : list Q -> float64)
  (xs ys : Series) (i : nat) :
  i < length xs -> i < length ys -> firstn i xs = firstn i ys ->
  nth i (shift (rolling n agg xs)) NaN = nth i (shift (rolling n agg ys)) NaN.
Proof.
  intros Hx Hy E. destruct i as [|j].
  - rewrite !nth_shift_0. reflexivity.
  - rewrite !nth_shift_rolling by assumption. rewrite E. reflexivity.
Qed.

Lemma fold_left_qmax_In (r : list Q) (q : Q) :
  In (fold_left qmax r q) (q :: r).
Proof.
  revert q. induction r as [|a r IH]; intros q; [left; reflexivity|].
  simpl fold_left. destruct (IH (qmax q a)) as [H|H].
  - unfold qmax in H at 1. destruct (Qle_bool q a).
    + right. left. exact H.
    + left. exact H.
  - right. right. exact H.
Qed.

Lemma fold_left_qmin_In (r : list Q) (q : Q) :
  In (fold_left qmin r q) (q :: r).
Proof.
  revert q. induction r as [|a r IH]; intros q; [left; reflexivity|].
  simpl fold_left. destruct (IH (qmin q a)) as [H|H].
  - unfold qmin in H at 1. destruct (Qle_bool q a).
    + left. exact H.
    + right. left. exact H.
  - right. right. exact H.
Qed.

Lemma agg_max_picks : picks agg_max.
Proof.
  intros [|q r]; [left; reflexivity|].
  right. eexists. split; [reflexivity|apply fold_left_qmax_In].
Qed.

Lemma agg_min_picks : picks agg_min.
Proof.
  intros [|q r]; [left; reflexivity|].
  right. eexists. split; [reflexivity|apply fold_left_qmin_In].
Qed.

(** Every value of the window that ends at [j] is a value of the series
    at one of the [n] positions up to [j]. *)
Lemma window_In (n j : nat) (xs w : Series) (x : float64) :
  window n j xs = Some w -> In x w ->
  exists k, k <= j /\ j + 1 <= k + n /\ nth k xs NaN = x.
Proof.
  unfold window. destruct (j + 1 <? n) eqn:E; [discriminate|].
  apply Nat.ltb_ge in E. intros W Hx. inversion W; subst w; clear W.
  destruct (In_nth _ _ NaN Hx) as [t [Ht Et]].
  rewrite length_firstn in Ht.
  rewrite nth_firstn in Et.
  destruct (t <? n) eqn:Tn; [|apply Nat.ltb_ge in Tn; lia].
  apply Nat.ltb_lt in Tn. rewrite nth_skipn in Et.
  exists (j + 1 - n + t). split; [lia|]. split; [lia|exact Et].
Qed.

(** The channel value at bar [i] is undefined or is the value of one of
    the [n] bars before [i]. *)
Lemma channel_value (agg : list Q -> float64) (n : nat) (xs : Series)
  (i : nat) :
  picks agg -> i < length xs ->
  nth i (shift (rolling n agg xs)) NaN = NaN
  \/ exists k q, k < i /\ i <= k + n /\ nth k xs NaN = Fin q
                 /\ nth i (shift (rolling n agg xs)) NaN = Fin q.
Proof.
  intros Hagg Hi. destruct i as [|j]; [left; apply nth_shift_0|].
  rewrite nth_shift_S by (rewrite length_rolling; exact Hi).
  rewrite nth_rolling by lia.
  destruct (window n j xs) as [w|] eqn:W; [|left; reflexivity].
  destruct (finites w) as [qs|] eqn:F; [|left; reflexivity].
  destruct (Hagg qs) as [->|[m [-> Hm]]]; [left; reflexivity|].
  right. apply finites_map_Fin in F.
  assert (Hw : In (Fin m) w) by (rewrite F; apply in_map; exact Hm).
  destruct (window_In n j xs w (Fin m) W Hw) as [k [K1 [K2 K3]]].
  exists k, m. repeat split; try lia; assumption.
Qed.

End Channel.

Section ChannelResults.

Local Open Scope nat_scope.

(** C5. For every window [n] and bar index [i], the channel values
    consulted at bar [i] (rolling maximum of the highs and rolling minimum
    of the lows, shifted by one bar) are the same for any two series that
    agree on the bars before [i]: they do not depend on bar [i] or on any
    later bar.  When defined, each is the value of one of the [n] bars
    before [i].  So when the high of bar [i] is strictly above all earlier
    highs, the upper channel at [i] is undefined or strictly below it. *)
Theorem C5_breakout_channel_excludes_current_bar :
  forall (n i : nat) (xs ys : Series),
    i < length xs -> i < length ys -> firstn i xs = firstn i ys ->
    nth i (donchian_max n xs) NaN = nth i (donchian_max n ys) NaN
    /\ nth i (donchian_min n xs) NaN = nth i (donchian_min n ys) NaN
    /\ (forall q, nth i (donchian_max n xs) NaN = Fin q ->
         exists k, k < i /\ i <= k + n /\ nth k xs NaN = Fin q)
    /\ (forall q, nth i (donchian_min n xs) NaN = Fin q ->
         exists k, k < i /\ i <= k + n /\ nth k xs NaN = Fin q)
    /\ ((forall k, k < i -> (nth k xs NaN <? nth i xs NaN)%f64 = true) ->
        isna (nth i (donchian_max n xs) NaN) = true
        \/ (nth i (donchian_max n xs) NaN <? nth i xs NaN)%f64 = true).
Proof.
  intros n i xs ys Hx Hy E. unfold donchian_max, donchian_min.
  split; [apply shift_rolling_prefix; assumption|].
  split; [apply shift_rolling_prefix; assumption|].
  split; [|split].
  - intros q Hq.
    destruct (channel_value agg_max n xs i agg_max_picks Hx)
      as [N|[k [m [K1 [K2 [K3 K4]]]]]]; [congruence|].
    exists k. repeat split; try assumption. congruence.
  - intros q Hq.
    destruct (channel_value agg_min n xs i agg_min_picks Hx)
      as [N|[k [m [K1 [K2 [K3 K4]]]]]]; [congruence|].
    exists k. repeat split; try assumption. congruence.
  - intros Hmax.
    destruct (channel_value agg_max n xs i agg_max_picks Hx)
      as [N|[k [m [K1 [K2 [K3 K4]]]]]].
    + left. rewrite N. reflexivity.
    + right. rewrite K4, <- K3. apply Hmax. exact K1.
Qed.

(** An instance: two series of highs that differ at bar 4 only. *)
Lemma C5_breakout_channel_excludes_current_bar_witness :
  nth 4 (donchian_max 3 highs_new_high) NaN
  = nth 4 (donchian_max 3 highs_no_new_high) NaN
  /\ nth 4 (donchian_min 3 highs_new_high) NaN
     = nth 4 (donchian_min 3 highs_no_new_high) NaN.
Proof.
  pose proof (C5_breakout_channel_excludes_current_bar
                3 4 highs_new_high highs_no_new_high
                ltac:(simpl; lia) ltac:(simpl; lia) eq_refl) as H.
  split; [exact (proj1 H)|exact (proj1 (proj2 H))].
Defined.

(** The new high of 20 at bar 4 is not in its own channel value, 13. *)
Example new_high_channel :
  nth 4 (donchian_max 3 highs_new_high) NaN = lit 13.
Proof. reflexivity. Qed.

End ChannelResults.

(* ------------------------------------------------------------------ *)
(** ** The stop-distance gate *)

Lemma Qtrunc_nonpos (q : Q) : q <= 0 -> (Qtrunc q <= 0)%Z.
Proof.
  destruct q as [n d]. unfold Qle, Qtrunc. simpl. intros H.
  assert (Hn : (n <= 0)%Z) by lia.
  replace n with (- (- n))%Z by lia.
  rewrite Z.quot_opp_l by lia.
  assert (0 <= Z.quot (- n) (Z.pos d))%Z by (apply Z.quot_pos; lia).
  lia.
Qed.

Lemma Qdiv_nonneg_neg (x d : Q) : 0 <= x -> d < 0 -> x / d <= 0.
Proof.
  intros Hx Hd.
  assert (E : x / d == - (x / - d)) by (field; lra).
  assert (0 <= x / - d) by (apply Qle_shift_div_l; lra).
  lra.
Qed.

(** The conversion of an infinite or undefined value raises. *)
Lemma int_not_finite (x : float64) :
  is_finite x = false -> exists e, int x = raise e.
Proof. destruct x; try discriminate; intros _; eexists; reflexivity. Qed.

(** The binary64 number nearest to a number that is not negative is not
    negative, and likewise for a number that is not positive. *)
Lemma f64_nonneg (x : float64) :
  fleb (lit 0) x = true ->
  f64 x = PInf \/ exists a, f64 x = Fin a /\ 0 <= a.
Proof.
  destruct x as [q| | |]; try discriminate; intros H.
  - apply fleb_fin in H. apply round64_nonneg, H.
  - left. reflexivity.
Qed.

Lemma f64_nonpos (x : float64) :
  fleb x (lit 0) = true ->
  f64 x = NInf \/ exists d, f64 x = Fin d /\ d <= 0.
Proof.
  destruct x as [q| | |]; try discriminate; intros H.
  - apply fleb_fin in H. apply round64_nonpos, H.
  - left. reflexivity.
Qed.

(** A quotient that is not negative by one that is not positive: the
    conversion raises, or gives no unit at all. *)
Lemma int_fdiv64_nonpositive (x y : float64) :
  fleb (lit 0) x = true -> fleb y (lit 0) = true ->
  (exists e, int (fdiv64 x y) = raise e)
  \/ exists z, int (fdiv64 x y) = ret z /\ (z <= 0)%Z.
Proof.
  intros Hx Hy. unfold fdiv64.
  destruct (f64_nonneg x Hx) as [-> |[a [-> Ha]]];
    destruct (f64_nonpos y Hy) as [-> |[d [-> Hd]]].
  - left. eexists. reflexivity.
  - left. apply int_not_finite. unfold fdiv. simpl sgn.
    destruct (Qeq_bool d 0); [reflexivity|]. destruct (Qsgn d); reflexivity.
  - right. exists 0%Z. split; [reflexivity|lia].
  - unfold fdiv. destruct (Qeq_bool d 0) eqn:E.
    + left. apply int_not_finite. destruct (Qsgn a); reflexivity.
    + apply Qeq_bool_neq in E. assert (L : d < 0) by lra.
      rewrite f64_fin.
      destruct (round64_nonpos (a / d) (Qdiv_nonneg_neg a d Ha L))
        as [-> |[v [-> Hv]]].
      * left. eexists. reflexivity.
      * right. exists (Qtrunc v). split; [reflexivity|].
        apply Qtrunc_nonpos, Hv.
Qed.

(** A zero stop distance: the early [return] of the gate, or, with a
    trade open, the loop alone; no order either way. *)
Lemma next_with_zero_distance (warmup : Params -> nat) (p : Params) (b : Bar) :
  (stop_distance p b =? lit 0)%f64 = true ->
  placed (next_with warmup p b) = []
  /\ exists e, next_with warmup p b = ret e.
Proof.
  intros Hz. unfold next_with, entry. cbv zeta. rewrite Hz.
  destruct (data_len b <? warmup p)%nat; [split; [|eexists]; reflexivity|].
  destruct (isna (ma_last b)); [split; [|eexists]; reflexivity|].
  destruct (position b); simpl; split; try eexists; reflexivity.
Qed.

(** A stop distance that is not positive with a risk amount that is not
    negative: no order, whether the call returns or raises. *)
Lemma next_with_nonpositive_distance (warmup : Params -> nat) (p : Params)
  (b : Bar) :
  fleb (lit 0) (risk_amount p b) = true ->
  fleb (stop_distance p b) (lit 0) = true ->
  placed (next_with warmup p b) = [].
Proof.
  intros Hx Hd.
  destruct (placed (next_with warmup p b)) as [|o os] eqn:Hp; [reflexivity|].
  exfalso.
  assert (Hin : In o (placed (next_with warmup p b)))
    by (rewrite Hp; left; reflexivity).
  destruct (next_with_placed warmup p b o Hin)
    as [_ [_ [_ [u [c [I1 [_ [G _]]]]]]]].
  destruct (int_fdiv64_nonpositive _ _ Hx Hd) as [[e R]|[z [R Hz]]];
    unfold risk_quotient in I1; rewrite R in I1; [discriminate|].
  injection I1 as <-. lia.
Qed.

(** C3 (amended). If the stop distance [atr * multiplier] the code
    computes is exactly zero, no entry order is placed and nothing is
    raised, for every price, indicator and equity value.  If it is zero or
    negative and the risk amount [equity * risk] is not negative, no entry
    order is placed either: the call returns without an order, or [int]
    raises on a quotient that is infinite or undefined. *)
Theorem C3_zero_or_negative_stop_distance_places_no_order :
  forall (next : Params -> Bar -> raises Effect) (p : Params) (b : Bar),
    In next [FinalLowDrawdownStrategy.next; RiskManagedStrategy.next] ->
    ((stop_distance p b =? lit 0)%f64 = true ->
     placed (next p b) = [] /\ exists e, next p b = ret e)
    /\ (fleb (lit 0) (risk_amount p b) = true ->
        fleb (stop_distance p b) (lit 0) = true ->
        placed (next p b) = []).
Proof.
  intros next p b Hnext.
  destruct (next_is_next_with next Hnext) as [warmup ->].
  split; [apply next_with_zero_distance|].
  apply next_with_nonpositive_distance.
Qed.

(** An instance: [bar_zero_atr] under the default parameters. *)
Lemma C3_zero_or_negative_stop_distance_places_no_order_witness :
  placed (FinalLowDrawdownStrategy.next
            FinalLowDrawdownStrategy.defaults bar_zero_atr) = []
  /\ exists e,
      FinalLowDrawdownStrategy.next
        FinalLowDrawdownStrategy.defaults bar_zero_atr = ret e.
Proof.
  exact (proj1 (C3_zero_or_negative_stop_distance_places_no_order
                  FinalLowDrawdownStrategy.next
                  FinalLowDrawdownStrategy.defaults bar_zero_atr
                  (or_introl eq_refl))
               ltac:(vm_compute; reflexivity)).
Defined.

(** On a flat bar with an undefined ATR, so an undefined stop distance,
    both classes raise [ValueError] from [int]. *)
Lemma C3_undefined_atr_raises :
  isna (stop_distance FinalLowDrawdownStrategy.defaults bar_nan_atr) = true
  /\ position bar_nan_atr = false
  /\ FinalLowDrawdownStrategy.next
       FinalLowDrawdownStrategy.defaults bar_nan_atr = raise ValueError
  /\ RiskManagedStrategy.next
       RiskManagedStrategy.defaults bar_nan_atr = raise ValueError.
Proof. repeat split; vm_compute; reflexivity. Qed.

(** With an ATR of -2 at a price of [10^-305] the stop distance is -8 and
    no order is placed, but the call does not return: the capital
    quotient [9500000 / 10^-305] overflows and [int] raises
    [OverflowError]. *)
Example negative_atr_tiny_price_raises :
  stop_distance FinalLowDrawdownStrategy.defaults bar_negative_atr
  = lit (-8)
  /\ capital_quotient bar_negative_atr = PInf
  /\ FinalLowDrawdownStrategy.next
       FinalLowDrawdownStrategy.defaults bar_negative_atr
     = raise OverflowError.
Proof. repeat split; vm_compute; reflexivity. Qed.

(* ------------------------------------------------------------------ *)
(** ** The warm-up guard *)

Section Guard.

Local Open Scope nat_scope.

Lemma next_with_skips (warmup : Params -> nat) (p : Params) (b : Bar) :
  data_len b < warmup p \/ isna (ma_last b) = true ->
  next_with warmup p b = ret (skip b).
Proof.
  intros [H|H]; unfold next_with.
  - apply Nat.ltb_lt in H. rewrite H. reflexivity.
  - rewrite H. destruct (data_len b <? warmup p); reflexivity.
Qed.

(** What [init] stores for a frame that has the three price columns. *)
Lemma init_ohlc (p : Params) (high low close : Series) :
  exists a,
    init p (ohlc high low close)
    = ret {| close_col := close;
             atr := ATR (ohlc high low close) (n_atr p);
             ma := SMA close (ma_period p);
             adx := a;
             donchian_high := donchian_max (donchian_period p) high;
             donchian_low := donchian_min (donchian_period p) low |}.
Proof. eexists. reflexivity. Qed.

Lemma agg_max_finite (q : Q) (qs : list Q) :
  is_finite (agg_max (q :: qs)) = true.
Proof. reflexivity. Qed.

Lemma agg_min_finite (q : Q) (qs : list Q) :
  is_finite (agg_min (q :: qs)) = true.
Proof. reflexivity. Qed.

(** Past its window the shifted rolling extreme of a finite series is a
    finite number. *)
Lemma channel_defined (agg : list Q -> float64) (n i : nat) (xs : Series) :
  (forall q qs, is_finite (agg (q :: qs)) = true) ->
  1 <= n -> n <= i -> all_finite xs = true -> i < length xs ->
  is_finite (nth i (shift (rolling n agg xs)) NaN) = true.
Proof.
  intros Hagg Hn Hi Hf Hl. destruct i as [|j]; [lia|].
  rewrite nth_shift_S by (rewrite length_rolling; exact Hl).
  apply rolling_defined; try assumption; lia.
Qed.

(** C7 (amended). [FinalLowDrawdownStrategy.next] skips all entry and stop
    logic while fewer than [ma_period + 5] bars have been seen, and
    [RiskManagedStrategy.next] while fewer than
    [max(ma_period, donchian_period) + 5] have; both also skip every bar
    whose trend-filter value is undefined.  On finite data the trend
    filter has left its warm-up once either bound is reached, and the
    breakout channel once the second one is.  The ATR and ADX windows are
    not part of either bound. *)
Theorem C7_guard_skips_until_trend_filter_warm :
  forall (p : Params) (b : Bar),
    (data_len b < ma_period p + 5 \/ isna (ma_last b) = true ->
     FinalLowDrawdownStrategy.next p b = ret (skip b))
    /\ (data_len b < Nat.max (ma_period p) (donchian_period p) + 5
        \/ isna (ma_last b) = true ->
        RiskManagedStrategy.next p b = ret (skip b))
    /\ (forall (high low close : Series) (ind : Indicators) (i : nat)
               (eq : float64) (ts : list Trade),
           init p (ohlc high low close) = ret ind ->
           all_finite high = true -> all_finite low = true ->
           all_finite close = true ->
           length high = length close -> length low = length close ->
           i < length close ->
           1 <= ma_period p -> 1 <= donchian_period p ->
           (ma_period p + 5 <= data_len (bar_at ind i eq ts) ->
            is_finite (ma_last (bar_at ind i eq ts)) = true)
           /\ (Nat.max (ma_period p) (donchian_period p) + 5
               <= data_len (bar_at ind i eq ts) ->
               is_finite (ma_last (bar_at ind i eq ts)) = true
               /\ is_finite (donchian_high_last (bar_at ind i eq ts)) = true
               /\ is_finite (donchian_low_last (bar_at ind i eq ts)) = true)).
Proof.
  intros p b. split; [|split].
  - apply (next_with_skips FinalLowDrawdownStrategy.warmup).
  - apply (next_with_skips RiskManagedStrategy.warmup).
  - intros high low close ind i eq ts Hinit Hh Hl Hc Lh Ll Hi Hma Hdp.
    destruct (init_ohlc p high low close) as [a Ha].
    rewrite Ha in Hinit. inversion Hinit; subst ind; clear Hinit.
    cbn [bar_at data_len ma_last donchian_high_last donchian_low_last
         ma donchian_high donchian_low].
    assert (Hsma : ma_period p - 1 <= i ->
                   is_finite (nth i (SMA close (ma_period p)) NaN) = true).
    { intros H. unfold SMA.
      apply (rolling_mean_defined (ma_period p) i close); assumption. }
    split.
    + intros H. apply Hsma. lia.
    + intros H. split; [apply Hsma; lia|].
      unfold donchian_max, donchian_min.
      split; apply channel_defined;
        try assumption; try lia;
        auto using agg_max_finite, agg_min_finite.
Qed.

(** An instance: bar 100 with a trade open is skipped by both classes. *)
Lemma C7_guard_skips_until_trend_filter_warm_witness :
  FinalLowDrawdownStrategy.next FinalLowDrawdownStrategy.defaults bar_early
  = ret (skip bar_early)
  /\ RiskManagedStrategy.next RiskManagedStrategy.defaults bar_early
     = ret (skip bar_early).
Proof.
  split.
  - apply (proj1 (C7_guard_skips_until_trend_filter_warm
                    FinalLowDrawdownStrategy.defaults bar_early)).
    left. simpl. lia.
  - apply (proj1 (proj2 (C7_guard_skips_until_trend_filter_warm
                           RiskManagedStrategy.defaults bar_early))).
    left. simpl. lia.
Defined.

(** With an ATR window of 20 and windows of 2 for the trend filter and the
    channel, bar 8 of ten finite bars (9 bars seen, fewer than
    [max(20, 2, 2) + 5]) passes both guards: the trend filter is defined,
    the ATR is not, and the entry logic runs and raises. *)
Lemma C7_guard_passes_while_atr_warms_up :
  exists ind,
    init params_long_atr frame10 = ret ind
    /\ data_len (bar_at ind 8 (lit 10000000) [])
       < Nat.max (n_atr params_long_atr)
           (Nat.max (ma_period params_long_atr)
                    (donchian_period params_long_atr)) + 5
    /\ is_finite (ma_last (bar_at ind 8 (lit 10000000) [])) = true
    /\ isna (atr_last (bar_at ind 8 (lit 10000000) [])) = true
    /\ FinalLowDrawdownStrategy.next params_long_atr
         (bar_at ind 8 (lit 10000000) []) = raise ValueError
    /\ RiskManagedStrategy.next params_long_atr
         (bar_at ind 8 (lit 10000000) []) = raise ValueError.
Proof.
  destruct (init_ohlc params_long_atr (rising 11) (rising 9) (rising 10))
    as [a Ha].
  eexists. split; [exact Ha|].
  split; [simpl; lia|]. repeat split.
Qed.

End Guard.

(* ================================================================== *)
(** * Further properties of the strategy code *)

(* ------------------------------------------------------------------ *)
(** ** What a placed order implies *)

(** The signal side of an order: the bar is flat and past the trend
    filter's check, the ADX is above its threshold, ATR, close and stop
    distance are finite, and the order is a buy above trend filter and
    upper channel or a sell not above the trend filter and below the
    lower channel. *)
Lemma order_inversion :
  forall (next : Params -> Bar -> raises Effect) (p : Params) (b : Bar)
         (o : Order),
    In next [FinalLowDrawdownStrategy.next; RiskManagedStrategy.next] ->
    In o (placed (next p b)) ->
    placed (next p b) = [o]
    /\ position b = false
    /\ isna (ma_last b) = false
    /\ (adx_last b >? adx_threshold p)%f64 = true
    /\ exists a price d : Q,
        atr_last b = Fin a /\ Close_last b = Fin price
        /\ stop_distance p b = Fin d
        /\ (1 <= order_size o)%Z
        /\ ((o = Buy (Fin price - Fin d) (order_size o)
             /\ (Fin price >? ma_last b)%f64 = true
             /\ (Fin price >? donchian_high_last b)%f64 = true)
            \/ (o = Sell (Fin price + Fin d) (order_size o)
                /\ (Fin price >? ma_last b)%f64 = false
                /\ (Fin price <? donchian_low_last b)%f64 = true)).
Proof.
  intros next p b o Hnext Hin.
  destruct (next_is_next_with next Hnext) as [warmup ->].
  destruct (next_with_placed warmup p b o Hin)
    as [Hpos [Hma [_ [u [c [I1 [I2 [G Hpl]]]]]]]].
  rewrite Hpl in Hin |- *.
  destruct (signal_cases p b _ _ o Hin) as [Hs [Hadx Hcases]].
  assert (Hsz : order_size o = Z.min u c).
  { destruct Hcases as [[-> _]|[-> _]]; reflexivity. }
  rewrite risk_quotient_eq in I1. rewrite capital_quotient_eq in I2.
  destruct (int_f64_fdiv_pos _ _ _ I1 ltac:(lia))
    as [x [d [y1 [Hx [Hd _]]]]].
  destruct (int_f64_fdiv_pos _ _ _ I2 ltac:(lia))
    as [ce [P [y2 [_ [HP _]]]]].
  destruct (fmul64_fin_inv _ _ _ Hd) as [a [m [_ [_ [Ha _]]]]].
  destruct (f64_fin_inv _ _ HP) as [price [Hc _]].
  split; [exact Hs|]. split; [exact Hpos|]. split; [exact Hma|].
  split; [exact Hadx|].
  exists a, price, d.
  rewrite Hd, Hc in Hcases. rewrite Hsz.
  repeat split; try assumption.
Qed.












(* ------------------------------------------------------------------ *)
(** ** Lengths and positions of the indicator arrays *)

Section Arrays.

Local Open Scope nat_scope.

Lemma nth_zip_with {A B C} (f : A -> B -> C) (xs : list A) (ys : list B)
  (i : nat) (da : A) (db : B) (dc : C) :
  i < length xs -> i < length ys ->
  nth i (zip_with f xs ys) dc = f (nth i xs da) (nth i ys db).
Proof.
  revert ys i. induction xs as [|x xs IH]; intros ys i Hx Hy.
  - simpl in Hx. lia.
  - destruct ys as [|y ys]; [simpl in Hy; lia|].
    destruct i as [|i]; [reflexivity|].
    unfold zip_with in *. simpl. apply IH; simpl in *; lia.
Qed.

Lemma nth_map_lt {A B} (f : A -> B) (xs : list A) (i : nat) (da : A) (db : B) :
  i < length xs -> nth i (map f xs) db = f (nth i xs da).
Proof.
  intros H. rewrite (nth_indep _ db (f da)) by (rewrite length_map; exact H).
  apply map_nth.
Qed.

Lemma length_where0 (cond : list bool) (xs : Series) :
  length (where0 cond xs) = Nat.min (length cond) (length xs).
Proof. unfold where0. apply length_zip_with. Qed.

(** A window with an undefined value has no aggregate. *)
Lemma finites_nth_nan (w : Series) (t : nat) :
  t < length w -> nth t w NaN = NaN -> finites w = None.
Proof.
  revert t. induction w as [|x w IH]; intros t Ht Hn; [simpl in Ht; lia|].
  destruct t as [|t].
  - simpl in Hn. subst x. reflexivity.
  - simpl in Ht, Hn. destruct x; try reflexivity.
    simpl. rewrite (IH t) by (try lia; exact Hn). reflexivity.
Qed.

(** An undefined value makes every rolling aggregate undefined at its own
    position and at the [n - 1] positions after it. *)
Lemma rolling_nan_spreads (n : nat) (agg : list Q -> float64) (xs : Series)
  (k i : nat) :
  k <= i -> i < k + n -> nth k xs NaN = NaN ->
  nth i (rolling n agg xs) NaN = NaN.
Proof.
  intros Hk Hi Hn.
  destruct (Nat.lt_ge_cases i (length xs)) as [L|L];
    [|apply nth_overflow; rewrite length_rolling; exact L].
  rewrite nth_rolling by exact L. unfold window.
  destruct (i + 1 <? n) eqn:E; [reflexivity|].
  apply Nat.ltb_ge in E.
  assert (F : finites (firstn n (skipn (i + 1 - n) xs)) = None).
  { apply (finites_nth_nan _ (k - (i + 1 - n))).
    - rewrite length_firstn, length_skipn. lia.
    - rewrite nth_firstn.
      destruct (k - (i + 1 - n) <? n) eqn:T; [|apply Nat.ltb_ge in T; lia].
      rewrite nth_skipn.
      replace (i + 1 - n + (k - (i + 1 - n))) with k by lia. exact Hn. }
  rewrite F. reflexivity.
Qed.

(** During the first [n - 1] positions every rolling aggregate is
    undefined, whatever the data. *)
Lemma rolling_warm_up (n : nat) (agg : list Q -> float64) (xs : Series)
  (i : nat) :
  i + 1 < n -> nth i (rolling n agg xs) NaN = NaN.
Proof.
  intros H.
  destruct (Nat.lt_ge_cases i (length xs)) as [L|L];
    [|apply nth_overflow; rewrite length_rolling; exact L].
  rewrite nth_rolling by exact L. rewrite window_none by exact H.
  reflexivity.
Qed.

Lemma ADX_ohlc (high low close : Series) (n : nat) :
  ADX (ohlc high low close) n
  = ret (ADX_series (ATR (ohlc high low close) 1) high low n).
Proof. reflexivity. Qed.

Lemma length_ATR_ohlc (high low close : Series) (n : nat) :
  length high = length close -> length low = length close ->
  length (ATR (ohlc high low close) n) = length close.
Proof.
  intros Lh Ll. rewrite ATR_ohlc, length_rolling.
  unfold true_range, row_max3, Pandas.abs.
  rewrite !length_zip_with, !length_map, !length_zip_with, length_shift.
  lia.
Qed.

Lemma length_ADX_series (tr high low : Series) (n : nat) :
  length tr = length high -> length low = length high ->
  length (ADX_series tr high low n) = length high.
Proof.
  intros Lt Ll. unfold ADX_series, Pandas.abs.
  repeat (rewrite ?length_rolling, ?length_map, ?length_zip_with,
            ?length_where0, ?length_shift).
  lia.
Qed.

End Arrays.

Section WarmUpOfEveryIndicator.

Local Open Scope nat_scope.

Lemma nth_zip_with_nan_r (f : float64 -> float64 -> float64)
  (xs ys : Series) (k : nat) :
  (forall x, f x NaN = NaN) -> nth k ys NaN = NaN ->
  nth k (zip_with f xs ys) NaN = NaN.
Proof.
  intros Hf Hn.
  destruct (Nat.lt_ge_cases k (length (zip_with f xs ys))) as [L|L];
    [|apply nth_overflow; exact L].
  rewrite length_zip_with in L.
  rewrite (nth_zip_with f xs ys k NaN NaN NaN) by lia.
  rewrite Hn. apply Hf.
Qed.

Lemma nth_zip_with_nan_l (f : float64 -> float64 -> float64)
  (xs ys : Series) (k : nat) :
  (forall y, f NaN y = NaN) -> nth k xs NaN = NaN ->
  nth k (zip_with f xs ys) NaN = NaN.
Proof.
  intros Hf Hn.
  destruct (Nat.lt_ge_cases k (length (zip_with f xs ys))) as [L|L];
    [|apply nth_overflow; exact L].
  rewrite length_zip_with in L.
  rewrite (nth_zip_with f xs ys k NaN NaN NaN) by lia.
  rewrite Hn. apply Hf.
Qed.

Lemma nth_map_nan (f : float64 -> float64) (xs : Series) (k : nat) :
  f NaN = NaN -> nth k xs NaN = NaN -> nth k (map f xs) NaN = NaN.
Proof.
  intros Hf Hn. rewrite <- Hf at 1. rewrite map_nth, Hn. exact Hf.
Qed.

Lemma fdiv_nan_r (x : float64) : (x / NaN)%f64 = NaN.
Proof. destruct x; reflexivity. Qed.

(** The directional index is undefined wherever the rolling sum of the
    true range is. *)
Lemma ADX_series_warm_up (tr high low : Series) (n i : nat) :
  i + 2 < 2 * n -> nth i (ADX_series tr high low n) NaN = NaN.
Proof.
  intros Hi. unfold ADX_series, Pandas.abs.
  assert (Hdx : forall k, k + 1 < n ->
    forall num den_l den_r : Series,
      nth k (map (fmul (lit 100))
               (zip_with fdiv
                  (map fabs
                     (zip_with fsub
                        (map (fmul (lit 100))
                           (zip_with fdiv num (rolling n agg_sum tr)))
                        den_l))
                  den_r)) NaN = NaN).
  { intros k Hk num den_l den_r.
    apply nth_map_nan; [reflexivity|].
    apply nth_zip_with_nan_l; [reflexivity|].
    apply nth_map_nan; [reflexivity|].
    apply nth_zip_with_nan_l; [reflexivity|].
    apply nth_map_nan; [reflexivity|].
    apply nth_zip_with_nan_r; [exact fdiv_nan_r|].
    apply rolling_warm_up. exact Hk. }
  destruct (Nat.lt_ge_cases (i + 1) n) as [L|L].
  - apply rolling_warm_up. exact L.
  - apply (rolling_nan_spreads n agg_mean _ (i + 1 - n) i); try lia.
    apply Hdx. lia.
Qed.

(** What [init] and [ADX] return when they return. *)
Lemma ADX_inv (df : DataFrame) (n : nat) (a : Series) :
  ADX df n = ret a ->
  exists high low, a = ADX_series (ATR df 1) high low n.
Proof.
  unfold ADX.
  destruct (getitem df "High") as [e|h]; [discriminate|].
  destruct (getitem df "Low") as [e|l]; [discriminate|].
  destruct (getitem df "Close") as [e|c]; [discriminate|].
  simpl. intros H. inversion H. exists h, l. reflexivity.
Qed.

Lemma ATR_present (df : DataFrame) (n : nat) (high low close : Series) :
  getitem df "High" = ret high -> getitem df "Low" = ret low ->
  getitem df "Close" = ret close ->
  ATR df n = rolling n agg_mean (true_range high low close).
Proof.
  intros Hh Hl Hc. unfold ATR, ATR_try. rewrite Hh, Hl, Hc. reflexivity.
Qed.

Lemma init_inv (p : Params) (df : DataFrame) (ind : Indicators) :
  init p df = ret ind ->
  exists high low close adx_high adx_low,
    getitem df "High" = ret high /\ getitem df "Low" = ret low
    /\ getitem df "Close" = ret close
    /\ ind = {| close_col := close;
                atr := rolling (n_atr p) agg_mean
                         (true_range high low close);
                ma := SMA close (ma_period p);
                adx := ADX_series (ATR df 1) adx_high adx_low 14;
                donchian_high := donchian_max (donchian_period p) high;
                donchian_low := donchian_min (donchian_period p) low |}.
Proof.
  unfold init, data_column. cbn [I ret bind].
  destruct (getitem df "Close") as [e|c] eqn:Hc; [discriminate|].
  cbn [I ret bind].
  destruct (ADX df 14) as [e|a] eqn:HA; [discriminate|].
  destruct (ADX_inv df 14 a HA) as [ah [al ->]].
  cbn [I ret bind].
  destruct (getitem df "High") as [e|h] eqn:Hh; [discriminate|].
  cbn [I ret bind].
  destruct (getitem df "Low") as [e|l] eqn:Hl; [discriminate|].
  cbn [I ret bind].
  rewrite (ATR_present df (n_atr p) h l c Hh Hl Hc).
  intros H. inversion H.
  exists h, l, c, ah, al. repeat split; reflexivity.
Qed.


Lemma channel_warm_up (agg : list Q -> float64) (n i : nat) (xs : Series) :
  i < n -> nth i (shift (rolling n agg xs)) NaN = NaN.
Proof.
  intros H. destruct i as [|j]; [apply nth_shift_0|].
  destruct (Nat.lt_ge_cases (S j) (length (rolling n agg xs))) as [L|L].
  - rewrite nth_shift_S by exact L. apply rolling_warm_up. lia.
  - apply nth_overflow. rewrite length_shift. exact L.
Qed.

Lemma fgtb_nan_r (x : float64) : (x >? NaN)%f64 = false.
Proof. destruct x; reflexivity. Qed.

Lemma fltb_nan_r (x : float64) : (x <? NaN)%f64 = false.
Proof. destruct x; reflexivity. Qed.

(** X9. The ADX of window [n] is undefined on the first [2n - 2] positions,
    whatever the data: on 26 positions for the window of 14 that [init]
    uses. *)
Theorem ADX_undefined_on_first_2n_minus_2 :
  forall (df : DataFrame) (n : nat) (a : Series) (i : nat),
    ADX df n = ret a -> i + 2 < 2 * n -> nth i a NaN = NaN.
Proof.
  intros df n a i HA Hi.
  destruct (ADX_inv df n a HA) as [h [l ->]].
  apply ADX_series_warm_up. exact Hi.
Qed.

(** An instance: the ADX of window 2 of [frame10] at position 1. *)
Lemma ADX_undefined_on_first_2n_minus_2_witness :
  nth 1 (ADX_series (ATR frame10 1) (rising 11) (rising 9) 2) NaN = NaN.
Proof.
  exact (ADX_undefined_on_first_2n_minus_2 frame10 2 _ 1
           eq_refl ltac:(lia)).
Defined.



(** X3. [next] never places an order on a bar where one of the indicators is
    still in its warm-up: an order at bar index [i] implies that the ATR
    and trend-filter windows fit in the [i + 1] bars seen, that the
    channel window fits in the [i] bars before, and that [i >= 26], the
    warm-up of the ADX of window 14.  (The guards test the trend filter
    only; during the ATR's warm-up the call raises instead.) *)
Theorem no_order_during_any_warm_up :
  forall (next : Params -> Bar -> raises Effect) (p : Params)
         (df : DataFrame) (ind : Indicators) (i : nat) (eq : float64)
         (ts : list Trade) (o : Order),
    In next [FinalLowDrawdownStrategy.next; RiskManagedStrategy.next] ->
    init p df = ret ind ->
    In o (placed (next p (bar_at ind i eq ts))) ->
    n_atr p <= i + 1 /\ ma_period p <= i + 1
    /\ donchian_period p <= i /\ 26 <= i.
Proof.
  intros next p df ind i eq ts o Hnext Hinit Hin.
  destruct (init_inv p df ind Hinit)
    as [h [l [c [ah [al [_ [_ [_ ->]]]]]]]].
  destruct (order_inversion next p _ o Hnext Hin)
    as [_ [_ [Hma [Hadx [a [price [d [Ha [Hc [_ [_ Hcases]]]]]]]]]]].
  cbn [bar_at ma_last adx_last atr_last Close_last donchian_high_last
       donchian_low_last ma adx atr close_col donchian_high donchian_low]
    in *.
  repeat split.
  - destruct (Nat.lt_ge_cases (i + 1) (n_atr p)) as [L|L]; [|exact L].
    rewrite rolling_warm_up in Ha by exact L. discriminate.
  - destruct (Nat.lt_ge_cases (i + 1) (ma_period p)) as [L|L]; [|exact L].
    unfold SMA in Hma. rewrite rolling_warm_up in Hma by exact L.
    discriminate.
  - destruct (Nat.lt_ge_cases i (donchian_period p)) as [L|L]; [|exact L].
    unfold donchian_max, donchian_min in Hcases.
    rewrite !channel_warm_up in Hcases by exact L.
    rewrite fgtb_nan_r, fltb_nan_r in Hcases.
    destruct Hcases as [[_ [_ F]]|[_ [_ F]]]; discriminate.
  - destruct (Nat.lt_ge_cases i 26) as [L|L]; [|exact L].
    rewrite ADX_series_warm_up in Hadx by lia. discriminate.
Qed.

End WarmUpOfEveryIndicator.

Section WarmUpInstances.

Local Open Scope nat_scope.

(** An instance: on forty rising bars an order is placed at bar 30. *)
Lemma no_order_during_any_warm_up_witness :
  n_atr params_short <= 30 + 1 /\ ma_period params_short <= 30 + 1
  /\ donchian_period params_short <= 30 /\ 26 <= 30.
Proof.
  refine (no_order_during_any_warm_up
            FinalLowDrawdownStrategy.next params_short frame40 _ 30
            (lit 10000000) [] _ (or_introl eq_refl) eq_refl _).
  vm_compute. left. reflexivity.
Defined.

(** On those forty bars no order is placed at bar 25, where the ADX is
    still undefined, and a long entry of 25000 units is placed at bar 26. *)
Example rising_first_entry :
  exists ind,
    init params_short frame40 = ret ind
    /\ placed (FinalLowDrawdownStrategy.next params_short
                 (bar_at ind 25 (lit 10000000) [])) = []
    /\ map order_size
         (placed (FinalLowDrawdownStrategy.next params_short
                    (bar_at ind 26 (lit 10000000) []))) = [25000%Z].
Proof.
  eexists. split; [reflexivity|]. split; vm_compute; reflexivity.
Qed.

End WarmUpInstances.

(* ------------------------------------------------------------------ *)
(** ** Missing columns *)

Section MissingColumns.

Local Open Scope nat_scope.

Lemma getitem_cases (df : DataFrame) (name : string) :
  getitem df name = raise KeyError \/ exists s, getitem df name = ret s.
Proof.
  unfold getitem. destruct (find _ (columns df)); [right; eexists|left];
    reflexivity.
Qed.

(** X11. On a frame that lacks one of the columns [High], [Low], [Close]:
    [ATR] does not raise and returns one zero per row, while [ADX] raises
    [KeyError]; and when it is [High] or [Low] that is missing, [init],
    which calls both through [self.I], raises [RuntimeError], so the zero
    series of [ATR] never reaches [next]. *)
Theorem missing_column_ATR_zeros_init_RuntimeError :
  forall (p : Params) (df : DataFrame) (n : nat),
    getitem df "High" = raise KeyError
    \/ getitem df "Low" = raise KeyError
    \/ getitem df "Close" = raise KeyError ->
    ATR df n = repeat (lit 0) (nrows df)
    /\ length (ATR df n) = nrows df
    /\ ADX df n = raise KeyError
    /\ ((exists close, getitem df "Close" = ret close) ->
        init p df = raise RuntimeError).
Proof.
  intros p df n H.
  assert (HA : ATR df n = repeat (lit 0) (nrows df)).
  { unfold ATR, ATR_try.
    destruct (getitem_cases df "High") as [Eh|[h Eh]]; rewrite Eh in *;
      [reflexivity|].
    destruct (getitem_cases df "Low") as [El|[l El]]; rewrite El in *;
      [reflexivity|].
    destruct (getitem_cases df "Close") as [Ec|[c Ec]]; rewrite Ec in *;
      [reflexivity|].
    destruct H as [H|[H|H]]; discriminate H. }
  assert (HX : forall k, ADX df k = raise KeyError).
  { intros k. unfold ADX.
    destruct (getitem_cases df "High") as [Eh|[h Eh]]; rewrite Eh in *;
      [reflexivity|].
    destruct (getitem_cases df "Low") as [El|[l El]]; rewrite El in *;
      [reflexivity|].
    destruct (getitem_cases df "Close") as [Ec|[c Ec]]; rewrite Ec in *;
      [reflexivity|].
    destruct H as [H|[H|H]]; discriminate H. }
  split; [exact HA|]. split; [rewrite HA; apply repeat_length|].
  split; [apply HX|].
  intros [c Hc]. unfold init, data_column. rewrite HX, Hc. reflexivity.
Qed.

(** An instance: a frame of three rows without [High]. *)
Lemma missing_column_ATR_zeros_init_RuntimeError_witness :
  ATR frame_no_high 14 = repeat (lit 0) (nrows frame_no_high)
  /\ ADX frame_no_high 14 = raise KeyError
  /\ init FinalLowDrawdownStrategy.defaults frame_no_high
     = raise RuntimeError.
Proof.
  pose proof (missing_column_ATR_zeros_init_RuntimeError
                FinalLowDrawdownStrategy.defaults frame_no_high 14
                (or_introl eq_refl)) as [H1 [_ [H3 H4]]].
  split; [exact H1|]. split; [exact H3|].
  apply H4. eexists. reflexivity.
Defined.

(** X12. With the three columns present and of one length, every array that
    [init] stores has one value per row. *)
Theorem init_arrays_have_one_value_per_row :
  forall (p : Params) (high low close : Series) (ind : Indicators),
    length high = length close -> length low = length close ->
    init p (ohlc high low close) = ret ind ->
    close_col ind = close
    /\ length (atr ind) = length close
    /\ length (ma ind) = length close
    /\ length (adx ind) = length close
    /\ length (donchian_high ind) = length close
    /\ length (donchian_low ind) = length close.
Proof.
  intros p high low close ind Lh Ll Hinit.
  assert (E : init p (ohlc high low close)
              = ret {| close_col := close;
                       atr := ATR (ohlc high low close) (n_atr p);
                       ma := SMA close (ma_period p);
                       adx := ADX_series (ATR (ohlc high low close) 1)
                                high low 14;
                       donchian_high := donchian_max (donchian_period p) high;
                       donchian_low := donchian_min (donchian_period p) low |})
    by reflexivity.
  rewrite E in Hinit. inversion Hinit; subst ind; clear Hinit E.
  cbn [close_col atr ma adx donchian_high donchian_low].
  split; [reflexivity|].
  split; [apply length_ATR_ohlc; assumption|].
  split; [unfold SMA; apply length_rolling|].
  split.
  { rewrite length_ADX_series; [exact Lh| |congruence].
    rewrite length_ATR_ohlc by assumption. congruence. }
  unfold donchian_max, donchian_min.
  rewrite !length_shift, !length_rolling. split; assumption.
Qed.

(** An instance: the ten bars of [frame10]. *)
Lemma init_arrays_have_one_value_per_row_witness :
  exists ind,
    init params_long_atr frame10 = ret ind
    /\ length (atr ind) = 10 /\ length (adx ind) = 10
    /\ length (donchian_high ind) = 10.
Proof.
  eexists. split; [reflexivity|].
  pose proof (init_arrays_have_one_value_per_row
                params_long_atr (rising 11) (rising 9) (rising 10) _
                eq_refl eq_refl eq_refl) as H.
  split; [exact (proj1 (proj2 H))|].
  split; [exact (proj1 (proj2 (proj2 (proj2 H))))
         |exact (proj1 (proj2 (proj2 (proj2 (proj2 H)))))].
Defined.

End MissingColumns.

(* ------------------------------------------------------------------ *)
(** ** The ATR is never negative *)

Lemma fgtb_fin (a b : Q) : (Fin a >? Fin b)%f64 = true <-> b < a.
Proof.
  unfold fgtb. simpl. rewrite Qgt_alt.
  destruct (a ?= b); split; intros H; try reflexivity; discriminate.
Qed.

Lemma nanmax_nonneg (a b : float64) :
  is_finite a = true -> nonneg b -> nonneg (nanmax a b).
Proof.
  destruct a as [x| | |]; try discriminate. intros _ [y [-> Hy]].
  unfold nanmax. simpl.
  destruct (Fin x >? Fin y)%f64 eqn:E.
  - apply fgtb_fin in E. exists x. split; [reflexivity|lra].
  - exists y. split; [reflexivity|exact Hy].
Qed.

Lemma nonneg_finite (x : float64) : nonneg x -> is_finite x = true.
Proof. intros [q [-> _]]. reflexivity. Qed.

Lemma fabs_fsub_nonneg (a b : float64) :
  is_finite a = true -> is_finite b = true -> nonneg (fabs (a - b)%f64).
Proof.
  destruct a as [x| | |], b as [y| | |]; try discriminate. intros _ _.
  eexists. split; [reflexivity|apply Qabs_nonneg].
Qed.

Lemma qsum_nonneg (qs : list Q) : Forall (fun q => 0 <= q) qs -> 0 <= qsum qs.
Proof.
  induction 1 as [|q qs Hq _ IH]; simpl; [lra|]. lra.
Qed.

Lemma agg_mean_nonneg (qs : list Q) :
  Forall (fun q => 0 <= q) qs -> nan_or_nonneg (agg_mean qs).
Proof.
  intros H. destruct qs as [|q qs]; [left; reflexivity|].
  right. eexists. split; [reflexivity|].
  apply Qle_shift_div_l.
  - change 0 with (inject_Z 0). rewrite <- Zlt_Qlt. simpl length. lia.
  - pose proof (qsum_nonneg _ H). lra.
Qed.

Section ATRSign.

Local Open Scope nat_scope.

Lemma In_window (n i : nat) (xs w : Series) (x : float64) :
  window n i xs = Some w -> In x w -> In x xs.
Proof.
  unfold window. destruct (i + 1 <? n); [discriminate|].
  intros W Hx. inversion W; subst w; clear W.
  rewrite <- (firstn_skipn (i + 1 - n) xs). apply in_or_app. right.
  rewrite <- (firstn_skipn n (skipn (i + 1 - n) xs)). apply in_or_app.
  left. exact Hx.
Qed.

(** The rolling mean of values that are not negative is undefined or not
    negative. *)
Lemma rolling_mean_nonneg (n : nat) (xs : Series) :
  Forall nonneg xs -> Forall nan_or_nonneg (rolling n agg_mean xs).
Proof.
  intros H. unfold rolling. apply Forall_forall. intros x Hx.
  apply in_map_iff in Hx. destruct Hx as [i [<- _]].
  destruct (window n i xs) as [w|] eqn:W; [|left; reflexivity].
  destruct (finites w) as [qs|] eqn:F; [|left; reflexivity].
  apply agg_mean_nonneg. apply Forall_forall. intros q Hq.
  apply finites_map_Fin in F.
  assert (Hw : In (Fin q) w) by (rewrite F; apply in_map; exact Hq).
  pose proof (In_window n i xs w (Fin q) W Hw) as Hin.
  rewrite Forall_forall in H. destruct (H _ Hin) as [q' [E Hq']].
  inversion E. subst q'. exact Hq'.
Qed.

Lemma removelast_finite (xs : Series) :
  Forall (fun x => is_finite x = true) xs ->
  Forall (fun x => is_finite x = true) (removelast xs).
Proof.
  intros H. rewrite removelast_firstn_len.
  apply all_finite_Forall. apply all_finite_split.
  apply all_finite_Forall. exact H.
Qed.

Lemma true_range_cons (h l c : float64) (hs ls cs : Series) :
  true_range (h :: hs) (l :: ls) (c :: cs)
  = nanmax (nanmax (h - l) (fabs (h - NaN))) (fabs (l - NaN))
    :: zip_with nanmax
         (zip_with nanmax (zip_with fsub hs ls)
            (Pandas.abs (zip_with fsub hs (removelast (c :: cs)))))
         (Pandas.abs (zip_with fsub ls (removelast (c :: cs)))).
Proof. reflexivity. Qed.

Lemma fabs_nonneg (x : float64) : is_finite x = true -> nonneg (fabs x).
Proof.
  destruct x as [q| | |]; try discriminate. intros _.
  eexists. split; [reflexivity|apply Qabs_nonneg].
Qed.

Lemma abs_fsub_nonneg (xs ys : Series) :
  Forall (fun x => is_finite x = true) xs ->
  Forall (fun x => is_finite x = true) ys ->
  Forall nonneg (Pandas.abs (zip_with fsub xs ys)).
Proof.
  intros Hx Hy. unfold Pandas.abs.
  apply Forall_map_Forall with (P := fun x => is_finite x = true);
    [exact fabs_nonneg|].
  apply Forall_zip_with
    with (P := fun x => is_finite x = true)
         (Q := fun x => is_finite x = true);
    [exact fsub_finite|assumption|assumption].
Qed.

(** The true range of finite bars whose first bar has [low <= high] is
    nowhere negative. *)
Lemma true_range_nonneg (high low close : Series) :
  all_finite high = true -> all_finite low = true ->
  all_finite close = true ->
  (forall h0 l0 : Q,
      nth 0 high NaN = Fin h0 -> nth 0 low NaN = Fin l0 -> (l0 <= h0)%Q) ->
  Forall nonneg (true_range high low close).
Proof.
  intros Hh Hl Hc H0.
  apply all_finite_Forall in Hh. apply all_finite_Forall in Hl.
  apply all_finite_Forall in Hc.
  destruct high as [|h hs]; [constructor|].
  destruct low as [|l ls]; [constructor|].
  destruct close as [|c cs]; [constructor|].
  inversion Hh as [|? ? Fh Fhs]; subst.
  inversion Hl as [|? ? Fl Fls]; subst.
  pose proof (removelast_finite (c :: cs) Hc) as Fpc.
  rewrite true_range_cons. constructor.
  - destruct h as [h0| | |]; try discriminate.
    destruct l as [l0| | |]; try discriminate.
    exists (h0 + - l0)%Q. split; [reflexivity|].
    specialize (H0 h0 l0 eq_refl eq_refl). lra.
  - apply Forall_zip_with with (P := nonneg) (Q := nonneg).
    + intros x y Hx Hy. apply nanmax_nonneg; [apply nonneg_finite|]; assumption.
    + apply Forall_zip_with
        with (P := fun x => is_finite x = true) (Q := nonneg).
      * exact nanmax_nonneg.
      * apply Forall_zip_with
          with (P := fun x => is_finite x = true)
               (Q := fun x => is_finite x = true);
          [exact fsub_finite|assumption|assumption].
      * apply abs_fsub_nonneg; assumption.
    + apply abs_fsub_nonneg; assumption.
Qed.

(** X8. For finite bars whose first bar has [low <= high], every ATR value is
    undefined or not negative; so with a multiplier that is not negative
    the stop distance [atr * multiplier] is never negative, and zero is
    the only degenerate distance the gate of [next] has to catch. *)
Theorem ATR_never_negative :
  forall (high low close : Series) (n i : nat) (m : Q),
    all_finite high = true -> all_finite low = true ->
    all_finite close = true ->
    (forall h0 l0 : Q,
        nth 0 high NaN = Fin h0 -> nth 0 low NaN = Fin l0 -> (l0 <= h0)%Q) ->
    (0 <= m)%Q ->
    nan_or_nonneg (nth i (ATR (ohlc high low close) n) NaN)
    /\ nan_or_nonneg (nth i (ATR (ohlc high low close) n) NaN * Fin m)%f64.
Proof.
  intros high low close n i m Hh Hl Hc H0 Hm.
  assert (A : nan_or_nonneg (nth i (ATR (ohlc high low close) n) NaN)).
  { destruct (Nat.lt_ge_cases i (length (ATR (ohlc high low close) n)))
      as [L|L]; [|left; apply nth_overflow; exact L].
    pose proof (rolling_mean_nonneg n _
                  (true_range_nonneg high low close Hh Hl Hc H0)) as F.
    rewrite Forall_forall in F. apply F. rewrite ATR_ohlc.
    apply nth_In. rewrite ATR_ohlc in L. exact L. }
  split; [exact A|].
  destruct A as [->|[q [-> Hq]]]; [left; reflexivity|].
  right. exists (q * m)%Q. split; [reflexivity|].
  apply Qmult_le_0_compat; assumption.
Qed.

(** An instance: the ATR of window 2 of three bars at position 1. *)
Lemma ATR_never_negative_witness :
  nan_or_nonneg (nth 1 (ATR (ohlc highs3 lows3 closes3) 2) NaN)
  /\ nan_or_nonneg (nth 1 (ATR (ohlc highs3 lows3 closes3) 2) NaN * Fin 4)%f64.
Proof.
  apply (ATR_never_negative highs3 lows3 closes3 2 1 4
           eq_refl eq_refl eq_refl).
  - intros h0 l0 Eh El. inversion Eh. inversion El. discriminate.
  - discriminate.
Defined.

End ATRSign.

(* ------------------------------------------------------------------ *)
(** ** A flat market places no order *)

Lemma qsum_const (C : Q) (qs : list Q) :
  Forall (fun q => q = C) qs ->
  qsum qs == inject_Z (Z.of_nat (length qs)) * C.
Proof.
  induction 1 as [|q qs Hq _ IH].
  - change (0 == 0 * C). ring.
  - cbn [qsum fold_right length]. fold (qsum qs). rewrite IH, Hq.
    rewrite Nat2Z.inj_succ, <- Z.add_1_r, inject_Z_plus.
    change (inject_Z 1) with 1. ring.
Qed.

Lemma agg_mean_const (C : Q) (qs : list Q) :
  Forall (fun q => q = C) qs ->
  agg_mean qs = NaN \/ exists q, agg_mean qs = Fin q /\ q == C.
Proof.
  intros H. destruct qs as [|q0 qs]; [left; reflexivity|].
  right. eexists. split; [reflexivity|].
  rewrite (qsum_const C _ H).
  assert (0 < inject_Z (Z.of_nat (length (q0 :: qs)))).
  { change 0 with (inject_Z 0). rewrite <- Zlt_Qlt. simpl length. lia. }
  field. lra.
Qed.

Section FlatMarket.

Local Open Scope nat_scope.

(** The moving average of a constant series is that constant wherever it
    is defined. *)
Lemma SMA_constant (C : Q) (xs : Series) (n i : nat) :
  Forall (fun x => x = Fin C) xs ->
  nth i (SMA xs n) NaN = NaN
  \/ exists q, nth i (SMA xs n) NaN = Fin q /\ (q == C)%Q.
Proof.
  intros H. unfold SMA.
  destruct (Nat.lt_ge_cases i (length xs)) as [L|L];
    [|left; apply nth_overflow; rewrite length_rolling; exact L].
  rewrite nth_rolling by exact L.
  destruct (window n i xs) as [w|] eqn:W; [|left; reflexivity].
  destruct (finites w) as [qs|] eqn:F; [|left; reflexivity].
  apply agg_mean_const. apply Forall_forall. intros q Hq.
  apply finites_map_Fin in F.
  assert (Hw : In (Fin q) w) by (rewrite F; apply in_map; exact Hq).
  pose proof (In_window n i xs w (Fin q) W Hw) as Hin.
  rewrite Forall_forall in H. specialize (H _ Hin). inversion H. reflexivity.
Qed.

(** X5. When every close is the same price [C] and no low is above [C],
    [next] places no order on any bar, whatever the parameters, the
    equity and the open trades: the close is never above its own moving
    average and never below the lower channel. *)
Theorem flat_market_places_no_order :
  forall (next : Params -> Bar -> raises Effect) (p : Params)
         (high low close : Series) (ind : Indicators) (C : Q)
         (i : nat) (eq : float64) (ts : list Trade),
    In next [FinalLowDrawdownStrategy.next; RiskManagedStrategy.next] ->
    init p (ohlc high low close) = ret ind ->
    Forall (fun x => x = Fin C) close ->
    Forall (fun x => forall q, x = Fin q -> (q <= C)%Q) low ->
    placed (next p (bar_at ind i eq ts)) = [].
Proof.
  intros next p high low close ind C i eq ts Hnext Hinit Hc Hl.
  destruct (placed (next p (bar_at ind i eq ts))) as [|o rest] eqn:P;
    [reflexivity|exfalso].
  assert (Hin : In o (placed (next p (bar_at ind i eq ts))))
    by (rewrite P; left; reflexivity).
  destruct (init_inv p _ ind Hinit)
    as [h [l [c [ah [al [_ [El [Ec ->]]]]]]]].
  inversion El; subst l. inversion Ec; subst c. clear El Ec.
  destruct (order_inversion next p _ o Hnext Hin)
    as [_ [_ [_ [_ [a [price [d [_ [Hp [_ [_ Hcases]]]]]]]]]]].
  cbn [bar_at ma_last Close_last donchian_high_last donchian_low_last
       ma close_col donchian_high donchian_low] in *.
  assert (HpC : price = C).
  { destruct (Nat.lt_ge_cases i (length close)) as [L|L];
      [|rewrite nth_overflow in Hp by exact L; discriminate].
    rewrite Forall_forall in Hc.
    pose proof (Hc _ (nth_In close NaN L)) as E1.
    rewrite Hp in E1. inversion E1. reflexivity. }
  subst price.
  destruct Hcases as [[_ [Hup _]]|[_ [_ Hdn]]].
  - destruct (SMA_constant C close (ma_period p) i Hc) as [N|[q [N Hq]]];
      rewrite N in Hup.
    + rewrite fgtb_nan_r in Hup. discriminate.
    + apply fgtb_fin in Hup. lra.
  - unfold donchian_min in Hdn.
    destruct (Nat.lt_ge_cases i (length low)) as [L|L].
    + destruct (channel_value agg_min (donchian_period p) low i
                  agg_min_picks L) as [N|[k [q [_ [_ [K N]]]]]];
        rewrite N in Hdn.
      * rewrite fltb_nan_r in Hdn. discriminate.
      * apply fltb_fin in Hdn.
        assert (Hk : In (Fin q) low).
        { rewrite <- K. apply nth_In.
          destruct (Nat.lt_ge_cases k (length low)) as [Lk|Lk];
            [exact Lk|].
          rewrite nth_overflow in K by exact Lk. discriminate. }
        rewrite Forall_forall in Hl. pose proof (Hl _ Hk q eq_refl). lra.
    + rewrite nth_overflow in Hdn
        by (rewrite length_shift, length_rolling; exact L).
      rewrite fltb_nan_r in Hdn. discriminate.
Qed.

(** An instance: eight identical bars at 10, bar 7. *)
Lemma flat_market_places_no_order_witness :
  exists ind,
    init params_short (ohlc flat8 flat8 flat8) = ret ind
    /\ placed (FinalLowDrawdownStrategy.next params_short
                 (bar_at ind 7 (lit 10000000) [])) = [].
Proof.
  eexists. split; [reflexivity|].
  apply (flat_market_places_no_order
           FinalLowDrawdownStrategy.next params_short flat8 flat8 flat8 _ 10
           7 (lit 10000000) [] (or_introl eq_refl) eq_refl).
  - repeat constructor.
  - repeat (constructor;
            [intros q E; inversion E; subst q; discriminate|]).
    constructor.
Defined.

End FlatMarket.

(* ------------------------------------------------------------------ *)
(** ** The trailing stop follows the best candidate *)






Section BestCandidate.

Local Open Scope nat_scope.






End BestCandidate.

(* ------------------------------------------------------------------ *)
(** ** The score of an accepted record against the sentinel *)

Lemma Qlt_div_iff (a b c : Q) : 0 < c -> (a < b / c <-> a * c < b).
Proof.
  intros Hc. assert (E : b == b / c * c) by (field; lra).
  rewrite E at 2. symmetry. apply Qmult_lt_r. exact Hc.
Qed.

Lemma Qdiv_lt_iff (a b c : Q) : 0 < c -> (b / c < a <-> b < a * c).
Proof.
  intros Hc. assert (E : b == b / c * c) by (field; lra).
  rewrite E at 2. symmetry. apply Qmult_lt_r. exact Hc.
Qed.

Lemma feqb_fin (a b : Q) : (Fin a =? Fin b)%f64 = true <-> a == b.
Proof.
  unfold feqb. simpl. rewrite Qeq_alt.
  destruct (a ?= b); split; intros H; try reflexivity; discriminate.
Qed.

Lemma Qeq_div_iff (a b c : Q) : 0 < c -> (b / c == a <-> b == a * c).
Proof.
  intros Hc. split; intros H.
  - rewrite <- H. field. lra.
  - rewrite H. field. lra.
Qed.

Lemma Qabs_pos (d : Q) : ~ d == 0 -> 0 < Qabs d.
Proof.
  intros H. apply Qabs_case; intros; destruct (Qeq_dec d 0); try contradiction;
    lra.
Qed.

Lemma optim_func_accepted (series : Stats) (dd ret : Q) :
  (10 <= n_trades series)%Z ->
  max_drawdown_pct series = Fin dd -> -20 <= dd -> ~ dd == 0 ->
  return_pct series = Fin ret ->
  optim_func series = Fin (ret / Qabs dd).
Proof.
  intros Hn Hdd Hlo Hnz Hret. unfold optim_func.
  apply Z.ltb_ge in Hn. rewrite Hn, Hdd, Hret.
  apply (proj2 (fltb_fin_false dd (-20))) in Hlo. unfold lit at 1.
  rewrite Hlo. simpl.
  rewrite Qeq_bool_nonzero; [reflexivity|].
  pose proof (Qabs_pos dd Hnz). lra.
Qed.

(** X13. The sentinel -1 is not a lower bound of the scores.  An accepted
    record (at least 10 trades, drawdown between -20 and 0, not 0) scores
    above the sentinel exactly when its return is above minus the size of
    its drawdown, scores exactly the sentinel when its return equals its
    (negative) drawdown, and scores below the sentinel otherwise. *)
Theorem accepted_score_against_sentinel :
  forall (series : Stats) (dd ret : Q),
    (10 <= n_trades series)%Z ->
    max_drawdown_pct series = Fin dd -> -20 <= dd -> ~ dd == 0 ->
    return_pct series = Fin ret ->
    ((lit (-1) <? optim_func series)%f64 = true <-> - Qabs dd < ret)
    /\ ((optim_func series =? lit (-1))%f64 = true <-> ret == - Qabs dd)
    /\ ((optim_func series <? lit (-1))%f64 = true <-> ret < - Qabs dd).
Proof.
  intros series dd ret Hn Hdd Hlo Hnz Hret.
  rewrite (optim_func_accepted series dd ret Hn Hdd Hlo Hnz Hret).
  pose proof (Qabs_pos dd Hnz) as Hp. unfold lit.
  split; [|split].
  - rewrite fltb_fin, (Qlt_div_iff (-1) ret (Qabs dd) Hp).
    split; intros H; lra.
  - rewrite feqb_fin, (Qeq_div_iff (-1) ret (Qabs dd) Hp).
    split; intros H; lra.
  - rewrite fltb_fin, (Qdiv_lt_iff (-1) ret (Qabs dd) Hp).
    split; intros H; lra.
Qed.

(** An instance: a return of -15% with a drawdown of -15% scores exactly
    the sentinel. *)
Lemma accepted_score_against_sentinel_witness :
  (optim_func stats_ends_at_trough =? lit (-1))%f64 = true.
Proof.
  apply (proj1 (proj2 (accepted_score_against_sentinel
                         stats_ends_at_trough (-15) (-15)
                         ltac:(discriminate) eq_refl
                         ltac:(discriminate) ltac:(discriminate) eq_refl))).
  reflexivity.
Defined.

(* ------------------------------------------------------------------ *)
(** ** Position size against stop distance and risk amount *)

Lemma Qtrunc_opp (q : Q) : Qtrunc (- q) = (- Qtrunc q)%Z.
Proof.
  destruct q as [n d]. unfold Qtrunc. simpl. apply Z.quot_opp_l. lia.
Qed.

Lemma Qtrunc_monotone (x y : Q) : x <= y -> (Qtrunc x <= Qtrunc y)%Z.
Proof.
  intros H.
  destruct (Qlt_le_dec x 0) as [Hx|Hx]; destruct (Qlt_le_dec y 0) as [Hy|Hy].
  - assert (Hx' : 0 <= - x) by lra. assert (Hy' : 0 <= - y) by lra.
    pose proof (Qtrunc_opp x) as Ex. pose proof (Qtrunc_opp y) as Ey.
    rewrite (Qtrunc_nonneg _ Hx') in Ex. rewrite (Qtrunc_nonneg _ Hy') in Ey.
    assert (Qfloor (- y) <= Qfloor (- x))%Z by (apply Qfloor_resp_le; lra).
    lia.
  - pose proof (Qtrunc_neg _ Hx). rewrite (Qtrunc_nonneg _ Hy).
    assert (0 <= Qfloor y)%Z by (apply Qfloor_lower; exact Hy). lia.
  - lra.
  - rewrite (Qtrunc_nonneg _ Hx), (Qtrunc_nonneg _ Hy).
    apply Qfloor_resp_le. exact H.
Qed.

Lemma Qdiv_le_wider (x d d' : Q) : 0 <= x -> 0 < d -> d <= d' -> x / d' <= x / d.
Proof.
  intros Hx Hd Hd'.
  apply Qle_shift_div_l; [exact Hd|].
  assert (E : x / d' * d == x * (d / d')) by (field; lra).
  rewrite E.
  assert (d / d' <= 1) by (apply Qle_shift_div_r; lra).
  assert (0 <= d / d') by (apply Qle_shift_div_l; lra).
  assert (d / d' * x <= 1 * x) by (apply Qmult_le_compat_r; assumption).
  lra.
Qed.

(** The binary64 quotient of two numbers that are not negative, when
    [int] accepts it. *)
Lemma int_fdiv64_cases (x d : Q) (k : Z) :
  0 <= x -> 0 <= d ->
  int (fdiv64 (Fin x) (Fin d)) = ret k ->
  exists xi,
    round64 x = Fin xi /\ 0 <= xi
    /\ ((round64 d = PInf /\ k = 0%Z)
        \/ exists delta v,
            round64 d = Fin delta /\ 0 < delta
            /\ round64 (xi / delta) = Fin v /\ 0 <= v /\ k = Qtrunc v).
Proof.
  intros Hx Hd. unfold fdiv64. rewrite !f64_fin.
  destruct (round64_nonneg x Hx) as [-> |[xi [-> Hxi]]].
  - destruct (round64_nonneg d Hd) as [-> |[delta [-> _]]];
      [discriminate|].
    unfold fdiv. simpl sgn.
    destruct (Qeq_bool delta 0); [discriminate|].
    destruct (Qsgn delta); discriminate.
  - intros H. exists xi. split; [reflexivity|]. split; [exact Hxi|].
    destruct (round64_nonneg d Hd) as [E|[delta [E Hdelta]]]; rewrite E in *.
    + left. split; [reflexivity|].
      change (int (Fin 0) = ret k) in H. injection H as <-. reflexivity.
    + right. unfold fdiv in H. destruct (Qeq_bool delta 0) eqn:Z.
      * destruct (Qsgn xi); discriminate.
      * apply Qeq_bool_neq in Z. assert (P : 0 < delta) by lra.
        rewrite f64_fin in H.
        destruct (round64_nonneg (xi / delta)) as [F|[v [F Hv]]].
        { apply Qle_shift_div_l; lra. }
        { rewrite F in H. discriminate. }
        rewrite F in H. injection H as <-.
        exists delta, v. repeat split; assumption.
Qed.

Lemma position_size_ret (x d E price : float64) (u : Z) :
  position_size x d E price = ret u ->
  exists k c,
    int (fdiv64 x d) = ret k
    /\ int (fdiv64 (fmul64 E (lit 0.95)) price) = ret c
    /\ u = Z.min k c.
Proof.
  unfold position_size.
  destruct (int (fdiv64 x d)) as [e|k]; [discriminate|].
  destruct (int (fdiv64 (fmul64 E (lit 0.95)) price)) as [e|c];
    [discriminate|].
  simpl. intros H. injection H as <-. exists k, c. repeat split.
Qed.

Lemma Qtrunc_nonneg_le (v : Q) : 0 <= v -> (0 <= Qtrunc v)%Z.
Proof.
  intros H. rewrite (Qtrunc_nonneg _ H). apply Qfloor_lower. exact H.
Qed.

(** A wider stop never increases the risk-based number of units. *)
Lemma risk_units_wider_stop (x d d' : Q) (k k' : Z) :
  0 <= x -> 0 < d -> d <= d' ->
  int (fdiv64 (Fin x) (Fin d)) = ret k ->
  int (fdiv64 (Fin x) (Fin d')) = ret k' ->
  (k' <= k)%Z.
Proof.
  intros Hx Hd Hd' H H'.
  destruct (int_fdiv64_cases x d k Hx ltac:(lra) H) as [xi [R [Hxi C]]].
  destruct (int_fdiv64_cases x d' k' Hx ltac:(lra) H') as [xi' [R' [_ C']]].
  rewrite R in R'. injection R' as <-.
  pose proof (round64_monotone d d' Hd') as M.
  destruct C as [[D ->]|[delta [v [D [Pd [V [Hv ->]]]]]]];
    destruct C' as [[D' ->]|[delta' [v' [D' [Pd' [V' [Hv' ->]]]]]]];
    rewrite D, D' in M.
  - lia.
  - discriminate M.
  - apply Qtrunc_nonneg_le, Hv.
  - apply fleb_fin in M. apply Qtrunc_monotone.
    pose proof (round64_monotone (xi / delta') (xi / delta)
                  (Qdiv_le_wider xi delta delta' Hxi Pd M)) as N.
    rewrite V, V' in N. apply fleb_fin, N.
Qed.

(** A larger risk amount never decreases it. *)
Lemma risk_units_larger_amount (x x' d : Q) (k k' : Z) :
  0 <= x -> x <= x' -> 0 < d ->
  int (fdiv64 (Fin x) (Fin d)) = ret k ->
  int (fdiv64 (Fin x') (Fin d)) = ret k' ->
  (k <= k')%Z.
Proof.
  intros Hx Hx' Hd H H'.
  destruct (int_fdiv64_cases x d k Hx ltac:(lra) H) as [xi [R [Hxi C]]].
  destruct (int_fdiv64_cases x' d k' ltac:(lra) ltac:(lra) H')
    as [xi' [R' [_ C']]].
  pose proof (round64_monotone x x' Hx') as M. rewrite R, R' in M.
  apply fleb_fin in M.
  destruct C as [[D ->]|[delta [v [D [Pd [V [Hv ->]]]]]]];
    destruct C' as [[D' ->]|[delta' [v' [D' [Pd' [V' [Hv' ->]]]]]]];
    rewrite D in D'; try discriminate D'.
  - lia.
  - injection D' as <-. apply Qtrunc_monotone.
    pose proof (round64_monotone (xi / delta) (xi' / delta)
                  (scaled_monotone xi xi' delta Pd M)) as N.
    rewrite V, V' in N. apply fleb_fin, N.
Qed.

(** X7. A wider stop never increases the size, and a larger risk amount never
    decreases it: for a non-negative risk amount and positive stop
    distances [d <= d'], whenever the sizes computed with [d] and with
    [d'] both exist (no quotient has overflowed), the second is at most
    the first; and for risk amounts [x <= x'], whenever both sizes exist,
    the size computed with [x] is at most the size computed with [x']. *)
Theorem position_size_monotone :
  forall (x x' d d' : Q) (E price : float64) (u u_wide u_more : Z),
    0 <= x -> x <= x' -> 0 < d -> d <= d' ->
    position_size (Fin x) (Fin d) E price = ret u ->
    (position_size (Fin x) (Fin d') E price = ret u_wide ->
     (u_wide <= u)%Z)
    /\ (position_size (Fin x') (Fin d) E price = ret u_more ->
        (u <= u_more)%Z).
Proof.
  intros x x' d d' E price u u_wide u_more Hx Hx' Hd Hd' H.
  destruct (position_size_ret _ _ _ _ _ H) as [k [c [K [C ->]]]].
  split; intros H'.
  - destruct (position_size_ret _ _ _ _ _ H') as [k' [c' [K' [C' ->]]]].
    rewrite C in C'. injection C' as <-.
    apply Z.min_le_compat_r.
    exact (risk_units_wider_stop x d d' k k' Hx Hd Hd' K K').
  - destruct (position_size_ret _ _ _ _ _ H') as [k' [c' [K' [C' ->]]]].
    rewrite C in C'. injection C' as <-.
    apply Z.min_le_compat_r.
    exact (risk_units_larger_amount x x' d k k' Hx Hx' Hd K K').
Qed.

(** An instance: a risk amount of 100000 with distances 8 and 10, and a
    risk amount of 200000 with distance 8. *)
Lemma position_size_monotone_witness :
  (10000 <= 12500)%Z /\ (12500 <= 25000)%Z.
Proof.
  pose proof (position_size_monotone 100000 200000 8 10
                (Fin 10000000) (Fin 100) 12500 10000 25000
                ltac:(discriminate) ltac:(discriminate) eq_refl
                ltac:(discriminate)
                ltac:(vm_compute; reflexivity)) as [H1 H2].
  split; [apply H1|apply H2]; vm_compute; reflexivity.
Defined.

(* ------------------------------------------------------------------ *)
(** ** The ADX lies between 0 and 100 *)

Lemma Qsgn_zero (q : Q) : q == 0 -> Qsgn q = Eq.
Proof.
  destruct q as [n d]. unfold Qeq, Qsgn. simpl. intros H.
  apply Z.compare_eq_iff. lia.
Qed.

(** One value of the directional movement index from the two directional
    indicators of its bar. *)
Lemma dx_in_percent (pd nd : float64) :
  nan_inf_or_nonneg pd -> nan_inf_or_nonneg nd ->
  in_percent (lit 100 * (fabs (pd - nd) / (pd + nd)))%f64.
Proof.
  intros [->|[->|[a [-> Ha]]]] [->|[->|[b [-> Hb]]]];
    try (left; reflexivity).
  change (lit 100 * (fabs (Fin a - Fin b) / (Fin a + Fin b)))%f64
    with (Fin 100
          * (if Qeq_bool (a + b) 0 then inf_of (Qsgn (Qabs (a + - b)))
             else Fin (Qabs (a + - b) / (a + b))))%f64.
  destruct (Qeq_bool (a + b) 0) eqn:E.
  - apply Qeq_bool_iff in E. left.
    assert (Z0 : Qabs (a + - b) == 0).
    { apply Qabs_case; intros; lra. }
    rewrite (Qsgn_zero _ Z0). reflexivity.
  - apply Qeq_bool_neq in E. right.
    exists (100 * (Qabs (a + - b) / (a + b))). split; [reflexivity|].
    assert (Hs : 0 < a + b).
    { destruct (Qlt_le_dec 0 (a + b)); [assumption|].
      exfalso. apply E. lra. }
    assert (H0 : 0 <= Qabs (a + - b)) by apply Qabs_nonneg.
    assert (H1 : Qabs (a + - b) <= a + b).
    { apply Qabs_case; intros; lra. }
    assert (L : 0 <= Qabs (a + - b) / (a + b))
      by (apply Qle_shift_div_l; lra).
    assert (U : Qabs (a + - b) / (a + b) <= 1)
      by (apply Qle_shift_div_r; lra).
    split; lra.
Qed.

(** One value of a directional indicator from the rolling sums of its
    bar. *)
Lemma di_nan_inf_or_nonneg (dm tr : float64) :
  nan_or_nonneg dm -> nan_or_nonneg tr ->
  nan_inf_or_nonneg (lit 100 * (dm / tr))%f64.
Proof.
  intros [->|[a [-> Ha]]] [->|[b [-> Hb]]]; try (left; reflexivity).
  change (lit 100 * (Fin a / Fin b))%f64
    with (Fin 100
          * (if Qeq_bool b 0 then inf_of (Qsgn a) else Fin (a / b)))%f64.
  destruct (Qeq_bool b 0) eqn:E.
  - unfold Qsgn. destruct (Qnum a ?= 0)%Z eqn:S.
    + left. reflexivity.
    + exfalso. destruct a as [n d]. unfold Qle in Ha.
      cbn [Qnum Qden] in Ha, S. change (n < 0)%Z in S.
      rewrite Z.mul_1_r in Ha. lia.
    + right. left. reflexivity.
  - apply Qeq_bool_neq in E. right. right.
    exists (100 * (a / b)). split; [reflexivity|].
    assert (0 < b) by (destruct (Qlt_le_dec 0 b); [assumption|exfalso; apply E; lra]).
    assert (0 <= a / b) by (apply Qle_shift_div_l; lra).
    lra.
Qed.

Lemma agg_mean_in_percent (qs : list Q) :
  Forall (fun q => 0 <= q /\ q <= 100) qs -> in_percent (agg_mean qs).
Proof.
  intros H. destruct qs as [|q0 qs]; [left; reflexivity|].
  right. eexists. split; [reflexivity|].
  assert (Hlen : 0 < inject_Z (Z.of_nat (length (q0 :: qs)))).
  { change 0 with (inject_Z 0). rewrite <- Zlt_Qlt. simpl length. lia. }
  assert (Hsum : 0 <= qsum (q0 :: qs)
                 /\ qsum (q0 :: qs)
                    <= 100 * inject_Z (Z.of_nat (length (q0 :: qs)))).
  { clear Hlen. induction H as [|q l [Hq0 Hq1] _ IH].
    - simpl. change (inject_Z 0) with 0. lra.
    - cbn [qsum fold_right length]. fold (qsum l).
      rewrite Nat2Z.inj_succ, <- Z.add_1_r, inject_Z_plus.
      change (inject_Z 1) with 1. lra. }
  split.
  - apply Qle_shift_div_l; lra.
  - apply Qle_shift_div_r; lra.
Qed.

Section ADXRange.

Local Open Scope nat_scope.

(** A rolling aggregate keeps what its aggregate guarantees for windows
    of finite values that satisfy [P]. *)
Lemma rolling_Forall (P : Q -> Prop) (R : float64 -> Prop)
  (agg : list Q -> float64) (n : nat) (xs : Series) :
  R NaN -> (forall qs, Forall P qs -> R (agg qs)) ->
  Forall (when_finite P) xs -> Forall R (rolling n agg xs).
Proof.
  intros Rn Ragg H. unfold rolling. apply Forall_forall. intros x Hx.
  apply in_map_iff in Hx. destruct Hx as [i [<- _]].
  destruct (window n i xs) as [w|] eqn:W; [|exact Rn].
  destruct (finites w) as [qs|] eqn:F; [|exact Rn].
  apply Ragg. apply Forall_forall. intros q Hq.
  apply finites_map_Fin in F.
  assert (Hw : In (Fin q) w) by (rewrite F; apply in_map; exact Hq).
  pose proof (In_window n i xs w (Fin q) W Hw) as Hin.
  rewrite Forall_forall in H. exact (H _ Hin q eq_refl).
Qed.

Lemma nan_or_nonneg_when_finite (xs : Series) :
  Forall nan_or_nonneg xs -> Forall (when_finite (fun q => (0 <= q)%Q)) xs.
Proof.
  apply Forall_impl. intros x [->|[q [-> Hq]]] q' E; inversion E.
  subst. exact Hq.
Qed.

Lemma rolling_sum_nonneg (n : nat) (xs : Series) :
  Forall nan_or_nonneg xs -> Forall nan_or_nonneg (rolling n agg_sum xs).
Proof.
  intros H.
  apply (rolling_Forall (fun q => (0 <= q)%Q)); [left; reflexivity| |].
  - intros qs Hq. right. eexists. split; [reflexivity|].
    apply qsum_nonneg. exact Hq.
  - apply nan_or_nonneg_when_finite. exact H.
Qed.

(** The directional movement kept by [np.where] is a positive move or
    zero. *)
Lemma where0_positive_nonneg (A : list bool) (xs : Series) :
  Forall (fun x => fin_or_nan x = true) xs ->
  Forall nan_or_nonneg
    (where0 (zip_with andb A (map (fun u => (u >? lit 0)%f64) xs)) xs).
Proof.
  intros H. revert A. induction H as [|x xs Hx _ IH]; intros A.
  - destruct A; constructor.
  - destruct A as [|a A]; [constructor|].
    unfold where0, zip_with in *. cbn [map combine fst snd].
    constructor; [|apply IH].
    destruct a; cbn [andb]; [|right; exists 0%Q; split; [reflexivity|lra]].
    destruct (x >? lit 0)%f64 eqn:G;
      [|right; exists 0%Q; split; [reflexivity|lra]].
    destruct x as [q| | |]; try discriminate.
    apply fgtb_fin in G. right. exists q. split; [reflexivity|lra].
Qed.

Lemma fsub_fin_or_nan_r (a b : float64) :
  is_finite a = true -> fin_or_nan b = true -> fin_or_nan (a - b)%f64 = true.
Proof. destruct a, b; try discriminate; reflexivity. Qed.

Lemma fsub_fin_or_nan_l (a b : float64) :
  fin_or_nan a = true -> is_finite b = true -> fin_or_nan (a - b)%f64 = true.
Proof. destruct a, b; try discriminate; reflexivity. Qed.

(** The values of the index before its rolling mean. *)
Lemma dx_list_in_percent (pos_di neg_di : Series) :
  Forall nan_inf_or_nonneg pos_di -> Forall nan_inf_or_nonneg neg_di ->
  Forall in_percent
    (map (fmul (lit 100))
       (zip_with fdiv (Pandas.abs (zip_with fsub pos_di neg_di))
          (zip_with fadd pos_di neg_di))).
Proof.
  intros Hp. revert neg_di. induction Hp as [|x xs Hx _ IH]; intros neg_di Hn.
  - constructor.
  - destruct Hn as [|y ys Hy Hys]; [constructor|].
    unfold Pandas.abs, zip_with in *. cbn [map combine fst snd].
    constructor; [apply dx_in_percent; assumption|].
    apply IH. exact Hys.
Qed.

Lemma di_list (dm_s tr_s : Series) :
  Forall nan_or_nonneg dm_s -> Forall nan_or_nonneg tr_s ->
  Forall nan_inf_or_nonneg (map (fmul (lit 100)) (zip_with fdiv dm_s tr_s)).
Proof.
  intros Hd Ht.
  apply Forall_map_Forall with (P := fun x => exists a b,
      nan_or_nonneg a /\ nan_or_nonneg b /\ x = (a / b)%f64).
  - intros x [a [b [Ha [Hb ->]]]]. apply di_nan_inf_or_nonneg; assumption.
  - apply Forall_zip_with with (P := nan_or_nonneg) (Q := nan_or_nonneg);
      try assumption.
    intros a b Ha Hb. exists a, b. auto.
Qed.

(** X10. For finite bars whose first bar has [low <= high], every value of the
    ADX is undefined or lies between 0 and 100. *)
Theorem ADX_between_0_and_100 :
  forall (high low close : Series) (n i : nat) (a : Series),
    all_finite high = true -> all_finite low = true ->
    all_finite close = true ->
    (forall h0 l0 : Q,
        nth 0 high NaN = Fin h0 -> nth 0 low NaN = Fin l0 -> (l0 <= h0)%Q) ->
    ADX (ohlc high low close) n = ret a ->
    in_percent (nth i a NaN).
Proof.
  intros high low close n i a Hh Hl Hc H0 HA.
  rewrite ADX_ohlc in HA. inversion HA; subst a; clear HA.
  destruct (Nat.lt_ge_cases i
              (length (ADX_series (ATR (ohlc high low close) 1) high low n)))
    as [L|L]; [|left; apply nth_overflow; exact L].
  assert (F : Forall in_percent
                (ADX_series (ATR (ohlc high low close) 1) high low n)).
  { unfold ADX_series.
    apply (rolling_Forall (fun q => (0 <= q /\ q <= 100)%Q));
      [left; reflexivity|exact agg_mean_in_percent|].
    assert (Htr : Forall nan_or_nonneg (ATR (ohlc high low close) 1)).
    { rewrite ATR_ohlc. apply rolling_mean_nonneg.
      apply true_range_nonneg; assumption. }
    pose proof (rolling_sum_nonneg n _ Htr) as Htrs.
    pose proof (proj1 (all_finite_Forall high) Hh) as Fh.
    pose proof (proj1 (all_finite_Forall low) Hl) as Fl.
    assert (Hup : Forall (fun x => fin_or_nan x = true)
                    (zip_with fsub high (shift high))).
    { apply Forall_zip_with
        with (P := fun x => is_finite x = true)
             (Q := fun x => fin_or_nan x = true);
        [exact fsub_fin_or_nan_r|exact Fh|apply shift_fin_or_nan; exact Hh]. }
    assert (Hdown : Forall (fun x => fin_or_nan x = true)
                      (zip_with fsub (shift low) low)).
    { apply Forall_zip_with
        with (P := fun x => fin_or_nan x = true)
             (Q := fun x => is_finite x = true);
        [exact fsub_fin_or_nan_l|apply shift_fin_or_nan; exact Hl|exact Fl]. }
    assert (Hdx : Forall in_percent
      (map (fmul (lit 100))
         (zip_with fdiv
            (Pandas.abs
               (zip_with fsub
                  (map (fmul (lit 100))
                     (zip_with fdiv
                        (rolling n agg_sum
                           (where0
                              (zip_with andb
                                 (zip_with fgtb
                                    (zip_with fsub high (shift high))
                                    (zip_with fsub (shift low) low))
                                 (map (fun u => (u >? lit 0)%f64)
                                    (zip_with fsub high (shift high))))
                              (zip_with fsub high (shift high))))
                        (rolling n agg_sum (ATR (ohlc high low close) 1))))
                  (map (fmul (lit 100))
                     (zip_with fdiv
                        (rolling n agg_sum
                           (where0
                              (zip_with andb
                                 (zip_with fgtb
                                    (zip_with fsub (shift low) low)
                                    (zip_with fsub high (shift high)))
                                 (map (fun d => (d >? lit 0)%f64)
                                    (zip_with fsub (shift low) low)))
                              (zip_with fsub (shift low) low)))
                        (rolling n agg_sum (ATR (ohlc high low close) 1))))))
            (zip_with fadd
               (map (fmul (lit 100))
                  (zip_with fdiv
                     (rolling n agg_sum
                        (where0
                           (zip_with andb
                              (zip_with fgtb
                                 (zip_with fsub high (shift high))
                                 (zip_with fsub (shift low) low))
                              (map (fun u => (u >? lit 0)%f64)
                                 (zip_with fsub high (shift high))))
                           (zip_with fsub high (shift high))))
                     (rolling n agg_sum (ATR (ohlc high low close) 1))))
               (map (fmul (lit 100))
                  (zip_with fdiv
                     (rolling n agg_sum
                        (where0
                           (zip_with andb
                              (zip_with fgtb
                                 (zip_with fsub (shift low) low)
                                 (zip_with fsub high (shift high)))
                              (map (fun d => (d >? lit 0)%f64)
                                 (zip_with fsub (shift low) low)))
                           (zip_with fsub (shift low) low)))
                     (rolling n agg_sum (ATR (ohlc high low close) 1)))))))).
    { apply dx_list_in_percent; apply di_list; try exact Htrs;
        apply rolling_sum_nonneg; apply where0_positive_nonneg; assumption. }
    revert Hdx. apply Forall_impl.
    intros x [->|[q [-> Hq]]] q' E; inversion E. subst. exact Hq. }
  rewrite Forall_forall in F. apply F. apply nth_In. exact L.
Qed.

(** An instance: the ADX of window 2 of three bars. *)
Lemma ADX_between_0_and_100_witness :
  in_percent
    (nth 2 (ADX_series (ATR (ohlc highs3 lows3 closes3) 1) highs3 lows3 2)
         NaN).
Proof.
  apply (ADX_between_0_and_100 highs3 lows3 closes3 2 2 _
           eq_refl eq_refl eq_refl).
  - intros h0 l0 Eh El. inversion Eh. inversion El. discriminate.
  - reflexivity.
Defined.

End ADXRange.

(* ------------------------------------------------------------------ *)
(** ** When the guard covers the ATR's warm-up *)

Section GuardCoversATR.

Local Open Scope nat_scope.

(** X4. When the ATR window is at least 1 and at most [ma_period + 5], the
    guards cover the ATR's warm-up: on finite bars, every bar that has
    reached the warm-up bound of either class has a defined, finite ATR,
    so every bar either is skipped by [next] or has a finite ATR, and the
    undefined stop distance of the warm-up never reaches the sizing
    lines. *)
Theorem atr_defined_when_guard_covers_it :
  forall (p : Params) (high low close : Series) (ind : Indicators)
         (i : nat) (eq : float64) (ts : list Trade),
    init p (ohlc high low close) = ret ind ->
    all_finite high = true -> all_finite low = true ->
    all_finite close = true ->
    length high = length close -> length low = length close ->
    i < length close ->
    1 <= n_atr p -> n_atr p <= ma_period p + 5 ->
    (ma_period p + 5 <= data_len (bar_at ind i eq ts) ->
     is_finite (atr_last (bar_at ind i eq ts)) = true)
    /\ (Nat.max (ma_period p) (donchian_period p) + 5
        <= data_len (bar_at ind i eq ts) ->
        is_finite (atr_last (bar_at ind i eq ts)) = true)
    /\ forall next,
        In next [FinalLowDrawdownStrategy.next; RiskManagedStrategy.next] ->
        next p (bar_at ind i eq ts) = ret (skip (bar_at ind i eq ts))
        \/ is_finite (atr_last (bar_at ind i eq ts)) = true.
Proof.
  intros p high low close ind i eq ts Hinit Hh Hl Hc Lh Ll Hi Hn1 Hn2.
  destruct (init_inv p _ ind Hinit)
    as [h [l [c [ah [al [Eh [El [Ec ->]]]]]]]].
  inversion Eh; subst h. inversion El; subst l. inversion Ec; subst c.
  clear Eh El Ec.
  assert (Hatr : ma_period p + 5 <= S i ->
                 is_finite
                   (nth i (rolling (n_atr p) agg_mean
                             (true_range high low close)) NaN) = true).
  { intros G.
    destruct (true_range_finite high low close Hh Hl Hc Lh Ll) as [Ft Lt].
    destruct (rolling_mean_defined (n_atr p) i (true_range high low close)
                Hn1 Ft ltac:(rewrite Lt; exact Hi)) as [_ H].
    apply H. lia. }
  cbn [bar_at atr_last atr data_len].
  split; [exact Hatr|]. split; [intros G; apply Hatr; lia|].
  intros next Hnext.
  assert (Hw : exists warmup,
             next = next_with warmup /\ ma_period p + 5 <= warmup p).
  { destruct Hnext as [<-|[<-|[]]]; eexists; (split; [reflexivity|]).
    - unfold FinalLowDrawdownStrategy.warmup. lia.
    - unfold RiskManagedStrategy.warmup. lia. }
  destruct Hw as [warmup [-> Hwarm]].
  destruct (Nat.lt_ge_cases (S i) (warmup p)) as [G|G].
  - left. apply next_with_skips. left. exact G.
  - right. apply Hatr. lia.
Qed.

(** An instance: bar 30 of the forty rising bars. *)
Lemma atr_defined_when_guard_covers_it_witness :
  exists ind,
    init params_short frame40 = ret ind
    /\ is_finite (atr_last (bar_at ind 30 (Fin 10000000) [])) = true.
Proof.
  eexists. split; [reflexivity|].
  apply (proj1 (atr_defined_when_guard_covers_it
                  params_short
                  (rising40 10) (rising40 9) (rising40 10) _ 30
                  (Fin 10000000) []
                  eq_refl eq_refl eq_refl eq_refl eq_refl eq_refl
                  ltac:(simpl; lia) ltac:(simpl; lia) ltac:(simpl; lia))).
  simpl. lia.
Defined.

End GuardCoversATR.
